(** * Stratified question sampler of the interview assistant

    A shallow embedding of [shuffleArray] and [selectRandomQuestions]
    (lib/markdownParser.ts) together with the properties of the sampler
    stated in the specification.

    Conventions of the embedding.

    - JavaScript numbers that hold integers ([count], [weekNumber], lengths,
      indices) are [Z] or [nat]; all values are assumed to stay in the
      range where IEEE doubles represent integers exactly.  The products
      with the ratios 0.1, 0.4 and 0.5 are rounded as exact rationals;
      lemma [Math_round_ratio_on_doubles] compares this with doubles.
    - [Math.random()] is an external stream of draws.  The [k]-th call is
      only ever used as [Math.floor(Math.random() * bound)], an index below
      [bound]; the stream is a function [Rng] from the call number to a
      natural number and the index is that number modulo [bound].
    - In the first embedding arrays are lists and the functions are pure.
      Module [Heap] embeds the same code over a store of mutable arrays;
      it is shown to compute the same results and to leave every array it
      is given as it was.  Question records are never assigned to by the
      sampler, so they are plain values in both. *)

From Stdlib Require Import ZArith String Ascii Lia.
From Stdlib Require PrimFloat Uint63.
From stdpp Require Import base tactics list strings gmap pretty sorting.

Open Scope Z_scope.

(** Lengths and indices are read as integers where the code compares them
    with [count] and the quotas. *)
#[local] Coercion Z.of_nat : nat >-> Z.

(** ** Data model (lib/types.ts) *)

Inductive Difficulty := beginner | intermediate | advanced.

Inductive InterviewLevel := entry | experienced.

#[global] Instance Difficulty_eq_dec : EqDecision Difficulty.
Proof. solve_decision. Defined.

#[global] Instance InterviewLevel_eq_dec : EqDecision InterviewLevel.
Proof. solve_decision. Defined.

(** [weekNumber] is declared as a number; [None] stands for a record on
    which the field is absent ([undefined]), the case the fallback in
    [selectRandomQuestions] is written for. *)
Record ParsedQuestion := {
  id : string;
  questionNumber : Z;
  question : string;
  keywords : list string;
  modelAnswer : string;
  difficulty : Difficulty;
  weekNumber : option Z
}.

#[global] Instance ParsedQuestion_eq_dec : EqDecision ParsedQuestion.
Proof. solve_decision. Defined.

(** ** The random source and the state monad threading it *)

Definition Rng := nat → nat.

(** A computation reads the stream [r] from call number [c] on and returns
    its result with the number of the next unused call. *)
Definition Rand (A : Type) := Rng → nat → A * nat.

Definition ret {A} (a : A) : Rand A := λ _ c, (a, c).

Definition bind {A B} (m : Rand A) (f : A → Rand B) : Rand B :=
  λ r c, let '(a, c') := m r c in f a r c'.

Notation "'let*' x ':=' m 'in' k" := (bind m (λ x, k))
  (at level 10, x name, m at level 100, k at level 200).

(** [Math.floor(Math.random() * bound)] *)
Definition random_index (bound : nat) : Rand nat :=
  λ r c, ((r c `mod` bound)%nat, S c).

(** ** shuffleArray *)

(** [[a[i], a[j]] = [a[j], a[i]]]: both reads happen first, then [a[i]] and
    [a[j]] are written in that order.  In [shuffleArray] both indices are
    always inside the array (lemma [shuffle_swap_in_range]); outside it the
    model leaves the list alone. *)
Definition swap {A} (i j : nat) (a : list A) : list A :=
  match a !! i, a !! j with
  | Some x, Some y => <[j:=x]> (<[i:=y]> a)
  | _, _ => a
  end.

(** The loop [for (let i = n - 1; i > 0; i--)], started at [i]. *)
Fixpoint shuffle_loop {A} (i : nat) (shuffled : list A) : Rand (list A) :=
  match i with
  | O => ret shuffled
  | S i' =>
      let* j := random_index (S i' + 1) in
      shuffle_loop i' (swap (S i') j shuffled)
  end.

Definition shuffleArray {A} (array : list A) : Rand (list A) :=
  let shuffled := array in
  shuffle_loop (length shuffled - 1) shuffled.

(** ** JavaScript helpers used by selectRandomQuestions *)

(** [a.slice(0, e)]: a negative [e] counts from the end of the array. *)
Definition slice0 {A} (a : list A) (e : Z) : list A :=
  if decide (e < 0) then take (Z.to_nat (Z.max (length a + e) 0)) a
  else take (Z.to_nat e) a.

(** A [Map] with number keys keeps its entries in insertion order: an
    association list with pairwise distinct keys. *)
Definition Map_has {V} (m : list (Z * V)) (k : Z) : bool :=
  bool_decide (k ∈ m.*1).

Fixpoint Map_get {V} (m : list (Z * V)) (k : Z) : option V :=
  match m with
  | [] => None
  | (k', v) :: m' => if decide (k' = k) then Some v else Map_get m' k
  end.

Fixpoint Map_set {V} (m : list (Z * V)) (k : Z) (v : V) : list (Z * V) :=
  match m with
  | [] => [(k, v)]
  | (k', v') :: m' =>
      if decide (k' = k) then (k, v) :: m' else (k', v') :: Map_set m' k v
  end.

(** [byWeek : Map<number, ParsedQuestion[]>] *)
Definition WeekMap := list (Z * list ParsedQuestion).

(** [m.get(k)!.push(q)]: the array stored under [k] grows in place. *)
Definition Map_push (m : WeekMap) (k : Z) (q : ParsedQuestion) : WeekMap :=
  match Map_get m k with
  | Some v => Map_set m k (v ++ [q])
  | None => m
  end.

(** [m.get(k)!] where the key is known to be present. *)
Definition Map_get_present (m : WeekMap) (k : Z) : list ParsedQuestion :=
  default [] (Map_get m k).

(** [Array.prototype.sort()] without a comparator orders the elements by
    their string conversions, compared code unit by code unit; the sort is
    stable.  For integers the conversion is the decimal numeral. *)
Definition ToString (n : Z) : string := pretty n.

Fixpoint sort_insert (x : Z) (sorted : list Z) : list Z :=
  match sorted with
  | [] => [x]
  | y :: sorted' =>
      if String.ltb (ToString y) (ToString x)
      then y :: sort_insert x sorted'
      else x :: y :: sorted'
  end.

Definition Array_sort (a : list Z) : list Z := foldr sort_insert [] a.

(** [Math.round(n * ratio)] for an integer [n] and a ratio of [tenths]
    tenths.  [Math.round] rounds to the nearest integer, halves upwards.
    The doubles 0.1, 0.4 and 0.5 multiplied by an integer give the double
    nearest to the exact product, which is the exact half whenever the
    product is a half, so the result is the rounding of the exact
    rational [n * tenths / 10]. *)
Definition Math_round_ratio (n tenths : Z) : Z := (n * tenths + 5) `div` 10.

(** ** selectRandomQuestions *)

(** The difficulty weights, in tenths. *)
Record Ratios := {
  beginnerRatio : Z;
  intermediateRatio : Z;
  advancedRatio : Z
}.

Definition ratiosOf (interviewLevel : InterviewLevel) : Ratios :=
  match interviewLevel with
  | experienced =>
      {| beginnerRatio := 1; intermediateRatio := 4; advancedRatio := 5 |}
  | entry =>
      {| beginnerRatio := 5; intermediateRatio := 4; advancedRatio := 1 |}
  end.

(** [q.weekNumber || 99] *)
Definition weekNum (q : ParsedQuestion) : Z :=
  match weekNumber q with
  | Some w => if decide (w = 0) then 99 else w
  | None => 99
  end.

(** Body of [questions.forEach(q => ...)] that fills [byWeek]. *)
Definition byWeek_add (byWeek : WeekMap) (q : ParsedQuestion) : WeekMap :=
  let byWeek :=
    if Map_has byWeek (weekNum q) then byWeek
    else Map_set byWeek (weekNum q) [] in
  Map_push byWeek (weekNum q) q.

Definition groupByWeek (questions : list ParsedQuestion) : WeekMap :=
  foldl byWeek_add [] questions.

Definition hasDifficulty (d : Difficulty) (q : ParsedQuestion) : Prop :=
  difficulty q = d.

#[global] Instance hasDifficulty_dec d q : Decision (hasDifficulty d q).
Proof. unfold hasDifficulty. apply _. Defined.

Definition advancedCount (weekQuestions : list ParsedQuestion)
    (weekCount : Z) (rt : Ratios) : Z :=
  Z.min (length (filter (hasDifficulty advanced) weekQuestions))
        (Z.max 0 (Math_round_ratio weekCount (advancedRatio rt))).

Definition intermediateCount (weekQuestions : list ParsedQuestion)
    (weekCount : Z) (rt : Ratios) : Z :=
  Z.min (length (filter (hasDifficulty intermediate) weekQuestions))
        (Z.max 0 (Math_round_ratio weekCount (intermediateRatio rt))).

Definition beginnerCount (weekQuestions : list ParsedQuestion)
    (weekCount : Z) (rt : Ratios) : Z :=
  Z.max 0 (weekCount - intermediateCount weekQuestions weekCount rt
                     - advancedCount weekQuestions weekCount rt).

(** [new Set(selected.map(q => q.id))] *)
Definition idSet (selected : list ParsedQuestion) : gset string :=
  list_to_set (id <$> selected).

(** The three pushes of shuffled bucket prefixes onto [weekSelected]. *)
Definition stratify (weekQuestions : list ParsedQuestion) (weekCount : Z)
    (rt : Ratios) : Rand (list ParsedQuestion) :=
  let beginnerQuestions := filter (hasDifficulty beginner) weekQuestions in
  let intermediateQuestions :=
    filter (hasDifficulty intermediate) weekQuestions in
  let advancedQuestions := filter (hasDifficulty advanced) weekQuestions in
  let weekSelected := [] in
  let* sb := shuffleArray beginnerQuestions in
  let weekSelected := weekSelected ++
    slice0 sb (Z.min (length beginnerQuestions)
                     (beginnerCount weekQuestions weekCount rt)) in
  let* si := shuffleArray intermediateQuestions in
  let weekSelected := weekSelected ++
    slice0 si (Z.min (length intermediateQuestions)
                     (intermediateCount weekQuestions weekCount rt)) in
  let* sa := shuffleArray advancedQuestions in
  let weekSelected := weekSelected ++
    slice0 sa (Z.min (length advancedQuestions)
                     (advancedCount weekQuestions weekCount rt)) in
  ret weekSelected.

(** [if (selected.length < target) { ... selected.push(...) }]: the fill
    from the questions of [source] whose id is not selected yet.  The same
    code closes the per-week selection and the whole selection. *)
Definition backfill (source selected : list ParsedQuestion) (target : Z)
    : Rand (list ParsedQuestion) :=
  if decide (length selected < target) then
    let alreadySelectedIds := idSet selected in
    let* remaining :=
      shuffleArray (filter (λ q, id q ∉ alreadySelectedIds) source) in
    ret (selected ++ slice0 remaining (target - length selected))
  else ret selected.

(** What one week contributes: the callback of [weeks.forEach] up to the
    final [selected.push(...weekSelected)]. *)
Definition selectWeek (weekQuestions : list ParsedQuestion) (weekCount : Z)
    (rt : Ratios) : Rand (list ParsedQuestion) :=
  let* weekSelected := stratify weekQuestions weekCount rt in
  backfill weekQuestions weekSelected weekCount.

(** [perWeek + (index < remainder ? 1 : 0)] *)
Definition weekQuota (perWeek remainder : Z) (index : nat) : Z :=
  perWeek + (if decide (index < remainder) then 1 else 0).

(** [weeks.forEach((week, index) => ...)], from position [index] on. *)
Fixpoint weeks_forEach (byWeek : WeekMap) (perWeek remainder : Z)
    (rt : Ratios) (weeks : list Z) (index : nat)
    (selected : list ParsedQuestion) : Rand (list ParsedQuestion) :=
  match weeks with
  | [] => ret selected
  | week :: weeks' =>
      let weekQuestions := Map_get_present byWeek week in
      let weekCount := weekQuota perWeek remainder index in
      let* weekSelected := selectWeek weekQuestions weekCount rt in
      weeks_forEach byWeek perWeek remainder rt weeks' (S index)
        (selected ++ weekSelected)
  end.

Definition sortedWeeks (questions : list ParsedQuestion) : list Z :=
  Array_sort (groupByWeek questions).*1.

Definition selectRandomQuestions (questions : list ParsedQuestion)
    (count : Z) (interviewLevel : InterviewLevel)
    : Rand (list ParsedQuestion) :=
  let byWeek := groupByWeek questions in
  let weeks := sortedWeeks questions in
  let numWeeks := length weeks in
  if decide (numWeeks = 0%nat) then ret [] else
  let perWeek := count `div` numWeeks in
  let remainder := count `rem` numWeeks in
  let rt := ratiosOf interviewLevel in
  let* selected := weeks_forEach byWeek perWeek remainder rt weeks 0%nat [] in
  let* selected := backfill questions selected count in
  shuffleArray selected.

(** The result of a run, without the final state of the random source. *)
Definition sample (questions : list ParsedQuestion) (count : Z)
    (interviewLevel : InterviewLevel) (r : Rng) : list ParsedQuestion :=
  (selectRandomQuestions questions count interviewLevel r 0%nat).1.

(** * The sampler over a store of arrays

    JavaScript arrays are mutable objects handled by reference.  This
    second embedding keeps every array of questions in a store and passes
    references, so that [push] and the swap of [shuffleArray] are writes to
    the store and the caller's pool is an array among the others.  The
    [Map], the [Set]s and the array of week numbers are local to one call
    and stay values. *)
Module Heap.

Definition ref := nat.

Record State := mkState {
  arrays : list (list ParsedQuestion);
  calls : nat
}.

Definition M (A : Type) := Rng → State → A * State.

Definition ret {A} (a : A) : M A := λ _ s, (a, s).

Definition bind {A B} (m : M A) (f : A → M B) : M B :=
  λ r s, let '(a, s') := m r s in f a r s'.

Notation "'let!' x ':=' m 'in' k" := (bind m (λ x, k))
  (at level 10, x name, m at level 100, k at level 200).

(** A new array object. *)
Definition alloc (l : list ParsedQuestion) : M ref :=
  λ _ s, (length (arrays s),
          {| arrays := arrays s ++ [l]; calls := calls s |}).

Definition read (a : ref) : M (list ParsedQuestion) :=
  λ _ s, (default [] (arrays s !! a), s).

Definition write (a : ref) (l : list ParsedQuestion) : M unit :=
  λ _ s, (tt, {| arrays := <[a:=l]> (arrays s); calls := calls s |}).

Definition random_index (bound : nat) : M nat :=
  λ r s, ((r (calls s) `mod` bound)%nat,
          {| arrays := arrays s; calls := S (calls s) |}).

(** [a.length] *)
Definition Array_length (a : ref) : M nat :=
  let! l := read a in ret (length l).

(** [a.push(...items)] *)
Definition push (a : ref) (items : list ParsedQuestion) : M unit :=
  let! l := read a in write a (l ++ items).

(** [a.filter(q => P q)] *)
Definition Array_filter (P : ParsedQuestion → Prop)
    `{!∀ q, Decision (P q)} (a : ref) : M ref :=
  let! l := read a in alloc (filter P l).

(** [a.slice(0, e)] *)
Definition Array_slice0 (a : ref) (e : Z) : M ref :=
  let! l := read a in alloc (slice0 l e).

(** [[a[i], a[j]] = [a[j], a[i]]] *)
Definition swap_in_place (a : ref) (i j : nat) : M unit :=
  let! l := read a in write a (swap i j l).

Fixpoint shuffle_loop (i : nat) (shuffled : ref) : M unit :=
  match i with
  | O => ret tt
  | S i' =>
      let! j := random_index (S i' + 1) in
      let! _ := swap_in_place shuffled (S i') j in
      shuffle_loop i' shuffled
  end.

Definition shuffleArray (array : ref) : M ref :=
  let! elements := read array in
  let! shuffled := alloc elements in
  let! n := Array_length shuffled in
  let! _ := shuffle_loop (n - 1) shuffled in
  ret shuffled.

(** Body of [questions.forEach(q => ...)] that fills [byWeek]. *)
Definition byWeek_add (byWeek : list (Z * ref)) (q : ParsedQuestion)
    : M (list (Z * ref)) :=
  let weekNum := weekNum q in
  let! byWeek :=
    (if Map_has byWeek weekNum then ret byWeek
     else let! group := alloc [] in ret (Map_set byWeek weekNum group)) in
  let! _ :=
    (match Map_get byWeek weekNum with
     | Some group => push group [q]
     | None => ret tt
     end) in
  ret byWeek.

(** [questions.forEach] visits the indices [index], ..., [index + n - 1]
    and reads each element when it gets there. *)
Fixpoint group_forEach (questions : ref) (n index : nat)
    (byWeek : list (Z * ref)) : M (list (Z * ref)) :=
  match n with
  | O => ret byWeek
  | S n' =>
      let! elements := read questions in
      let! byWeek :=
        (match elements !! index with
         | Some q => byWeek_add byWeek q
         | None => ret byWeek
         end) in
      group_forEach questions n' (S index) byWeek
  end.

(** [selected.push(...source.slice(0, e))] *)
Definition push_slice0 (selected source : ref) (e : Z) : M unit :=
  let! slice := Array_slice0 source e in
  let! items := read slice in
  push selected items.

Definition stratify (weekQuestions : ref) (weekCount : Z) (rt : Ratios)
    : M ref :=
  let! beginnerQuestions :=
    Array_filter (hasDifficulty beginner) weekQuestions in
  let! intermediateQuestions :=
    Array_filter (hasDifficulty intermediate) weekQuestions in
  let! advancedQuestions :=
    Array_filter (hasDifficulty advanced) weekQuestions in
  let! nb := Array_length beginnerQuestions in
  let! ni := Array_length intermediateQuestions in
  let! na := Array_length advancedQuestions in
  let advancedCount :=
    Z.min na (Z.max 0 (Math_round_ratio weekCount (advancedRatio rt))) in
  let intermediateCount :=
    Z.min ni (Z.max 0 (Math_round_ratio weekCount (intermediateRatio rt))) in
  let beginnerCount :=
    Z.max 0 (weekCount - intermediateCount - advancedCount) in
  let! weekSelected := alloc [] in
  let! sb := shuffleArray beginnerQuestions in
  let! _ := push_slice0 weekSelected sb (Z.min nb beginnerCount) in
  let! si := shuffleArray intermediateQuestions in
  let! _ := push_slice0 weekSelected si (Z.min ni intermediateCount) in
  let! sa := shuffleArray advancedQuestions in
  let! _ := push_slice0 weekSelected sa (Z.min na advancedCount) in
  ret weekSelected.

Definition backfill (source selected : ref) (target : Z) : M unit :=
  let! n := Array_length selected in
  if decide (n < target) then
    let! chosen := read selected in
    let alreadySelectedIds := idSet chosen in
    let! candidates :=
      Array_filter (λ q, id q ∉ alreadySelectedIds) source in
    let! remaining := shuffleArray candidates in
    let! n := Array_length selected in
    push_slice0 selected remaining (target - n)
  else ret tt.

Definition selectWeek (weekQuestions : ref) (weekCount : Z) (rt : Ratios)
    : M ref :=
  let! weekSelected := stratify weekQuestions weekCount rt in
  let! _ := backfill weekQuestions weekSelected weekCount in
  ret weekSelected.

Fixpoint weeks_forEach (byWeek : list (Z * ref)) (perWeek remainder : Z)
    (rt : Ratios) (weeks : list Z) (index : nat) (selected : ref)
    : M unit :=
  match weeks with
  | [] => ret tt
  | week :: weeks' =>
      let weekCount := weekQuota perWeek remainder index in
      let! _ :=
        (match Map_get byWeek week with
         | Some weekQuestions =>
             let! weekSelected := selectWeek weekQuestions weekCount rt in
             let! items := read weekSelected in
             push selected items
         | None => ret tt
         end) in
      weeks_forEach byWeek perWeek remainder rt weeks' (S index) selected
  end.

Definition selectRandomQuestions (questions : ref) (count : Z)
    (interviewLevel : InterviewLevel) : M ref :=
  let! n := Array_length questions in
  let! byWeek := group_forEach questions n 0 [] in
  let weeks := Array_sort byWeek.*1 in
  let numWeeks := length weeks in
  if decide (numWeeks = 0%nat) then alloc [] else
  let perWeek := count `div` numWeeks in
  let remainder := count `rem` numWeeks in
  let! selected := alloc [] in
  let rt := ratiosOf interviewLevel in
  let! _ := weeks_forEach byWeek perWeek remainder rt weeks 0 selected in
  let! _ := backfill questions selected count in
  shuffleArray selected.

End Heap.

(** * The interview session store (store/interviewStore.ts)

    The store is the caller of [selectRandomQuestions].  Its actions are
    embedded as functions on the state of the store; [set({...})] merges
    the given fields into the state and [get()] reads it.  Scores are
    numbers the store only copies: they are doubles.  The object
    [assessments] is used as a map from question ids to assessments: a
    finite map with string keys (the ids the application produces are not
    names that a plain object inherits from its prototype). *)

(** ** Data model of a session (lib/types.ts) *)

Inductive StarterType := about_yourself | project_work.

#[global] Instance StarterType_eq_dec : EqDecision StarterType.
Proof. solve_decision. Defined.

Module StarterQuestion.
Record t := {
  id : string;
  question : string;
  type : StarterType;
  guidelines : list string
}.
End StarterQuestion.

#[global] Instance StarterQuestion_eq_dec : EqDecision StarterQuestion.t.
Proof. solve_decision. Defined.

Record SoftSkillsAssessment := {
  clearlySpoken : bool;
  eyeContact : bool;
  confidence : bool;
  structuredThinking : bool
}.

(** [keyof SoftSkillsAssessment] *)
Inductive SoftSkill :=
  skill_clearlySpoken | skill_eyeContact | skill_confidence
  | skill_structuredThinking.

Inductive AssessmentStatus :=
  pending | in_progress | processing | ready | validated.

Record QuestionAssessment := {
  questionId : string;
  keywordsHit : list string;
  keywordsMissed : list string;
  softSkills : SoftSkillsAssessment;
  interviewerNotes : string;
  didNotGetTo : bool;
  llmScore : option PrimFloat.float;
  llmFeedback : option string;
  finalScore : option PrimFloat.float;
  finalFeedback : option string;
  status : AssessmentStatus
}.

(** [Partial<QuestionAssessment>]: [None] is a key that the object does
    not have. *)
Module Partial.
Record t := {
  questionId : option string;
  keywordsHit : option (list string);
  keywordsMissed : option (list string);
  softSkills : option SoftSkillsAssessment;
  interviewerNotes : option string;
  didNotGetTo : option bool;
  llmScore : option PrimFloat.float;
  llmFeedback : option string;
  finalScore : option PrimFloat.float;
  finalFeedback : option string;
  status : option AssessmentStatus
}.

(** The object [{}]. *)
Definition empty : t :=
  {| questionId := None; keywordsHit := None; keywordsMissed := None;
     softSkills := None; interviewerNotes := None; didNotGetTo := None;
     llmScore := None; llmFeedback := None; finalScore := None;
     finalFeedback := None; status := None |}.
End Partial.

Module SessionStatus.
Inductive t := setup | in_progress | review | completed.
End SessionStatus.

Module InterviewSession.
Record t := {
  id : string;
  candidateName : option string;
  interviewerName : option string;
  date : string;
  selectedWeeks : list Z;
  questionCount : Z;
  starterQuestions : list StarterQuestion.t;
  questions : list ParsedQuestion;
  assessments : gmap string QuestionAssessment;
  currentQuestionIndex : Z;
  status : SessionStatus.t;
  overallTechnicalScore : option PrimFloat.float;
  overallSoftSkillScore : option PrimFloat.float;
  technicalFeedback : option string;
  softSkillFeedback : option string
}.
End InterviewSession.

Definition DEFAULT_SOFT_SKILLS : SoftSkillsAssessment :=
  {| clearlySpoken := false; eyeContact := false; confidence := false;
     structuredThinking := false |}.

(** [STARTER_QUESTION_CONFIG] *)
Record StarterConfig := {
  variations : list string;
  guidelinesOf : list string
}.

Definition STARTER_QUESTION_CONFIG (type : StarterType) : StarterConfig :=
  match type with
  | about_yourself =>
      {| variations :=
           [ "Tell me about yourself and your background in technology.";
             "What's your backstory? How did you get into tech?";
             "Give me a brief overview of your professional background.";
             "Walk me through your career journey so far.";
             "Tell me a bit about yourself - who are you professionally?" ];
         guidelinesOf :=
           [ "Clear and concise introduction";
             "Relevant technical background";
             "Career trajectory and goals";
             "Passion for the field" ] |}
  | project_work =>
      {| variations :=
           [ "Tell me about a significant project you've worked on.";
             "What's a recent project you're proud of?";
             "Describe a challenging project and your role in it.";
             "Walk me through a technical project from start to finish.";
             "What's a project that showcases your skills best?" ];
         guidelinesOf :=
           [ "Project scope and objectives";
             "Your specific role and contributions";
             "Technologies used";
             "Challenges faced and solutions";
             "Results and learnings" ] |}
  end.

(** [variations[Math.floor(Math.random() * variations.length)]]: the index
    is below the length, so the element exists. *)
Definition pickVariation (variations : list string) : Rand string :=
  let* j := random_index (length variations) in
  ret (default EmptyString (variations !! j)).

Definition generateStarterQuestions : Rand (list StarterQuestion.t) :=
  let aboutConfig := STARTER_QUESTION_CONFIG about_yourself in
  let projectConfig := STARTER_QUESTION_CONFIG project_work in
  let* aboutVariation := pickVariation (variations aboutConfig) in
  let* projectVariation := pickVariation (variations projectConfig) in
  ret [ {| StarterQuestion.id := "starter-1";
           StarterQuestion.question := aboutVariation;
           StarterQuestion.type := about_yourself;
           StarterQuestion.guidelines := guidelinesOf aboutConfig |};
        {| StarterQuestion.id := "starter-2";
           StarterQuestion.question := projectVariation;
           StarterQuestion.type := project_work;
           StarterQuestion.guidelines := guidelinesOf projectConfig |} ].

(** ** State of the store *)

Inductive SetupPhase := phase1 | phase2 | phase3.

Record RepoConfig := {
  owner : string;
  repo : string;
  branch : string
}.

Inductive GitHubFileType := file | dir.

Module GitHubFile.
Record t := {
  name : string;
  path : string;
  sha : string;
  size : Z;
  url : string;
  html_url : string;
  git_url : string;
  download_url : string;
  type : GitHubFileType
}.
End GitHubFile.

Record InterviewStore := {
  session : option InterviewSession.t;
  setupPhase : SetupPhase;
  repoConfig : RepoConfig;
  interviewLevel : InterviewLevel;
  selectedTechs : list GitHubFile.t;
  loadingQuestions : bool
}.

(** The state the store is created with. *)
Definition initialStore : InterviewStore :=
  {| session := None;
     setupPhase := phase1;
     repoConfig := {| owner := "Cognizant-Training"; repo := "Question-Bank";
                      branch := "main" |};
     interviewLevel := entry;
     selectedTechs := [];
     loadingQuestions := false |}.

(** [set({ session: s })] *)
Definition set_session (s : option InterviewSession.t) (st : InterviewStore)
    : InterviewStore :=
  {| session := s; setupPhase := setupPhase st; repoConfig := repoConfig st;
     interviewLevel := interviewLevel st; selectedTechs := selectedTechs st;
     loadingQuestions := loadingQuestions st |}.

Definition setSetupPhase (phase : SetupPhase) (st : InterviewStore)
    : InterviewStore :=
  {| session := session st; setupPhase := phase; repoConfig := repoConfig st;
     interviewLevel := interviewLevel st; selectedTechs := selectedTechs st;
     loadingQuestions := loadingQuestions st |}.

Definition setRepoConfig (config : RepoConfig) (st : InterviewStore)
    : InterviewStore :=
  {| session := session st; setupPhase := setupPhase st; repoConfig := config;
     interviewLevel := interviewLevel st; selectedTechs := selectedTechs st;
     loadingQuestions := loadingQuestions st |}.

Definition setInterviewLevel (level : InterviewLevel) (st : InterviewStore)
    : InterviewStore :=
  {| session := session st; setupPhase := setupPhase st;
     repoConfig := repoConfig st; interviewLevel := level;
     selectedTechs := selectedTechs st;
     loadingQuestions := loadingQuestions st |}.

Definition setSelectedTechs (techs : list GitHubFile.t) (st : InterviewStore)
    : InterviewStore :=
  {| session := session st; setupPhase := setupPhase st;
     repoConfig := repoConfig st; interviewLevel := interviewLevel st;
     selectedTechs := techs; loadingQuestions := loadingQuestions st |}.

Definition setLoadingQuestions (loading : bool) (st : InterviewStore)
    : InterviewStore :=
  {| session := session st; setupPhase := setupPhase st;
     repoConfig := repoConfig st; interviewLevel := interviewLevel st;
     selectedTechs := selectedTechs st; loadingQuestions := loading |}.

(** ** Updates of a session: [{ ...session, field: value }] *)

Definition with_currentQuestionIndex (index : Z) (s : InterviewSession.t)
    : InterviewSession.t :=
  {| InterviewSession.id := InterviewSession.id s;
     InterviewSession.candidateName := InterviewSession.candidateName s;
     InterviewSession.interviewerName := InterviewSession.interviewerName s;
     InterviewSession.date := InterviewSession.date s;
     InterviewSession.selectedWeeks := InterviewSession.selectedWeeks s;
     InterviewSession.questionCount := InterviewSession.questionCount s;
     InterviewSession.starterQuestions := InterviewSession.starterQuestions s;
     InterviewSession.questions := InterviewSession.questions s;
     InterviewSession.assessments := InterviewSession.assessments s;
     InterviewSession.currentQuestionIndex := index;
     InterviewSession.status := InterviewSession.status s;
     InterviewSession.overallTechnicalScore :=
       InterviewSession.overallTechnicalScore s;
     InterviewSession.overallSoftSkillScore :=
       InterviewSession.overallSoftSkillScore s;
     InterviewSession.technicalFeedback := InterviewSession.technicalFeedback s;
     InterviewSession.softSkillFeedback :=
       InterviewSession.softSkillFeedback s |}.

Definition with_assessments (a : gmap string QuestionAssessment)
    (s : InterviewSession.t) : InterviewSession.t :=
  {| InterviewSession.id := InterviewSession.id s;
     InterviewSession.candidateName := InterviewSession.candidateName s;
     InterviewSession.interviewerName := InterviewSession.interviewerName s;
     InterviewSession.date := InterviewSession.date s;
     InterviewSession.selectedWeeks := InterviewSession.selectedWeeks s;
     InterviewSession.questionCount := InterviewSession.questionCount s;
     InterviewSession.starterQuestions := InterviewSession.starterQuestions s;
     InterviewSession.questions := InterviewSession.questions s;
     InterviewSession.assessments := a;
     InterviewSession.currentQuestionIndex :=
       InterviewSession.currentQuestionIndex s;
     InterviewSession.status := InterviewSession.status s;
     InterviewSession.overallTechnicalScore :=
       InterviewSession.overallTechnicalScore s;
     InterviewSession.overallSoftSkillScore :=
       InterviewSession.overallSoftSkillScore s;
     InterviewSession.technicalFeedback := InterviewSession.technicalFeedback s;
     InterviewSession.softSkillFeedback :=
       InterviewSession.softSkillFeedback s |}.

Definition with_status (status : SessionStatus.t) (s : InterviewSession.t)
    : InterviewSession.t :=
  {| InterviewSession.id := InterviewSession.id s;
     InterviewSession.candidateName := InterviewSession.candidateName s;
     InterviewSession.interviewerName := InterviewSession.interviewerName s;
     InterviewSession.date := InterviewSession.date s;
     InterviewSession.selectedWeeks := InterviewSession.selectedWeeks s;
     InterviewSession.questionCount := InterviewSession.questionCount s;
     InterviewSession.starterQuestions := InterviewSession.starterQuestions s;
     InterviewSession.questions := InterviewSession.questions s;
     InterviewSession.assessments := InterviewSession.assessments s;
     InterviewSession.currentQuestionIndex :=
       InterviewSession.currentQuestionIndex s;
     InterviewSession.status := status;
     InterviewSession.overallTechnicalScore :=
       InterviewSession.overallTechnicalScore s;
     InterviewSession.overallSoftSkillScore :=
       InterviewSession.overallSoftSkillScore s;
     InterviewSession.technicalFeedback := InterviewSession.technicalFeedback s;
     InterviewSession.softSkillFeedback :=
       InterviewSession.softSkillFeedback s |}.

Definition with_overallScores (technicalScore softSkillScore : PrimFloat.float)
    (s : InterviewSession.t) : InterviewSession.t :=
  {| InterviewSession.id := InterviewSession.id s;
     InterviewSession.candidateName := InterviewSession.candidateName s;
     InterviewSession.interviewerName := InterviewSession.interviewerName s;
     InterviewSession.date := InterviewSession.date s;
     InterviewSession.selectedWeeks := InterviewSession.selectedWeeks s;
     InterviewSession.questionCount := InterviewSession.questionCount s;
     InterviewSession.starterQuestions := InterviewSession.starterQuestions s;
     InterviewSession.questions := InterviewSession.questions s;
     InterviewSession.assessments := InterviewSession.assessments s;
     InterviewSession.currentQuestionIndex :=
       InterviewSession.currentQuestionIndex s;
     InterviewSession.status := InterviewSession.status s;
     InterviewSession.overallTechnicalScore := Some technicalScore;
     InterviewSession.overallSoftSkillScore := Some softSkillScore;
     InterviewSession.technicalFeedback := InterviewSession.technicalFeedback s;
     InterviewSession.softSkillFeedback :=
       InterviewSession.softSkillFeedback s |}.

Definition with_overallFeedback (technicalFeedback softSkillFeedback : string)
    (s : InterviewSession.t) : InterviewSession.t :=
  {| InterviewSession.id := InterviewSession.id s;
     InterviewSession.candidateName := InterviewSession.candidateName s;
     InterviewSession.interviewerName := InterviewSession.interviewerName s;
     InterviewSession.date := InterviewSession.date s;
     InterviewSession.selectedWeeks := InterviewSession.selectedWeeks s;
     InterviewSession.questionCount := InterviewSession.questionCount s;
     InterviewSession.starterQuestions := InterviewSession.starterQuestions s;
     InterviewSession.questions := InterviewSession.questions s;
     InterviewSession.assessments := InterviewSession.assessments s;
     InterviewSession.currentQuestionIndex :=
       InterviewSession.currentQuestionIndex s;
     InterviewSession.status := InterviewSession.status s;
     InterviewSession.overallTechnicalScore :=
       InterviewSession.overallTechnicalScore s;
     InterviewSession.overallSoftSkillScore :=
       InterviewSession.overallSoftSkillScore s;
     InterviewSession.technicalFeedback := Some technicalFeedback;
     InterviewSession.softSkillFeedback := Some softSkillFeedback |}.

(** ** Actions of the store *)

Definition initialAssessment (questionId : string)
    (keywordsMissed : list string) : QuestionAssessment :=
  {| questionId := questionId;
     keywordsHit := [];
     keywordsMissed := keywordsMissed;
     softSkills := DEFAULT_SOFT_SKILLS;
     interviewerNotes := EmptyString;
     didNotGetTo := false;
     llmScore := None; llmFeedback := None;
     finalScore := None; finalFeedback := None;
     status := pending |}.

(** What [createSession] reads from outside the program: the clock, and
    the conversion of a random number to a numeral in base 36.  The number
    itself is the next draw from the random source. *)
Record Clock := {
  Date_now : Z;
  toISOString : string;
  toString36 : nat → string
}.

(** [`session-${Date.now()}-${Math.random().toString(36).substr(2, 9)}`] *)
Definition generateSessionId (clock : Clock) : Rand string :=
  λ r c, ("session-" +:+ ToString (Date_now clock) +:+ "-"
            +:+ String.substring 2 9 (toString36 clock (r c)), S c).

(** [interviewLevel = 'entry'] is a default parameter: [None] is the call
    without the argument. *)
Definition createSession (clock : Clock) (questions : list ParsedQuestion)
    (questionCount : Z) (selectedWeeks : list Z)
    (candidateName interviewerName : option string)
    (interviewLevel : option InterviewLevel) (st : InterviewStore)
    : Rand InterviewStore :=
  let interviewLevel := default entry interviewLevel in
  let* selectedQuestions :=
    selectRandomQuestions questions questionCount interviewLevel in
  let* starterQuestions := generateStarterQuestions in
  let assessments : gmap string QuestionAssessment := ∅ in
  let assessments :=
    foldl (λ assessments sq,
             <[StarterQuestion.id sq :=
                 initialAssessment (StarterQuestion.id sq) []]> assessments)
          assessments starterQuestions in
  let assessments :=
    foldl (λ assessments q,
             <[id q := initialAssessment (id q) (keywords q)]> assessments)
          assessments selectedQuestions in
  let* sessionId := generateSessionId clock in
  ret (set_session
         (Some {| InterviewSession.id := sessionId;
                  InterviewSession.candidateName := candidateName;
                  InterviewSession.interviewerName := interviewerName;
                  InterviewSession.date := toISOString clock;
                  InterviewSession.selectedWeeks := selectedWeeks;
                  InterviewSession.questionCount := questionCount;
                  InterviewSession.starterQuestions := starterQuestions;
                  InterviewSession.questions := selectedQuestions;
                  InterviewSession.assessments := assessments;
                  InterviewSession.currentQuestionIndex := 0;
                  InterviewSession.status := SessionStatus.in_progress;
                  InterviewSession.overallTechnicalScore := None;
                  InterviewSession.overallSoftSkillScore := None;
                  InterviewSession.technicalFeedback := None;
                  InterviewSession.softSkillFeedback := None |})
         st).

Definition resetSession (st : InterviewStore) : InterviewStore :=
  set_session None st.

Definition getAllQuestions (st : InterviewStore)
    : list (StarterQuestion.t + ParsedQuestion) :=
  match session st with
  | None => []
  | Some session =>
      (inl <$> InterviewSession.starterQuestions session)
      ++ (inr <$> InterviewSession.questions session)
  end.

Definition setCurrentQuestionIndex (index : Z) (st : InterviewStore)
    : InterviewStore :=
  match session st with
  | Some session => set_session (Some (with_currentQuestionIndex index session)) st
  | None => st
  end.

Definition nextQuestion (st : InterviewStore) : InterviewStore :=
  match session st with
  | Some session =>
      let totalQuestions : Z := length (getAllQuestions st) in
      let newIndex :=
        Z.min (InterviewSession.currentQuestionIndex session + 1)
              (totalQuestions - 1) in
      set_session (Some (with_currentQuestionIndex newIndex session)) st
  | None => st
  end.

Definition previousQuestion (st : InterviewStore) : InterviewStore :=
  match session st with
  | Some session =>
      let newIndex :=
        Z.max (InterviewSession.currentQuestionIndex session - 1) 0 in
      set_session (Some (with_currentQuestionIndex newIndex session)) st
  | None => st
  end.

(** [{ ...assessment, ...updates }] *)
Definition spread (a : QuestionAssessment) (updates : Partial.t)
    : QuestionAssessment :=
  {| questionId := default (questionId a) (Partial.questionId updates);
     keywordsHit := default (keywordsHit a) (Partial.keywordsHit updates);
     keywordsMissed :=
       default (keywordsMissed a) (Partial.keywordsMissed updates);
     softSkills := default (softSkills a) (Partial.softSkills updates);
     interviewerNotes :=
       default (interviewerNotes a) (Partial.interviewerNotes updates);
     didNotGetTo := default (didNotGetTo a) (Partial.didNotGetTo updates);
     llmScore := from_option Some (llmScore a) (Partial.llmScore updates);
     llmFeedback :=
       from_option Some (llmFeedback a) (Partial.llmFeedback updates);
     finalScore := from_option Some (finalScore a) (Partial.finalScore updates);
     finalFeedback :=
       from_option Some (finalFeedback a) (Partial.finalFeedback updates);
     status := default (status a) (Partial.status updates) |}.

(** [set({ session: { ...session, assessments: { ...session.assessments,
    [questionId]: a } } })] *)
Definition set_assessment (questionId : string) (a : QuestionAssessment)
    (session : InterviewSession.t) (st : InterviewStore) : InterviewStore :=
  set_session
    (Some (with_assessments
             (<[questionId := a]> (InterviewSession.assessments session))
             session))
    st.

Definition updateAssessment (questionId : string) (updates : Partial.t)
    (st : InterviewStore) : InterviewStore :=
  match session st with
  | Some session =>
      match InterviewSession.assessments session !! questionId with
      | Some assessment =>
          set_assessment questionId (spread assessment updates) session st
      | None => st
      end
  | None => st
  end.

(** [keywordsHit.includes(keyword)] *)
Definition includes (l : list string) (keyword : string) : bool :=
  bool_decide (keyword ∈ l).

Definition toggleKeyword (questionId keyword : string) (st : InterviewStore)
    : InterviewStore :=
  match session st with
  | None => st
  | Some session =>
      match InterviewSession.assessments session !! questionId with
      | None => st
      | Some assessment =>
          let isHit := includes (keywordsHit assessment) keyword in
          if isHit then
            set_assessment questionId
              (spread assessment
                 {| Partial.questionId := None;
                    Partial.keywordsHit :=
                      Some (filter (λ k, k ≠ keyword)
                                   (keywordsHit assessment));
                    Partial.keywordsMissed :=
                      Some (keywordsMissed assessment ++ [keyword]);
                    Partial.softSkills := None;
                    Partial.interviewerNotes := None;
                    Partial.didNotGetTo := None;
                    Partial.llmScore := None; Partial.llmFeedback := None;
                    Partial.finalScore := None; Partial.finalFeedback := None;
                    Partial.status := None |})
              session st
          else
            set_assessment questionId
              (spread assessment
                 {| Partial.questionId := None;
                    Partial.keywordsHit :=
                      Some (keywordsHit assessment ++ [keyword]);
                    Partial.keywordsMissed :=
                      Some (filter (λ k, k ≠ keyword)
                                   (keywordsMissed assessment));
                    Partial.softSkills := None;
                    Partial.interviewerNotes := None;
                    Partial.didNotGetTo := None;
                    Partial.llmScore := None; Partial.llmFeedback := None;
                    Partial.finalScore := None; Partial.finalFeedback := None;
                    Partial.status := None |})
              session st
      end
  end.

(** [softSkills[skill]] *)
Definition getSkill (s : SoftSkillsAssessment) (skill : SoftSkill) : bool :=
  match skill with
  | skill_clearlySpoken => clearlySpoken s
  | skill_eyeContact => eyeContact s
  | skill_confidence => confidence s
  | skill_structuredThinking => structuredThinking s
  end.

(** [{ ...softSkills, [skill]: value }] *)
Definition setSkill (s : SoftSkillsAssessment) (skill : SoftSkill)
    (value : bool) : SoftSkillsAssessment :=
  match skill with
  | skill_clearlySpoken =>
      {| clearlySpoken := value; eyeContact := eyeContact s;
         confidence := confidence s;
         structuredThinking := structuredThinking s |}
  | skill_eyeContact =>
      {| clearlySpoken := clearlySpoken s; eyeContact := value;
         confidence := confidence s;
         structuredThinking := structuredThinking s |}
  | skill_confidence =>
      {| clearlySpoken := clearlySpoken s; eyeContact := eyeContact s;
         confidence := value; structuredThinking := structuredThinking s |}
  | skill_structuredThinking =>
      {| clearlySpoken := clearlySpoken s; eyeContact := eyeContact s;
         confidence := confidence s; structuredThinking := value |}
  end.

Definition toggleSoftSkill (questionId : string) (skill : SoftSkill)
    (st : InterviewStore) : InterviewStore :=
  match session st with
  | None => st
  | Some session =>
      match InterviewSession.assessments session !! questionId with
      | None => st
      | Some assessment =>
          set_assessment questionId
            (spread assessment
               {| Partial.questionId := None; Partial.keywordsHit := None;
                  Partial.keywordsMissed := None;
                  Partial.softSkills :=
                    Some (setSkill (softSkills assessment) skill
                            (negb (getSkill (softSkills assessment) skill)));
                  Partial.interviewerNotes := None;
                  Partial.didNotGetTo := None;
                  Partial.llmScore := None; Partial.llmFeedback := None;
                  Partial.finalScore := None; Partial.finalFeedback := None;
                  Partial.status := None |})
            session st
      end
  end.

Definition setInterviewerNotes (questionId notes : string)
    (st : InterviewStore) : InterviewStore :=
  updateAssessment questionId
    {| Partial.questionId := None; Partial.keywordsHit := None;
       Partial.keywordsMissed := None; Partial.softSkills := None;
       Partial.interviewerNotes := Some notes; Partial.didNotGetTo := None;
       Partial.llmScore := None; Partial.llmFeedback := None;
       Partial.finalScore := None; Partial.finalFeedback := None;
       Partial.status := None |} st.

Definition markDidNotGetTo (questionId : string) (value : bool)
    (st : InterviewStore) : InterviewStore :=
  updateAssessment questionId
    {| Partial.questionId := None; Partial.keywordsHit := None;
       Partial.keywordsMissed := None; Partial.softSkills := None;
       Partial.interviewerNotes := None; Partial.didNotGetTo := Some value;
       Partial.llmScore := None; Partial.llmFeedback := None;
       Partial.finalScore := None; Partial.finalFeedback := None;
       Partial.status := None |} st.

Definition setLLMResult (questionId : string) (score : PrimFloat.float)
    (feedback : string) (st : InterviewStore) : InterviewStore :=
  updateAssessment questionId
    {| Partial.questionId := None; Partial.keywordsHit := None;
       Partial.keywordsMissed := None; Partial.softSkills := None;
       Partial.interviewerNotes := None; Partial.didNotGetTo := None;
       Partial.llmScore := Some score; Partial.llmFeedback := Some feedback;
       Partial.finalScore := None; Partial.finalFeedback := None;
       Partial.status := Some ready |} st.

Definition validateScore (questionId : string) (score : PrimFloat.float)
    (feedback : string) (st : InterviewStore) : InterviewStore :=
  updateAssessment questionId
    {| Partial.questionId := None; Partial.keywordsHit := None;
       Partial.keywordsMissed := None; Partial.softSkills := None;
       Partial.interviewerNotes := None; Partial.didNotGetTo := None;
       Partial.llmScore := None; Partial.llmFeedback := None;
       Partial.finalScore := Some score; Partial.finalFeedback := Some feedback;
       Partial.status := Some validated |} st.

Definition completeQuestion (questionId : string) (st : InterviewStore)
    : InterviewStore :=
  updateAssessment questionId
    {| Partial.questionId := None; Partial.keywordsHit := None;
       Partial.keywordsMissed := None; Partial.softSkills := None;
       Partial.interviewerNotes := None; Partial.didNotGetTo := None;
       Partial.llmScore := None; Partial.llmFeedback := None;
       Partial.finalScore := None; Partial.finalFeedback := None;
       Partial.status := Some processing |} st.

Definition finishInterview (st : InterviewStore) : InterviewStore :=
  match session st with
  | Some session => set_session (Some (with_status SessionStatus.review session)) st
  | None => st
  end.

Definition completeReview (st : InterviewStore) : InterviewStore :=
  match session st with
  | Some session =>
      set_session (Some (with_status SessionStatus.completed session)) st
  | None => st
  end.

Definition setOverallScores (technicalScore softSkillScore : PrimFloat.float)
    (st : InterviewStore) : InterviewStore :=
  match session st with
  | Some session =>
      set_session
        (Some (with_overallScores technicalScore softSkillScore session)) st
  | None => st
  end.

Definition setOverallFeedback (technicalFeedback softSkillFeedback : string)
    (st : InterviewStore) : InterviewStore :=
  match session st with
  | Some session =>
      set_session
        (Some (with_overallFeedback technicalFeedback softSkillFeedback
                 session)) st
  | None => st
  end.

(** [allQuestions[index]]: [undefined] unless [index] is a position of the
    array. *)
Definition Array_at {A} (a : list A) (index : Z) : option A :=
  if decide (0 ≤ index) then a !! Z.to_nat index else None.

(** [allQuestions[session.currentQuestionIndex] || null] *)
Definition getCurrentQuestion (st : InterviewStore)
    : option (StarterQuestion.t + ParsedQuestion) :=
  match session st with
  | None => None
  | Some session =>
      let allQuestions := getAllQuestions st in
      Array_at allQuestions (InterviewSession.currentQuestionIndex session)
  end.

(** [session?.assessments[questionId]] *)
Definition getAssessment (questionId : string) (st : InterviewStore)
    : option QuestionAssessment :=
  match session st with
  | None => None
  | Some session => InterviewSession.assessments session !! questionId
  end.

Record Progress := {
  current : Z;
  total : Z
}.

Definition getProgress (st : InterviewStore) : Progress :=
  match session st with
  | None => {| current := 0; total := 0 |}
  | Some session =>
      {| current := InterviewSession.currentQuestionIndex session + 1;
         total := length (getAllQuestions st) |}
  end.

(** ** The setup page (app/page.tsx) *)

(** [selectedTechs.find(t => t.path === tech.path) ? ... : ...] *)
Definition toggleTech (tech : GitHubFile.t) (st : InterviewStore)
    : InterviewStore :=
  let selectedTechs := selectedTechs st in
  setSelectedTechs
    (if bool_decide (GitHubFile.path tech ∈ GitHubFile.path <$> selectedTechs)
     then filter (λ t, GitHubFile.path t ≠ GitHubFile.path tech) selectedTechs
     else selectedTechs ++ [tech])
    st.

(** [name || undefined] *)
Definition orUndefined (s : string) : option string :=
  if decide (s = EmptyString) then None else Some s.

(** [handleStartInterview]: the alert and the change of page are not part
    of the state. *)
Definition handleStartInterview (clock : Clock)
    (loadedQuestions : list ParsedQuestion) (questionCount : Z)
    (candidateName interviewerName : string) (st : InterviewStore)
    : Rand InterviewStore :=
  if decide (length loadedQuestions = 0%nat) then ret st
  else
    createSession clock loadedQuestions
      (Z.min questionCount (length loadedQuestions)) [1]
      (orUndefined candidateName) (orUndefined interviewerName)
      (Some (interviewLevel st)) st.

(** * The markdown parser (lib/markdownParser.ts)

    A string is the sequence of its code units; the embedding covers the
    strings whose code units are below 256, one [ascii] each. *)

(** ** Strings *)

Definition LF : ascii := "010"%char.
Definition CR : ascii := "013"%char.

(** The first [n] code units of [s], and [s] without them. *)
Fixpoint String_take (n : nat) (s : string) : string :=
  match n, s with
  | S n', String a s' => String a (String_take n' s')
  | _, _ => EmptyString
  end.

Fixpoint String_drop (n : nat) (s : string) : string :=
  match n, s with
  | S n', String _ s' => String_drop n' s'
  | _, _ => s
  end.

Fixpoint startsWith (s searchString : string) : bool :=
  match searchString, s with
  | EmptyString, _ => true
  | String b searchString', String a s' =>
      if decide (a = b) then startsWith s' searchString' else false
  | String _ _, EmptyString => false
  end.

(** [s.includes(searchString)] *)
Fixpoint String_includes (s searchString : string) : bool :=
  startsWith s searchString ||
  match s with
  | EmptyString => false
  | String _ s' => String_includes s' searchString
  end.

(** White space and line terminators below 256: TAB, LF, VT, FF, CR, SP and
    NBSP.  These are the code units that [\s] matches and [trim] removes. *)
Definition isWhiteSpace (a : ascii) : bool :=
  match a with
  | "009" | "010" | "011" | "012" | "013" | " " | "160" => true
  | _ => false
  end%char.

(** [\d] *)
Definition isDigit (a : ascii) : bool :=
  match a with
  | "0" | "1" | "2" | "3" | "4" | "5" | "6" | "7" | "8" | "9" => true
  | _ => false
  end%char.

(** [.] without the [s] flag: any code unit but a line terminator. *)
Definition isDot (a : ascii) : bool :=
  negb (bool_decide (a = LF) || bool_decide (a = CR)).

(** [[\s\S]] *)
Definition isAny (a : ascii) : bool := true.

Definition isChar (b : ascii) (a : ascii) : bool := bool_decide (a = b).

Fixpoint trimStart (s : string) : string :=
  match s with
  | String a s' => if isWhiteSpace a then trimStart s' else s
  | EmptyString => EmptyString
  end.

Fixpoint trimEnd (s : string) : string :=
  match s with
  | EmptyString => EmptyString
  | String a s' =>
      match trimEnd s' with
      | EmptyString =>
          if isWhiteSpace a then EmptyString else String a EmptyString
      | String b t => String a (String b t)
      end
  end.

Definition trim (s : string) : string := trimEnd (trimStart s).

(** [s.split(',')]: the pieces between the occurrences of the separator;
    [current] is the piece being read. *)
Fixpoint split_at (separator : ascii) (current : string) (s : string)
    : list string :=
  match s with
  | EmptyString => [current]
  | String a s' =>
      if decide (a = separator)
      then current :: split_at separator EmptyString s'
      else split_at separator (current +:+ String a EmptyString) s'
  end.

Definition String_split (s : string) (separator : ascii) : list string :=
  split_at separator EmptyString s.

(** [parseInt(s, 10)] on a string that starts with a digit, the only kind
    the parser passes to it: the value of the longest prefix of digits. *)
Fixpoint parseInt_from (value : Z) (s : string) : Z :=
  match s with
  | String a s' =>
      match Ascii.is_nat a with
      | Some d => parseInt_from (10 * value + d) s'
      | None => value
      end
  | EmptyString => value
  end.

Definition parseInt (s : string) : Z := parseInt_from 0 s.

(** ** Regular expressions

    The patterns of the parser use literal characters, classes, sequences,
    alternatives, greedy and lazy quantifiers of a class, capture groups,
    lookahead and [$].  The matcher is the backtracking matcher of the
    language definition: a pattern is run from a state with a continuation,
    and the first way of matching for which the continuation succeeds is
    the result. *)

Inductive Regex :=
  | Char (p : ascii → bool)
  | Empty
  | Seq (r1 r2 : Regex)
  | Alt (r1 r2 : Regex)
  | Repeat (greedy : bool) (min : nat) (p : ascii → bool)
  | Group (n : nat) (r : Regex)
  | Lookahead (r : Regex)
  | EndOfInput.

(** A literal string. *)
Fixpoint Lit (s : string) : Regex :=
  match s with
  | EmptyString => Empty
  | String a s' => Seq (Char (isChar a)) (Lit s')
  end.

Definition Concat (rs : list Regex) : Regex := foldr Seq Empty rs.

(** [endIndex] counts the code units consumed since the start of the
    search, [rest] is the input from there on. *)
Record MatchState := {
  endIndex : nat;
  rest : string;
  captures : list (nat * string)
}.

(** The text of group [n], [None] for [undefined]. *)
Fixpoint capture (n : nat) (captures : list (nat * string)) : option string :=
  match captures with
  | [] => None
  | (k, s) :: captures' => if decide (k = n) then Some s else capture n captures'
  end.

(** A quantified class, once [min] repetitions are done: a greedy
    quantifier first tries one more repetition, a lazy one first tries the
    continuation. *)
Fixpoint repeatMatcher {R} (greedy : bool) (p : ascii → bool) (min : nat)
    (rest : string) (endIndex : nat) (c : string → nat → option R)
    : option R :=
  match rest with
  | String a rest' =>
      match min with
      | S min' =>
          if p a then repeatMatcher greedy p min' rest' (S endIndex) c
          else None
      | O =>
          if p a then
            if greedy then
              match repeatMatcher greedy p O rest' (S endIndex) c with
              | Some z => Some z
              | None => c rest endIndex
              end
            else
              match c rest endIndex with
              | Some z => Some z
              | None => repeatMatcher greedy p O rest' (S endIndex) c
              end
          else c rest endIndex
      end
  | EmptyString =>
      match min with
      | S _ => None
      | O => c rest endIndex
      end
  end.

Fixpoint matcher (r : Regex) (x : MatchState)
    (c : MatchState → option MatchState) : option MatchState :=
  match r with
  | Char p =>
      match rest x with
      | String a rest' =>
          if p a then
            c {| endIndex := S (endIndex x); rest := rest';
                 captures := captures x |}
          else None
      | EmptyString => None
      end
  | Empty => c x
  | Seq r1 r2 => matcher r1 x (λ y, matcher r2 y c)
  | Alt r1 r2 =>
      match matcher r1 x c with
      | Some z => Some z
      | None => matcher r2 x c
      end
  | Repeat greedy min p =>
      repeatMatcher greedy p min (rest x) (endIndex x)
        (λ rest' endIndex',
           c {| endIndex := endIndex'; rest := rest';
                captures := captures x |})
  | Group n r =>
      matcher r x
        (λ y, c {| endIndex := endIndex y; rest := rest y;
                   captures :=
                     (n, String_take (endIndex y - endIndex x) (rest x))
                     :: captures y |})
  | Lookahead r =>
      match matcher r x Some with
      | Some y =>
          c {| endIndex := endIndex x; rest := rest x;
               captures := captures y |}
      | None => None
      end
  | EndOfInput =>
      match rest x with
      | EmptyString => c x
      | String _ _ => None
      end
  end.

(** The match that starts where [s] starts. *)
Definition matchAt (r : Regex) (s : string) (index : nat)
    : option MatchState :=
  matcher r {| endIndex := index; rest := s; captures := [] |} Some.

(** The search of a pattern without the sticky flag: the first position,
    from left to right, at which the pattern matches.  The result is this
    position and the final state of the match. *)
Fixpoint exec_from (r : Regex) (s : string) (index : nat)
    : option (nat * MatchState) :=
  match matchAt r s index with
  | Some y => Some (index, y)
  | None =>
      match s with
      | String _ s' => exec_from r s' (S index)
      | EmptyString => None
      end
  end.

(** [s.match(r)] for a pattern without the global flag. *)
Definition String_match (s : string) (r : Regex)
    : option (nat * MatchState) :=
  exec_from r s 0.

(** [s.replace(r, replacement)] for a pattern with the global flag and a
    replacement without [$]: the matches are searched from left to right,
    each search starting where the last match ended, one code unit later
    after an empty match.  Every round consumes a code unit, so
    [length s + 1] rounds are enough. *)
Fixpoint replace_loop (fuel : nat) (r : Regex) (replacement : string)
    (s : string) : string :=
  match fuel with
  | O => s
  | S fuel' =>
      match exec_from r s 0 with
      | None => s
      | Some (index, y) =>
          String_take index s +:+ replacement +:+
            (if decide (endIndex y = index) then
               match String_drop index s with
               | String a s' =>
                   String a (replace_loop fuel' r replacement s')
               | EmptyString => EmptyString
               end
             else replace_loop fuel' r replacement
                    (String_drop (endIndex y) s))
      end
  end.

Definition String_replace (s : string) (r : Regex) (replacement : string)
    : string :=
  replace_loop (S (String.length s)) r replacement s.

(** [s.split(r)] for a pattern without capture groups.  [pending] is the
    text between the end [p] of the last separator and the position [q]
    at which the pattern is tried next, [s] is the input from [q] on.  A
    match that ends at [p] is skipped; otherwise the pending text becomes a
    piece and both [p] and [q] move to the end of the match.  Two rounds
    at most pass without [q] moving on. *)
Fixpoint split_loop (fuel : nat) (r : Regex) (pending : string) (s : string)
    : list string :=
  match fuel with
  | O => [pending +:+ s]
  | S fuel' =>
      match s with
      | EmptyString => [pending]
      | String a s' =>
          match matchAt r s 0 with
          | None =>
              split_loop fuel' r (pending +:+ String a EmptyString) s'
          | Some y =>
              if decide (endIndex y = 0%nat ∧ pending = EmptyString) then
                split_loop fuel' r (pending +:+ String a EmptyString) s'
              else
                pending
                :: split_loop fuel' r EmptyString (String_drop (endIndex y) s)
          end
      end
  end.

Definition String_split_regex (s : string) (r : Regex) : list string :=
  match s with
  | EmptyString =>
      match matchAt r s 0 with
      | Some _ => []
      | None => [s]
      end
  | String _ _ => split_loop (2 * String.length s + 1) r EmptyString s
  end.

(** ** The patterns of the parser *)

Definition plus (p : ascii → bool) : Regex := Repeat true 1 p.
Definition star (p : ascii → bool) : Regex := Repeat true 0 p.
Definition lazy_plus (p : ascii → bool) : Regex := Repeat false 1 p.
Definition lazy_star (p : ascii → bool) : Regex := Repeat false 0 p.

(** [/\r\n/g] *)
Definition re_crlf : Regex := Seq (Char (isChar CR)) (Char (isChar LF)).

(** [(?=\n|$)] *)
Definition re_endOfLine : Regex := Lookahead (Alt (Char (isChar LF)) EndOfInput).

(** [/(?=###\s+Q\d+:)/] *)
Definition re_questionStart : Regex :=
  Lookahead
    (Concat [Lit "###"; plus isWhiteSpace; Char (isChar "Q"); plus isDigit;
             Char (isChar ":")]).

(** [/###\s+Q(\d+):\s*(.+?)(?=\n|$)/] *)
Definition re_questionHeader : Regex :=
  Concat [Lit "###"; plus isWhiteSpace; Char (isChar "Q");
          Group 1 (plus isDigit); Char (isChar ":"); star isWhiteSpace;
          Group 2 (lazy_plus isDot); re_endOfLine].

(** [/\*\*Keywords:\*\*\s*(.+?)(?=\n|$)/] *)
Definition re_keywords : Regex :=
  Concat [Lit "**Keywords:**"; star isWhiteSpace;
          Group 1 (lazy_plus isDot); re_endOfLine].

(** [/<details>[\s\S]*?<summary>[\s\S]*?<\/summary>([\s\S]*?)<\/details>/] *)
Definition re_details : Regex :=
  Concat [Lit "<details>"; lazy_star isAny; Lit "<summary>";
          lazy_star isAny; Lit "</summary>"; Group 1 (lazy_star isAny);
          Lit "</details>"].

(** [/```[\s\S]*?```/g] *)
Definition re_codeBlock : Regex :=
  Concat [Lit "```"; lazy_star isAny; Lit "```"].

(** [/\n{3,}/g] *)
Definition re_blankLines : Regex := Repeat true 3 (isChar LF).

(** ** cleanModelAnswer and parseInterviewQuestions *)

Definition cleanModelAnswer (raw : string) : string :=
  String_replace
    (String_replace
       (String_replace (trim raw) re_codeBlock "[Code Example]")
       re_crlf (String LF EmptyString))
    re_blankLines (String LF (String LF EmptyString)).

(** The tests on the section headers at the top of the loop body. *)
Definition sectionDifficulty (block : string) (currentDifficulty : Difficulty)
    : Difficulty :=
  if String_includes block "## Beginner" || String_includes block "Foundational"
  then beginner
  else if String_includes block "## Intermediate"
          || String_includes block "Application"
  then intermediate
  else if String_includes block "## Advanced"
          || String_includes block "Deep Dive"
  then advanced
  else currentDifficulty.

(** [m[n]] for a group that took part in the match. *)
Definition group (n : nat) (m : nat * MatchState) : string :=
  default EmptyString (capture n (captures m.2)).

(** The rest of the loop body: the question of a block, [None] when the
    loop goes on without one. *)
Definition parseBlock (block : string) (weekNumber : Z)
    (currentDifficulty : Difficulty) : option ParsedQuestion :=
  match String_match block re_questionHeader with
  | None => None
  | Some questionMatch =>
      let questionNumber := parseInt (group 1 questionMatch) in
      let questionText := trim (group 2 questionMatch) in
      let keywords :=
        match String_match block re_keywords with
        | Some keywordsMatch =>
            trim <$> String_split (group 1 keywordsMatch) ","
        | None => []
        end in
      let modelAnswer :=
        match String_match block re_details with
        | Some detailsMatch => cleanModelAnswer (group 1 detailsMatch)
        | None => EmptyString
        end in
      Some {| id := "week" +:+ ToString weekNumber +:+ "-q"
                      +:+ ToString questionNumber;
              questionNumber := questionNumber;
              question := questionText;
              keywords := keywords;
              modelAnswer := modelAnswer;
              difficulty := currentDifficulty;
              weekNumber := Some weekNumber |}
  end.

(** [for (const block of questionBlocks) { ... }] *)
Fixpoint parseBlocks (questionBlocks : list string) (weekNumber : Z)
    (currentDifficulty : Difficulty) (questions : list ParsedQuestion)
    : list ParsedQuestion :=
  match questionBlocks with
  | [] => questions
  | block :: questionBlocks' =>
      let currentDifficulty := sectionDifficulty block currentDifficulty in
      match parseBlock block weekNumber currentDifficulty with
      | None =>
          parseBlocks questionBlocks' weekNumber currentDifficulty questions
      | Some q =>
          parseBlocks questionBlocks' weekNumber currentDifficulty
            (questions ++ [q])
      end
  end.

Definition parseInterviewQuestions (content : string) (weekNumber : Z)
    : list ParsedQuestion :=
  let questions := [] in
  let normalizedContent :=
    String_replace content re_crlf (String LF EmptyString) in
  let questionBlocks := String_split_regex normalizedContent re_questionStart in
  let currentDifficulty := beginner in
  parseBlocks questionBlocks weekNumber currentDifficulty questions.

(** [loadSelectedQuestions] of the setup page (app/page.tsx), once the
    contents of the selected question banks have arrived: the bank at
    position [index] is parsed as week [index + 1] and the results are
    appended in the order of the selection.  (When a download fails,
    nothing is loaded.) *)
Definition loadSelectedQuestions (contents : list string)
    : list ParsedQuestion :=
  let allQuestions := [] in
  foldl (λ allQuestions questions, allQuestions ++ questions) allQuestions
    (imap (λ index content, parseInterviewQuestions content (index + 1)%nat)
          contents).

(** [getDifficultyColor] *)
Definition getDifficultyColor (difficulty : Difficulty) : string :=
  match difficulty with
  | beginner => "bg-green-100 text-green-800"
  | intermediate => "bg-yellow-100 text-yellow-800"
  | advanced => "bg-red-100 text-red-800"
  end.

(** * Vocabulary of the statements *)

(** Number of questions of difficulty [d] in a sequence. *)
Definition countDifficulty (d : Difficulty) (l : list ParsedQuestion) : nat :=
  length (filter (hasDifficulty d) l).

(** IEEE doubles, to compare [Math_round_ratio] with what the code
    computes: the double of an integer, the double [tenths / 10] (0.1, 0.4
    and 0.5 are the doubles nearest to these quotients), and the test that
    [k] is [Math.round(x)], that is [k - 0.5 <= x < k + 0.5]. *)
Definition double_of_Z (z : Z) : PrimFloat.float :=
  match z with
  | Z0 => PrimFloat.of_uint63 (Uint63.of_Z 0)
  | Zpos _ => PrimFloat.of_uint63 (Uint63.of_Z z)
  | Zneg _ => PrimFloat.opp (PrimFloat.of_uint63 (Uint63.of_Z (- z)))
  end.

Definition ratio_double (tenths : Z) : PrimFloat.float :=
  PrimFloat.div (double_of_Z tenths) (double_of_Z 10).

Definition is_Math_round (x : PrimFloat.float) (k : Z) : bool :=
  let half := PrimFloat.div (double_of_Z 1) (double_of_Z 2) in
  PrimFloat.leb (PrimFloat.sub (double_of_Z k) half) x
  && PrimFloat.ltb x (PrimFloat.add (double_of_Z k) half).

Definition Math_round_ratio_agrees (tenths n : Z) : bool :=
  is_Math_round (PrimFloat.mul (double_of_Z n) (ratio_double tenths))
                (Math_round_ratio n tenths).

(** [always m P]: the result of [m] satisfies [P] whatever the random
    source returns and wherever the run starts in it. *)
Definition always {A} (m : Rand A) (P : A → Prop) : Prop :=
  ∀ r c, P (m r c).1.

(** Targets before they are clamped to the bucket sizes. *)
Definition rawAdvanced (weekCount : Z) (rt : Ratios) : Z :=
  Z.max 0 (Math_round_ratio weekCount (advancedRatio rt)).

Definition rawIntermediate (weekCount : Z) (rt : Ratios) : Z :=
  Z.max 0 (Math_round_ratio weekCount (intermediateRatio rt)).

Definition rawBeginner (weekCount : Z) (rt : Ratios) : Z :=
  Z.max 0 (weekCount - rawIntermediate weekCount rt
                     - rawAdvanced weekCount rt).

(** The shape of what [stratify] returns. *)
Definition stratified (wq : list ParsedQuestion) (w : Z) (rt : Ratios)
    (s : list ParsedQuestion) : Prop :=
  ∃ sb si sa,
    sb ≡ₚ filter (hasDifficulty beginner) wq ∧
    si ≡ₚ filter (hasDifficulty intermediate) wq ∧
    sa ≡ₚ filter (hasDifficulty advanced) wq ∧
    s = take (Z.to_nat (Z.min (length (filter (hasDifficulty beginner) wq))
                              (beginnerCount wq w rt))) sb
        ++ take (Z.to_nat (intermediateCount wq w rt)) si
        ++ take (Z.to_nat (advancedCount wq w rt)) sa.

(** The two outcomes of [backfill]. *)
Definition backfilled (source selected : list ParsedQuestion) (target : Z)
    (res : list ParsedQuestion) : Prop :=
  (¬ length selected < target ∧ res = selected) ∨
  (length selected < target ∧
   ∃ remaining,
     remaining ≡ₚ filter (λ q, id q ∉ idSet selected) source ∧
     res = selected ++ take (Z.to_nat (target - length selected)) remaining).

(** What [selectWeek] returns: a stratified pick, then the fill. *)
Definition weekSelection (wq : list ParsedQuestion) (w : Z) (rt : Ratios)
    (p : list ParsedQuestion) : Prop :=
  ∃ s, stratified wq w rt s ∧ backfilled wq s w p.

(** Every bucket of the week holds more than its raw target. *)
Definition abundantWeek (wq : list ParsedQuestion) (w : Z) (rt : Ratios)
    : Prop :=
  rawBeginner w rt < length (filter (hasDifficulty beginner) wq) ∧
  rawIntermediate w rt < length (filter (hasDifficulty intermediate) wq) ∧
  rawAdvanced w rt < length (filter (hasDifficulty advanced) wq).

(** Sum of [f index], ..., [f (index + n - 1)]. *)
Fixpoint sumFrom (f : nat → Z) (index n : nat) : Z :=
  match n with
  | O => 0
  | S n' => f index + sumFrom f (S index) n'
  end.

(** [ps] lists, week by week, what the loop started at [index] selected
    for the weeks of [weeks]. *)
Inductive weekRuns (byWeek : WeekMap) (perWeek remainder : Z) (rt : Ratios)
    : nat → list Z → list (list ParsedQuestion) → Prop :=
  | weekRuns_nil index : weekRuns byWeek perWeek remainder rt index [] []
  | weekRuns_cons index week weeks p ps :
      weekSelection (Map_get_present byWeek week)
        (weekQuota perWeek remainder index) rt p →
      weekRuns byWeek perWeek remainder rt (S index) weeks ps →
      weekRuns byWeek perWeek remainder rt index (week :: weeks) (p :: ps).

(** The state of [byWeek] after the questions of [l] have been added. *)
Definition grouped (m : WeekMap) (l : list ParsedQuestion) : Prop :=
  NoDup m.*1 ∧
  (∀ k, k ∈ m.*1 ↔ k ∈ weekNum <$> l) ∧
  (∀ k, Map_get_present m k = filter (λ q, weekNum q = k) l).

(** What a run of [selectRandomQuestions] returns: nothing for an empty
    pool; otherwise the weekly selections, filled up from the pool and
    shuffled. *)
Definition sampling (questions : list ParsedQuestion) (count : Z)
    (level : InterviewLevel) (res : list ParsedQuestion) : Prop :=
  let weeks := sortedWeeks questions in
  let numWeeks := length weeks in
  (questions = [] ∧ res = []) ∨
  (questions ≠ [] ∧ (0 < numWeeks)%nat ∧
   ∃ ps selected,
     weekRuns (groupByWeek questions) (count `div` numWeeks)
       (count `rem` numWeeks) (ratiosOf level) 0 weeks ps ∧
     backfilled questions (concat ps) count selected ∧
     res ≡ₚ selected).

(** Abundant supply: in every week, every difficulty bucket holds more
    questions than the target computed for it from the week's quota, under
    either ratio profile. *)
Definition abundant (questions : list ParsedQuestion) (count : Z) : Prop :=
  let weeks := sortedWeeks questions in
  let numWeeks := length weeks in
  ∀ index week level,
    weeks !! index = Some week →
    abundantWeek (Map_get_present (groupByWeek questions) week)
      (weekQuota (count `div` numWeeks) (count `rem` numWeeks) index)
      (ratiosOf level).

(** Sum over the weeks of the advanced targets of a level. *)
Definition advancedTotal (questions : list ParsedQuestion) (count : Z)
    (level : InterviewLevel) : Z :=
  let numWeeks := length (sortedWeeks questions) in
  sumFrom (λ k, rawAdvanced
                  (weekQuota (count `div` numWeeks) (count `rem` numWeeks) k)
                  (ratiosOf level))
          0 numWeeks.

(** [reads_only_consumed m]: a run of [m] never moves backwards in the
    stream, and a second stream that agrees with the first on the calls the
    run consumed gives the same result and the same final position. *)
Definition reads_only_consumed {A} (m : Rand A) : Prop :=
  ∀ r1 r2 c,
    (c ≤ (m r1 c).2)%nat ∧
    ((∀ k, (c ≤ k < (m r1 c).2)%nat → r1 k = r2 k) → m r2 c = m r1 c).

(** The stores of the second embedding. *)
Abbreviation Store := (list (list ParsedQuestion)).

(** [wp m r s Q]: run from the state [s] with the random source [r], the
    computation [m] ends with a result and a state that satisfy [Q]. *)
Definition wp {A} (m : Heap.M A) (r : Rng) (s : Heap.State)
    (Q : A → Heap.State → Prop) : Prop :=
  Q (m r s).1 (m r s).2.

(** [evolves X h h']: the store [h'] has every array of [h], with the same
    elements, except possibly the arrays whose references are in [X]. *)
Definition evolves (X : list Heap.ref) (h h' : Store) : Prop :=
  (length h ≤ length h')%nat ∧
  ∀ a l, a ∉ X → h !! a = Some l → h' !! a = Some l.

(** Each reference of [byWeek] was allocated at or after position [n0]
    and holds the elements that [mp] has under the same key. *)
Definition entries (n0 : nat) (h : Store) (byWeek : list (Z * Heap.ref))
    (mp : WeekMap) : Prop :=
  Forall2 (λ e1 e2, e1.1 = e2.1 ∧ (n0 ≤ e1.2)%nat ∧ h !! e1.2 = Some e2.2)
          byWeek mp.

(** The [Map] of references [byWeek] stands for the map of arrays [mp] in
    the store [h]: same keys in the same order, same elements, and no array
    shared by two keys. *)
Definition represents (n0 : nat) (h : Store) (byWeek : list (Z * Heap.ref))
    (mp : WeekMap) : Prop :=
  NoDup byWeek.*2 ∧ entries n0 h byWeek mp.

(** The actions of the store on a session, as data: what the interview
    and the review page can ask of the store between [createSession] and
    [resetSession]. *)
Inductive Action :=
  | SetCurrentQuestionIndex (index : Z)
  | NextQuestion
  | PreviousQuestion
  | UpdateAssessment (questionId : string) (updates : Partial.t)
  | ToggleKeyword (questionId keyword : string)
  | ToggleSoftSkill (questionId : string) (skill : SoftSkill)
  | SetInterviewerNotes (questionId notes : string)
  | MarkDidNotGetTo (questionId : string) (value : bool)
  | SetLLMResult (questionId : string) (score : PrimFloat.float)
      (feedback : string)
  | ValidateScore (questionId : string) (score : PrimFloat.float)
      (feedback : string)
  | CompleteQuestion (questionId : string)
  | FinishInterview
  | CompleteReview
  | SetOverallScores (technicalScore softSkillScore : PrimFloat.float)
  | SetOverallFeedback (technicalFeedback softSkillFeedback : string).

Definition perform (a : Action) (st : InterviewStore) : InterviewStore :=
  match a with
  | SetCurrentQuestionIndex index => setCurrentQuestionIndex index st
  | NextQuestion => nextQuestion st
  | PreviousQuestion => previousQuestion st
  | UpdateAssessment questionId updates =>
      updateAssessment questionId updates st
  | ToggleKeyword questionId keyword => toggleKeyword questionId keyword st
  | ToggleSoftSkill questionId skill => toggleSoftSkill questionId skill st
  | SetInterviewerNotes questionId notes =>
      setInterviewerNotes questionId notes st
  | MarkDidNotGetTo questionId value => markDidNotGetTo questionId value st
  | SetLLMResult questionId score feedback =>
      setLLMResult questionId score feedback st
  | ValidateScore questionId score feedback =>
      validateScore questionId score feedback st
  | CompleteQuestion questionId => completeQuestion questionId st
  | FinishInterview => finishInterview st
  | CompleteReview => completeReview st
  | SetOverallScores technicalScore softSkillScore =>
      setOverallScores technicalScore softSkillScore st
  | SetOverallFeedback technicalFeedback softSkillFeedback =>
      setOverallFeedback technicalFeedback softSkillFeedback st
  end.

(** The actions of a list, one after the other. *)
Definition performAll (actions : list Action) (st : InterviewStore)
    : InterviewStore :=
  foldl (λ st a, perform a st) st actions.

(** The question an action is about, if any. *)
Definition addressed (a : Action) : option string :=
  match a with
  | UpdateAssessment questionId _ | ToggleKeyword questionId _
  | ToggleSoftSkill questionId _ | SetInterviewerNotes questionId _
  | MarkDidNotGetTo questionId _ | SetLLMResult questionId _ _
  | ValidateScore questionId _ _ | CompleteQuestion questionId =>
      Some questionId
  | _ => None
  end.

(** The id of a starter question or of a technical question. *)
Definition idOf (q : StarterQuestion.t + ParsedQuestion) : string :=
  match q with
  | inl sq => StarterQuestion.id sq
  | inr q => id q
  end.

(** An action that does not jump to a position outside a list of [total]
    questions. *)
Definition jumpsInside (total : nat) (a : Action) : Prop :=
  match a with
  | SetCurrentQuestionIndex index => 0 ≤ index < total
  | _ => True
  end.

(** An action that changes the keyword lists only by toggling a keyword
    that the addressed question has. *)
Definition togglesOwnKeywords (questions : list ParsedQuestion) (a : Action)
    : Prop :=
  match a with
  | UpdateAssessment _ updates =>
      Partial.keywordsHit updates = None ∧
      Partial.keywordsMissed updates = None
  | ToggleKeyword questionId keyword =>
      ∀ q, q ∈ questions → id q = questionId → keyword ∈ keywords q
  | _ => True
  end.

(** The assessment of [q] lists every keyword of [q] exactly once, as hit
    or as missed. *)
Definition keywordsAccounted (q : ParsedQuestion) (st : InterviewStore)
    : Prop :=
  ∃ a, getAssessment (id q) st = Some a ∧
       keywordsHit a ++ keywordsMissed a ≡ₚ keywords q.

(** Every code unit of [s] satisfies [p]. *)
Fixpoint allChars (p : ascii → bool) (s : string) : bool :=
  match s with
  | EmptyString => true
  | String a s' => p a && allChars p s'
  end.

Definition firstChar (s : string) : option ascii :=
  match s with
  | EmptyString => None
  | String a _ => Some a
  end.

Fixpoint lastChar (s : string) : option ascii :=
  match s with
  | EmptyString => None
  | String a EmptyString => Some a
  | String _ s' => lastChar s'
  end.

(** A string that neither starts nor ends with white space. *)
Definition trimmed (s : string) : Prop :=
  (∀ a, firstChar s = Some a → isWhiteSpace a = false) ∧
  (∀ a, lastChar s = Some a → isWhiteSpace a = false).

(** [Matches r x y]: the pattern [r] can be matched from the state [x] and
    ends in the state [y]. *)
Fixpoint Matches (r : Regex) (x y : MatchState) : Prop :=
  match r with
  | Char p =>
      ∃ a, rest x = String a (rest y) ∧ p a = true ∧
           endIndex y = S (endIndex x) ∧ captures y = captures x
  | Empty => y = x
  | Seq r1 r2 => ∃ m, Matches r1 x m ∧ Matches r2 m y
  | Alt r1 r2 => Matches r1 x y ∨ Matches r2 x y
  | Repeat _ min p =>
      ∃ w, rest x = w +:+ rest y ∧ allChars p w = true ∧
           (min ≤ String.length w)%nat ∧
           endIndex y = (endIndex x + String.length w)%nat ∧
           captures y = captures x
  | Group n r =>
      ∃ y0, Matches r x y0 ∧
            y = {| endIndex := endIndex y0; rest := rest y0;
                   captures :=
                     (n, String_take (endIndex y0 - endIndex x) (rest x))
                     :: captures y0 |}
  | Lookahead r =>
      ∃ y0, Matches r x y0 ∧
            y = {| endIndex := endIndex x; rest := rest x;
                   captures := captures y0 |}
  | EndOfInput => rest x = EmptyString ∧ y = x
  end.

(** The content with every CR LF pair, read from left to right, replaced
    by LF. *)
Fixpoint normalize (s : string) : string :=
  match s with
  | EmptyString => EmptyString
  | String a s' =>
      match s' with
      | String b s'' =>
          if decide (a = CR ∧ b = LF) then String LF (normalize s'')
          else String a (normalize s')
      | EmptyString => String a EmptyString
      end
  end.

(** A question header starts where [s] starts. *)
Definition startsQuestion (s : string) : bool :=
  bool_decide (is_Some (matchAt re_questionStart s 0)).

(** The pieces of [s] when it is cut before every position, the first
    excepted, at which [starts] holds of the rest of [s]; [pending] is the
    piece being read. *)
Fixpoint cutBefore (starts : string → bool) (pending : string) (s : string)
    : list string :=
  match s with
  | EmptyString => [pending]
  | String a s' =>
      if starts s && negb (bool_decide (pending = EmptyString))
      then pending :: cutBefore starts (String a EmptyString) s'
      else cutBefore starts (pending +:+ String a EmptyString) s'
  end.

(** The strings of a list, one after the other. *)
Definition joined (l : list string) : string :=
  foldr String.append EmptyString l.

(** The words that move the parser to the intermediate or to the advanced
    section. *)
Definition laterSectionMarkers : list string :=
  ["## Intermediate"; "Application"; "## Advanced"; "Deep Dive"].



(** A pattern without capture groups. *)
Fixpoint plain (r : Regex) : bool :=
  match r with
  | Char _ | Empty | Repeat _ _ _ | EndOfInput => true
  | Seq r1 r2 | Alt r1 r2 => plain r1 && plain r2
  | Lookahead r => plain r
  | Group _ _ => false
  end.

(** A code unit of a keyword: no line terminator and no comma. *)
Definition isKeywordChar (a : ascii) : bool :=
  isDot a && negb (bool_decide (a = ","%char)).

(** The id that the parser gives question [questionNumber] of week
    [weekNumber]. *)
Definition questionIdOf (weekNumber questionNumber : Z) : string :=
  "week" +:+ ToString weekNumber +:+ "-q" +:+ ToString questionNumber.






(** * Example data *)

(** A question with the given id, difficulty and week tag, for examples. *)
Definition mkq (i : string) (d : Difficulty) (w : option Z) : ParsedQuestion :=
  {| id := i; questionNumber := 1; question := EmptyString; keywords := [];
     modelAnswer := EmptyString; difficulty := d; weekNumber := w |}.

Definition pool_two_weeks : list ParsedQuestion :=
  [ mkq "week1-q1" beginner (Some 1); mkq "week1-q2" intermediate (Some 1);
    mkq "week1-q3" advanced (Some 1); mkq "week2-q1" beginner (Some 2);
    mkq "week2-q2" advanced (Some 2) ].

(** Two different questions that carry the same id. *)
Definition pool_shared_id : list ParsedQuestion :=
  [ mkq "week1-q1" beginner (Some 1); mkq "week1-q1" intermediate (Some 1) ].

(** Ten question banks are loaded as weeks 1 to 10; one question of week 2
    and one of week 10 are enough to see the order of the weeks. *)
Definition pool_weeks_2_10 : list ParsedQuestion :=
  [ mkq "week2-q1" beginner (Some 2); mkq "week10-q1" beginner (Some 10) ].

Definition pool_week_0 : list ParsedQuestion :=
  [ mkq "week0-q1" beginner (Some 0); mkq "week0-q2" advanced (Some 0) ].

(** One week with two questions of every difficulty. *)
Definition pool_abundant : list ParsedQuestion :=
  [ mkq "week1-q1" beginner (Some 1); mkq "week1-q2" beginner (Some 1);
    mkq "week1-q3" intermediate (Some 1); mkq "week1-q4" intermediate (Some 1);
    mkq "week1-q5" advanced (Some 1); mkq "week1-q6" advanced (Some 1) ].

(** A store with two pools. *)
Definition store0 : Store := [pool_shared_id; pool_two_weeks].

Definition clock0 : Clock :=
  {| Date_now := 1700000000000;
     toISOString := "2023-11-14T22:13:20.000Z";
     toString36 := λ _, "0.4fzyo82mvyr" |}.

(** Two questions with keywords. *)
Definition pool_keywords : list ParsedQuestion :=
  [ {| id := "week1-q1"; questionNumber := 1; question := "What is a closure?";
       keywords := ["scope"; "function"; "environment"];
       modelAnswer := EmptyString; difficulty := beginner;
       weekNumber := Some 1 |};
    {| id := "week1-q2"; questionNumber := 2; question := "What is a promise?";
       keywords := ["async"; "then"];
       modelAnswer := EmptyString; difficulty := intermediate;
       weekNumber := Some 1 |} ].

(** The store after a session on [pool_keywords] was created. *)
Definition store_keywords : InterviewStore :=
  (createSession clock0 pool_keywords 2 [1] None None None initialStore
     (λ k, k) 0%nat).1.

(** The lines of a file, each ended by a line feed. *)
Definition lines (l : list string) : string :=
  foldr (λ line rest, line +:+ String LF rest) EmptyString l.

(** A small question bank. *)
Definition bank_closures : string :=
  lines [ "# JavaScript";
          "## Beginner";
          "### Q1: What is a closure?";
          "**Keywords:** scope, function";
          "### Q2: What is a promise?";
          "**Keywords:** async, then" ].




(** A file without question headers. *)
Definition bank_readme : string :=
  lines [ "# Question banks"; "One file per technology." ].

(** * Lemmas *)

(** ** Computations in [Rand] *)

Section always.
Context {A B : Type}.

Lemma always_ret (a : A) (P : A → Prop) : P a → always (ret a) P.
Proof. intros H r c. exact H. Qed.

Lemma always_bind (m : Rand A) (f : A → Rand B) (P : A → Prop)
    (Q : B → Prop) :
  always m P → (∀ a, P a → always (f a) Q) → always (bind m f) Q.
Proof.
  intros Hm Hf r c. unfold bind.
  specialize (Hm r c). destruct (m r c) as [a c']. simpl in Hm.
  apply Hf, Hm.
Qed.

Lemma always_mono (m : Rand A) (P Q : A → Prop) :
  always m P → (∀ a, P a → Q a) → always m Q.
Proof. intros Hm HPQ r c. apply HPQ, Hm. Qed.

Lemma always_and (m : Rand A) (P Q : A → Prop) :
  always m P → always m Q → always m (λ a, P a ∧ Q a).
Proof. intros HP HQ r c. split; [apply HP | apply HQ]. Qed.
End always.

(** ** The shuffle returns a permutation *)

Section shuffle.
Context {A : Type}.
Implicit Types l : list A.

Lemma swap_Permutation i j l : swap i j l ≡ₚ l.
Proof.
  unfold swap.
  destruct (l !! i) as [x|] eqn:Hi; [|done].
  destruct (l !! j) as [y|] eqn:Hj; [|done].
  by apply Permutation_insert_swap.
Qed.

Lemma swap_length i j l : length (swap i j l) = length l.
Proof. apply Permutation_length, swap_Permutation. Qed.

Lemma random_index_lt bound r c :
  (0 < bound)%nat → ((random_index bound r c).1 < bound)%nat.
Proof. intros H. simpl. apply Nat.mod_upper_bound. lia. Qed.

(** Every swap of the loop reads and writes inside the array. *)
Lemma shuffle_swap_in_range i l r c :
  (S i < length l)%nat →
  is_Some (l !! S i) ∧
  is_Some (l !! (random_index (S i + 1) r c).1).
Proof.
  intros Hi. split; apply lookup_lt_is_Some; [done|].
  pose proof (random_index_lt (S i + 1) r c). lia.
Qed.

Lemma shuffle_loop_Permutation i l :
  always (shuffle_loop i l) (λ l', l' ≡ₚ l).
Proof.
  revert l. induction i as [|i IH]; intros l.
  - by apply always_ret.
  - simpl. eapply always_bind with (P := λ _, True); [done|].
    intros j _. eapply always_mono; [apply IH|].
    intros l' Hl'. simpl in Hl'. by rewrite Hl', swap_Permutation.
Qed.

Lemma shuffleArray_Permutation l :
  always (shuffleArray l) (λ l', l' ≡ₚ l).
Proof. apply shuffle_loop_Permutation. Qed.

(** The loop draws once per iteration. *)
Lemma shuffle_loop_draws i l r c : (shuffle_loop i l r c).2 = (c + i)%nat.
Proof.
  revert l c. induction i as [|i IH]; intros l c; simpl.
  - lia.
  - unfold bind. simpl. rewrite IH. lia.
Qed.

Lemma shuffleArray_draws l r c :
  (shuffleArray l r c).2 = (c + (length l - 1))%nat.
Proof. apply shuffle_loop_draws. Qed.
End shuffle.

(** ** Slices and filters *)

Section lists.
Context {A : Type}.
Implicit Types l k : list A.

Lemma slice0_nonneg l e : 0 ≤ e → slice0 l e = take (Z.to_nat e) l.
Proof. intros H. unfold slice0. case_decide; [lia|done]. Qed.

Lemma slice0_sublist l e : slice0 l e `sublist_of` l.
Proof. unfold slice0. case_decide; apply sublist_take. Qed.

Lemma slice0_submseteq l e : slice0 l e ⊆+ l.
Proof. apply sublist_submseteq, slice0_sublist. Qed.

Lemma slice0_length l e :
  0 ≤ e → Z.of_nat (length (slice0 l e)) = Z.min e (length l).
Proof. intros H. rewrite slice0_nonneg, length_take by done. lia. Qed.

Lemma filter_submseteq_mono (P : A → Prop) `{!∀ x, Decision (P x)} l k :
  l ⊆+ k → filter P l ⊆+ filter P k.
Proof.
  induction 1 as [|x l1 l2 _ IH|x y l|x l1 l2 _ IH|l1 l2 l3 _ IH1 _ IH2].
  - done.
  - rewrite !filter_cons. case_decide; [by constructor|done].
  - rewrite !filter_cons. repeat case_decide; try done.
    apply Permutation_submseteq, perm_swap.
  - rewrite filter_cons. case_decide; [by constructor|done].
  - by etrans.
Qed.

Lemma filter_all (P : A → Prop) `{!∀ x, Decision (P x)} l :
  Forall P l → filter P l = l.
Proof.
  induction 1 as [|x l Hx _ IH]; [done|].
  rewrite filter_cons, decide_True by done. by rewrite IH.
Qed.

Lemma filter_none (P : A → Prop) `{!∀ x, Decision (P x)} l :
  Forall (λ x, ¬ P x) l → filter P l = [].
Proof.
  induction 1 as [|x l Hx _ IH]; [done|].
  by rewrite filter_cons, decide_False.
Qed.

Lemma Forall_submseteq (P : A → Prop) l k :
  l ⊆+ k → Forall P k → Forall P l.
Proof.
  intros Hlk Hk. apply Forall_forall. intros x Hx.
  rewrite Forall_forall in Hk. apply Hk.
  by eapply elem_of_submseteq.
Qed.

Lemma submseteq_NoDup l k : l ⊆+ k → NoDup k → NoDup l.
Proof.
  intros [rest Hperm]%submseteq_Permutation Hnd.
  rewrite Hperm in Hnd. by apply NoDup_app in Hnd as [? _].
Qed.

(** Removing from [k] everything that has a mark carried by a
    sub-multiset [l] leaves at most what [l] does not use. *)
Lemma filter_complement_submseteq (P : A → Prop) `{!∀ x, Decision (P x)}
    l l' k :
  l ⊆+ k → Forall P l → l' ⊆+ filter (λ x, ¬ P x) k → l ++ l' ⊆+ k.
Proof.
  intros Hlk HP Hl'.
  rewrite <-(filter_app_complement P k).
  apply submseteq_app; [|done].
  rewrite <-(filter_all P l) by done.
  by apply filter_submseteq_mono.
Qed.
End lists.

(** ** Rounding and quotas *)

(** Linear arithmetic with the divisions by constants made explicit. *)
Ltac div_lia := Z.to_euclidean_division_equations; lia.

(** [Math_round_ratio] is the nearest integer to [n * tenths / 10], halves
    rounded upwards. *)
Lemma Math_round_ratio_spec n tenths :
  10 * Math_round_ratio n tenths - 5 ≤ n * tenths
    < 10 * Math_round_ratio n tenths + 5.
Proof. unfold Math_round_ratio. generalize (n * tenths). intros x. div_lia. Qed.

(** On the quotas from -2000 to 4000 and the three ratios of the code,
    [Math_round_ratio] is the [Math.round] of the product of doubles. *)
Lemma Math_round_ratio_on_doubles :
  forallb (λ tenths,
     forallb (λ k, Math_round_ratio_agrees tenths (Z.of_nat k - 2000))
             (seq 0 (Z.to_nat 6001)))
    [1; 4; 5] = true.
Proof. vm_compute. reflexivity. Qed.

Lemma raw_targets_fit w level :
  rawIntermediate w (ratiosOf level) + rawAdvanced w (ratiosOf level)
    ≤ Z.max 0 w.
Proof.
  unfold rawIntermediate, rawAdvanced, Math_round_ratio.
  destruct level; cbn [ratiosOf intermediateRatio advancedRatio]; div_lia.
Qed.

Lemma rawAdvanced_entry_le_experienced w :
  rawAdvanced w (ratiosOf entry) ≤ rawAdvanced w (ratiosOf experienced).
Proof.
  unfold rawAdvanced, Math_round_ratio.
  cbn [ratiosOf advancedRatio]. div_lia.
Qed.

Lemma counts_fit wq w level :
  let rt := ratiosOf level in
  0 ≤ intermediateCount wq w rt ∧ 0 ≤ advancedCount wq w rt ∧
  intermediateCount wq w rt + advancedCount wq w rt ≤ Z.max 0 w.
Proof.
  pose proof (raw_targets_fit w level) as H.
  unfold rawIntermediate, rawAdvanced in H.
  unfold intermediateCount, advancedCount. cbn zeta. lia.
Qed.

(** ** The per-week selection *)

Lemma difficulty_partition (l : list ParsedQuestion) :
  filter (hasDifficulty beginner) l ++ filter (hasDifficulty intermediate) l
    ++ filter (hasDifficulty advanced) l ≡ₚ l.
Proof.
  induction l as [|q l IH]; [done|].
  rewrite !filter_cons.
  destruct (difficulty q) eqn:Hd;
    repeat case_decide; unfold hasDifficulty in *; try congruence; simpl.
  - by rewrite IH.
  - rewrite <-Permutation_middle. by rewrite IH.
  - rewrite app_assoc, <-Permutation_middle, <-app_assoc. by rewrite IH.
Qed.

Lemma countDifficulty_app d l k :
  countDifficulty d (l ++ k) = (countDifficulty d l + countDifficulty d k)%nat.
Proof. unfold countDifficulty. by rewrite filter_app, length_app. Qed.

Lemma countDifficulty_Permutation d l k :
  l ≡ₚ k → countDifficulty d l = countDifficulty d k.
Proof. intros H. unfold countDifficulty. by rewrite H. Qed.

(** A prefix of a shuffled bucket holds questions of that bucket only. *)
Lemma countDifficulty_bucket d d' wq s n :
  s ≡ₚ filter (hasDifficulty d') wq →
  countDifficulty d (take n s) =
    if decide (d = d') then length (take n s) else 0%nat.
Proof.
  intros Hs.
  assert (Forall (hasDifficulty d') (take n s)) as Hall.
  { apply Forall_take. rewrite Hs. apply Forall_forall.
    intros q Hq. by apply list_elem_of_filter in Hq as [? _]. }
  unfold countDifficulty. case_decide as Hd.
  - subst d'. by rewrite filter_all.
  - rewrite filter_none; [done|].
    eapply Forall_impl; [exact Hall|].
    unfold hasDifficulty. intros q ->. congruence.
Qed.

Lemma stratify_stratified wq w rt :
  always (stratify wq w rt) (stratified wq w rt).
Proof.
  unfold stratify.
  eapply always_bind; [apply shuffleArray_Permutation|]. intros sb Hsb.
  eapply always_bind; [apply shuffleArray_Permutation|]. intros si Hsi.
  eapply always_bind; [apply shuffleArray_Permutation|]. intros sa Hsa.
  apply always_ret. exists sb, si, sa. repeat split; try done.
  simpl. rewrite <-app_assoc.
  rewrite !slice0_nonneg
    by (unfold beginnerCount, intermediateCount, advancedCount; lia).
  do 3 f_equal; f_equal;
    unfold intermediateCount, advancedCount; lia.
Qed.

Lemma stratified_submseteq wq w rt s : stratified wq w rt s → s ⊆+ wq.
Proof.
  intros (sb & si & sa & Hsb & Hsi & Hsa & ->).
  trans (sb ++ si ++ sa).
  - repeat apply submseteq_app; apply sublist_submseteq, sublist_take.
  - apply Permutation_submseteq. rewrite Hsb, Hsi, Hsa.
    apply difficulty_partition.
Qed.

Lemma stratified_counts wq w rt s :
  stratified wq w rt s →
  Z.of_nat (countDifficulty beginner s) =
    Z.min (length (filter (hasDifficulty beginner) wq))
          (beginnerCount wq w rt) ∧
  Z.of_nat (countDifficulty intermediate s) = intermediateCount wq w rt ∧
  Z.of_nat (countDifficulty advanced s) = advancedCount wq w rt ∧
  (length s = countDifficulty beginner s + countDifficulty intermediate s
              + countDifficulty advanced s)%nat.
Proof.
  intros (sb & si & sa & Hsb & Hsi & Hsa & ->).
  rewrite !countDifficulty_app, !length_app.
  rewrite !(countDifficulty_bucket _ beginner wq sb) by done.
  rewrite !(countDifficulty_bucket _ intermediate wq si) by done.
  rewrite !(countDifficulty_bucket _ advanced wq sa) by done.
  simpl. rewrite !length_take.
  apply Permutation_length in Hsb, Hsi, Hsa.
  unfold beginnerCount, intermediateCount, advancedCount in *.
  repeat split; lia.
Qed.

Lemma stratified_length wq w level s :
  stratified wq w (ratiosOf level) s → Z.of_nat (length s) ≤ Z.max 0 w.
Proof.
  intros Hs. pose proof (stratified_counts _ _ _ _ Hs) as (Hb & Hi & Ha & ->).
  pose proof (counts_fit wq w level) as (? & ? & ?). simpl in *.
  unfold beginnerCount in Hb. lia.
Qed.

Lemma backfill_backfilled source selected target :
  always (backfill source selected target)
         (backfilled source selected target).
Proof.
  unfold backfill. case_decide as Hlt.
  - eapply always_bind; [apply shuffleArray_Permutation|].
    intros remaining Hrem. apply always_ret. right. split; [done|].
    exists remaining. split; [done|]. by rewrite slice0_nonneg by lia.
  - apply always_ret. by left.
Qed.

Lemma elem_of_idSet (i : string) (l : list ParsedQuestion) :
  i ∈ idSet l ↔ ∃ q, q ∈ l ∧ id q = i.
Proof.
  unfold idSet. rewrite elem_of_list_to_set, list_elem_of_fmap. split.
  - intros (q & -> & Hq). by exists q.
  - intros (q & Hq & <-). by exists q.
Qed.

Lemma backfilled_submseteq source selected target res :
  backfilled source selected target res →
  selected ⊆+ source → res ⊆+ source.
Proof.
  intros [[_ ->]|[_ (remaining & Hrem & ->)]] Hsub; [done|].
  apply (filter_complement_submseteq (λ q, id q ∈ idSet selected)); [done| |].
  - apply Forall_forall. intros q Hq. apply elem_of_idSet. eauto.
  - rewrite <-Hrem. apply sublist_submseteq, sublist_take.
Qed.

Lemma backfilled_length source selected target res :
  backfilled source selected target res →
  Z.of_nat (length res) ≤ Z.max (length selected) target.
Proof.
  intros [[_ ->]|[Hlt (remaining & Hrem & ->)]]; [lia|].
  rewrite length_app, length_take. lia.
Qed.

Lemma backfilled_prefix source selected target res :
  backfilled source selected target res → selected `prefix_of` res.
Proof.
  intros [[_ ->]|[_ (remaining & _ & ->)]]; [done|]. by apply prefix_app_r.
Qed.

Lemma selectWeek_weekSelection wq w rt :
  always (selectWeek wq w rt) (weekSelection wq w rt).
Proof.
  unfold selectWeek.
  eapply always_bind; [apply stratify_stratified|]. intros s Hs.
  eapply always_mono; [apply backfill_backfilled|].
  intros p Hp. by exists s.
Qed.

Lemma weekSelection_submseteq wq w rt p : weekSelection wq w rt p → p ⊆+ wq.
Proof.
  intros (s & Hs & Hp).
  eapply backfilled_submseteq; [done|]. by eapply stratified_submseteq.
Qed.

Lemma weekSelection_length wq w level p :
  weekSelection wq w (ratiosOf level) p → Z.of_nat (length p) ≤ Z.max 0 w.
Proof.
  intros (s & Hs & Hp).
  apply stratified_length in Hs. apply backfilled_length in Hp. lia.
Qed.

Lemma idSet_nil : idSet [] = ∅.
Proof. done. Qed.

Lemma weekSelection_nonempty wq w rt p :
  weekSelection wq w rt p → 1 ≤ w → wq ≠ [] → p ≠ [].
Proof.
  intros (s & _ & [[Hge ->]|[Hlt (remaining & Hrem & ->)]]) Hw Hwq.
  - destruct s; [simpl in Hge; lia|done].
  - destruct s as [|q s]; [|done]. simpl.
    rewrite idSet_nil, filter_all in Hrem
      by (apply Forall_forall; intros q _; apply not_elem_of_empty).
    destruct remaining as [|q remaining].
    + apply Permutation_nil_l in Hrem. congruence.
    + simpl in *. destruct (Z.to_nat (w - 0%nat)) eqn:E; [lia|done].
Qed.

Lemma weekSelection_abundant wq w level p :
  let rt := ratiosOf level in
  weekSelection wq w rt p → abundantWeek wq w rt →
  Z.of_nat (length p) = Z.max 0 w ∧
  Z.of_nat (countDifficulty advanced p) = rawAdvanced w rt.
Proof.
  intros rt (s & Hs & Hp) (Hb & Hi & Ha).
  pose proof (stratified_counts _ _ _ _ Hs) as (Hcb & Hci & Hca & Hlen).
  pose proof (raw_targets_fit w level) as Hfit. fold rt in Hfit.
  assert (intermediateCount wq w rt = rawIntermediate w rt) as Ei
    by (unfold intermediateCount, rawIntermediate in *; lia).
  assert (advancedCount wq w rt = rawAdvanced w rt) as Ea
    by (unfold advancedCount, rawAdvanced in *; lia).
  assert (beginnerCount wq w rt = rawBeginner w rt) as Eb
    by (unfold beginnerCount, rawBeginner; by rewrite Ei, Ea).
  assert (Z.of_nat (length s) = Z.max 0 w) as Hs_len
    by (unfold rawBeginner in *; lia).
  destruct Hp as [[_ ->]|[Hlt _]]; [|lia].
  split; [done|]. by rewrite Hca.
Qed.

(** ** The loop over the weeks *)

Section weeks.
Variables (byWeek : WeekMap) (perWeek remainder : Z) (rt : Ratios).

Lemma weeks_forEach_weekRuns weeks index selected :
  always (weeks_forEach byWeek perWeek remainder rt weeks index selected)
    (λ res, ∃ ps, res = selected ++ concat ps ∧
                  weekRuns byWeek perWeek remainder rt index weeks ps).
Proof.
  revert index selected.
  induction weeks as [|week weeks IH]; intros index selected; simpl.
  - apply always_ret. exists []. split; [by rewrite app_nil_r|constructor].
  - eapply always_bind; [apply selectWeek_weekSelection|]. intros p Hp.
    eapply always_mono; [apply IH|]. intros res (ps & -> & Hps).
    exists (p :: ps). split; [by rewrite <-app_assoc|by constructor].
Qed.

Lemma weekRuns_submseteq index weeks ps :
  weekRuns byWeek perWeek remainder rt index weeks ps →
  concat ps ⊆+ concat (Map_get_present byWeek <$> weeks).
Proof.
  induction 1 as [|index week weeks p ps Hp _ IH]; [done|]. simpl.
  apply submseteq_app; [|done]. by eapply weekSelection_submseteq.
Qed.

(** A week with a positive quota and a non-empty group is represented. *)
Lemma weekRuns_coverage index weeks ps k week :
  weekRuns byWeek perWeek remainder rt index weeks ps →
  weeks !! k = Some week →
  1 ≤ weekQuota perWeek remainder (index + k) →
  Map_get_present byWeek week ≠ [] →
  ∃ q, q ∈ concat ps ∧ q ∈ Map_get_present byWeek week.
Proof.
  intros Hruns. revert k.
  induction Hruns as [|index week' weeks p ps Hp _ IH];
    intros k Hk Hq Hne; [done|].
  destruct k as [|k]; simpl in Hk |- *.
  - simplify_eq. rewrite Nat.add_0_r in Hq.
    pose proof (weekSelection_nonempty _ _ _ _ Hp Hq Hne) as Hp_ne.
    destruct p as [|q p]; [done|]. exists q. split; [left|].
    eapply elem_of_submseteq; [|by eapply weekSelection_submseteq].
    left.
  - destruct (IH k) as (q & Hq1 & Hq2); [done| |done|].
    + by replace (S index + k)%nat with (index + S k)%nat by lia.
    + exists q. split; [|done]. apply elem_of_app. by right.
Qed.
End weeks.

Lemma sumFrom_snoc f index n :
  sumFrom f index (S n) = sumFrom f index n + f (index + n)%nat.
Proof.
  revert index. induction n as [|n IH]; intros index.
  - simpl. rewrite Nat.add_0_r. lia.
  - change (sumFrom f index (S (S n)))
      with (f index + sumFrom f (S index) (S n)).
    rewrite IH. cbn [sumFrom].
    replace (index + S n)%nat with (S index + n)%nat by lia. lia.
Qed.

Lemma sumFrom_le f g index n :
  (∀ k, f k ≤ g k) → sumFrom f index n ≤ sumFrom g index n.
Proof.
  intros Hfg. revert index. induction n as [|n IH]; intros index; simpl.
  - lia.
  - specialize (Hfg index). specialize (IH (S index)). lia.
Qed.

Lemma sumFrom_ext f g index n :
  (∀ k, f k = g k) → sumFrom f index n = sumFrom g index n.
Proof.
  intros Hfg. revert index. induction n as [|n IH]; intros index; simpl.
  - done.
  - by rewrite Hfg, IH.
Qed.

(** The first [remainder] weeks get one question more than the others. *)
Lemma weekQuota_cases perWeek remainder index :
  (Z.of_nat index < remainder →
   weekQuota perWeek remainder index = perWeek + 1) ∧
  (remainder ≤ Z.of_nat index →
   weekQuota perWeek remainder index = perWeek).
Proof. unfold weekQuota. case_decide; split; lia. Qed.

Lemma quota_sum perWeek remainder n :
  0 ≤ remainder →
  sumFrom (weekQuota perWeek remainder) 0 n
    = Z.of_nat n * perWeek + Z.min n remainder.
Proof.
  intros Hrem. induction n as [|n IH]; [simpl; lia|].
  rewrite sumFrom_snoc, IH. simpl. unfold weekQuota. case_decide; lia.
Qed.

(** The quotas of the weeks add up to the requested count. *)
Lemma quota_sum_count count n :
  (0 < n)%nat → 0 ≤ count →
  sumFrom (weekQuota (count `div` n) (count `rem` n)) 0 n = count.
Proof.
  intros Hn Hc. rewrite quota_sum by (apply Z.rem_nonneg; lia).
  rewrite Z.rem_mod_nonneg by lia.
  pose proof (Z.mod_pos_bound count n ltac:(lia)).
  pose proof (Z.div_mod count n ltac:(lia)). lia.
Qed.

Lemma quota_nonneg count n index :
  (0 < n)%nat → 0 ≤ count →
  0 ≤ weekQuota (count `div` n) (count `rem` n) index.
Proof.
  intros Hn Hc. unfold weekQuota.
  pose proof (Z.div_pos count n ltac:(lia) ltac:(lia)).
  case_decide; lia.
Qed.

Lemma quota_nonpos count n index :
  (0 < n)%nat → count ≤ 0 →
  weekQuota (count `div` n) (count `rem` n) index ≤ 0.
Proof.
  intros Hn Hc. unfold weekQuota.
  assert (count `div` n ≤ 0) by (apply Z.div_le_upper_bound; lia).
  assert (count `rem` n ≤ 0) by (apply Z.rem_nonpos; lia).
  case_decide; lia.
Qed.

Lemma quota_positive count n index :
  (0 < n)%nat → Z.of_nat n ≤ count →
  1 ≤ weekQuota (count `div` n) (count `rem` n) index.
Proof.
  intros Hn Hc. unfold weekQuota.
  assert (1 ≤ count `div` n) by (apply Z.div_le_lower_bound; lia).
  case_decide; lia.
Qed.

Lemma weekRuns_length byWeek perWeek remainder level index weeks ps :
  weekRuns byWeek perWeek remainder (ratiosOf level) index weeks ps →
  Z.of_nat (length (concat ps))
    ≤ sumFrom (λ k, Z.max 0 (weekQuota perWeek remainder k))
        index (length weeks).
Proof.
  induction 1 as [|index week weeks p ps Hp _ IH]; [done|].
  apply weekSelection_length in Hp.
  cbn [concat length sumFrom]. rewrite length_app. lia.
Qed.

Lemma weekRuns_abundant byWeek perWeek remainder level index weeks ps :
  let rt := ratiosOf level in
  weekRuns byWeek perWeek remainder rt index weeks ps →
  (∀ k week, weeks !! k = Some week →
     abundantWeek (Map_get_present byWeek week)
       (weekQuota perWeek remainder (index + k)) rt) →
  Z.of_nat (length (concat ps))
    = sumFrom (λ k, Z.max 0 (weekQuota perWeek remainder k))
        index (length weeks) ∧
  Z.of_nat (countDifficulty advanced (concat ps))
    = sumFrom (λ k, rawAdvanced (weekQuota perWeek remainder k) rt)
        index (length weeks).
Proof.
  intros rt.
  induction 1 as [|index week weeks p ps Hp _ IH]; intros Hab; [done|].
  destruct IH as [IH1 IH2].
  { intros k week' Hk.
    replace (S index + k)%nat with (index + S k)%nat by lia.
    by apply Hab. }
  destruct (weekSelection_abundant _ _ _ _ Hp) as [Hl Ha].
  { specialize (Hab 0%nat week eq_refl). by rewrite Nat.add_0_r in Hab. }
  cbn [concat length sumFrom].
  rewrite length_app, countDifficulty_app. fold rt in Ha. lia.
Qed.

(** ** Grouping by week *)

Section Map.
Context {V : Type}.
Implicit Types (m : list (Z * V)) (k : Z).

Lemma Map_get_None m k : Map_get m k = None ↔ k ∉ m.*1.
Proof.
  induction m as [|[k' v] m IH]; simpl.
  - split; [intros _; apply not_elem_of_nil|done].
  - rewrite not_elem_of_cons. case_decide as Hk.
    + split; [done|]. intros [Hne _]. by destruct Hne.
    + rewrite IH. split; [by split|by intros [_ ?]].
Qed.

Lemma Map_get_set m k k' v :
  Map_get (Map_set m k v) k' =
    if decide (k' = k) then Some v else Map_get m k'.
Proof.
  induction m as [|[k0 v0] m IH]; simpl.
  - repeat case_decide; congruence.
  - repeat (case_decide; simpl); congruence.
Qed.

Lemma Map_set_keys m k v :
  (Map_set m k v).*1 = if decide (k ∈ m.*1) then m.*1 else m.*1 ++ [k].
Proof.
  induction m as [|[k0 v0] m IH].
  - by destruct (decide (k ∈ ([] : list (Z * V)).*1))
      as [?%not_elem_of_nil|_].
  - cbn [Map_set fmap list_fmap fst].
    destruct (decide (k0 = k)) as [->|Hne]; cbn [fmap list_fmap fst].
    + by rewrite decide_True by left.
    + fold (fmap (M:=list) (@fst Z V)).
      rewrite IH. destruct (decide (k ∈ m.*1)) as [Hin|Hnin].
      * by rewrite decide_True by by right.
      * rewrite decide_False; [done|].
        rewrite not_elem_of_cons. split; [congruence|done].
Qed.

End Map.

Section grouping.
Implicit Types (m : WeekMap) (k : Z) (q : ParsedQuestion).

Lemma byWeek_add_keys m q :
  (byWeek_add m q).*1 =
    if decide (weekNum q ∈ m.*1) then m.*1 else m.*1 ++ [weekNum q].
Proof.
  unfold byWeek_add, Map_has, Map_push.
  destruct (decide (weekNum q ∈ m.*1)) as [Hin|Hnin].
  - rewrite bool_decide_eq_true_2 by done.
    destruct (Map_get m (weekNum q)) eqn:E; [|by apply Map_get_None in E].
    by rewrite Map_set_keys, decide_True.
  - rewrite bool_decide_eq_false_2 by done.
    rewrite Map_get_set, decide_True by done.
    rewrite Map_set_keys, (Map_set_keys m).
    rewrite (decide_False (P := weekNum q ∈ m.*1)) by done.
    rewrite decide_True; [done|]. apply elem_of_app. right. left.
Qed.

Lemma byWeek_add_get m q k :
  Map_get_present (byWeek_add m q) k =
    if decide (k = weekNum q) then Map_get_present m k ++ [q]
    else Map_get_present m k.
Proof.
  unfold byWeek_add, Map_has, Map_push, Map_get_present.
  destruct (decide (weekNum q ∈ m.*1)) as [Hin|Hnin].
  - rewrite bool_decide_eq_true_2 by done.
    destruct (Map_get m (weekNum q)) as [v|] eqn:E;
      [|by apply Map_get_None in E].
    rewrite Map_get_set. case_decide; [subst k; by rewrite E|done].
  - rewrite bool_decide_eq_false_2 by done.
    rewrite Map_get_set, decide_True by done.
    rewrite !Map_get_set. case_decide; [subst k|done].
    apply Map_get_None in Hnin. by rewrite Hnin.
Qed.

Lemma grouped_nil : grouped [] [].
Proof. split; [constructor|]. split; [done|]. done. Qed.

Lemma grouped_add m l q : grouped m l → grouped (byWeek_add m q) (l ++ [q]).
Proof.
  intros (Hnd & Hkeys & Hget). split; [|split].
  - rewrite byWeek_add_keys. case_decide; [done|].
    apply NoDup_app. split; [done|]. split; [|apply NoDup_singleton].
    intros k Hk ->%list_elem_of_singleton. done.
  - intros k. rewrite byWeek_add_keys, fmap_app, elem_of_app.
    simpl. rewrite list_elem_of_singleton, <-Hkeys.
    case_decide as Hin; [|by rewrite elem_of_app, list_elem_of_singleton].
    split; [by left|by intros [?| ->]].
  - intros k. rewrite byWeek_add_get, filter_app, Hget.
    rewrite filter_cons, filter_nil.
    repeat case_decide; try congruence. by rewrite app_nil_r.
Qed.

Lemma groupByWeek_grouped questions :
  grouped (groupByWeek questions) questions.
Proof.
  unfold groupByWeek.
  assert (∀ l m l0, grouped m l0 →
            grouped (foldl byWeek_add m l) (l0 ++ l)) as H.
  { induction l as [|q l IH]; intros m l0 Hm; simpl.
    - by rewrite app_nil_r.
    - rewrite (assoc_L _ l0 [q] l : l0 ++ q :: l = (l0 ++ [q]) ++ l).
      by apply IH, grouped_add. }
  apply (H questions [] []), grouped_nil.
Qed.

(** No group of the map is empty. *)
Lemma groupByWeek_nonempty questions week :
  week ∈ (groupByWeek questions).*1 →
  Map_get_present (groupByWeek questions) week ≠ [].
Proof.
  destruct (groupByWeek_grouped questions) as (_ & Hkeys & Hget).
  rewrite Hkeys, Hget, list_elem_of_fmap. intros (q & -> & Hq) Hnil.
  assert (q ∈ filter (λ q', weekNum q' = weekNum q) questions) as Hin
    by by apply list_elem_of_filter.
  rewrite Hnil in Hin. by apply not_elem_of_nil in Hin.
Qed.

(** The groups of pairwise distinct keys that cover [l] partition it. *)
Lemma concat_groups (ks : list Z) (l : list ParsedQuestion) :
  NoDup ks → (∀ q, q ∈ l → weekNum q ∈ ks) →
  concat ((λ k, filter (λ q, weekNum q = k) l) <$> ks) ≡ₚ l.
Proof.
  intros Hnd. revert l.
  induction Hnd as [|k ks Hk _ IH]; intros l Hcover.
  - destruct l as [|q l]; [done|].
    specialize (Hcover q ltac:(left)). by apply not_elem_of_nil in Hcover.
  - rewrite fmap_cons. cbn [concat].
    etrans; [|apply (filter_app_complement (λ q, weekNum q = k) l)].
    apply Permutation_app; [done|].
    assert ((λ k', filter (λ q, weekNum q = k') l) <$> ks =
            (λ k', filter (λ q, weekNum q = k')
                     (filter (λ q, ¬ weekNum q = k) l)) <$> ks) as ->.
    { apply Forall_fmap_ext_1, Forall_forall. intros k' Hk'.
      rewrite list_filter_filter.
      apply list_filter_iff. intros q. split; [|by intros [? _]].
      intros ->. split; [done|]. by intros ->. }
    apply IH. intros q [Hne Hq]%list_elem_of_filter.
    apply Hcover in Hq. by apply elem_of_cons in Hq as [?|?].
Qed.
End grouping.

(** ** The default sort *)

Lemma sort_insert_Permutation x l : sort_insert x l ≡ₚ x :: l.
Proof.
  induction l as [|y l IH]; simpl; [done|].
  destruct (String.ltb _ _); [|done]. rewrite IH. apply perm_swap.
Qed.

Lemma Array_sort_Permutation l : Array_sort l ≡ₚ l.
Proof.
  induction l as [|x l IH]; simpl; [done|].
  by rewrite sort_insert_Permutation, IH.
Qed.

(** The order [Array_sort] produces: no element's numeral is strictly below
    the numeral of the element before it. *)
Lemma sort_insert_Sorted x l :
  Sorted (λ a b, String.ltb (ToString b) (ToString a) = false) l →
  Sorted (λ a b, String.ltb (ToString b) (ToString a) = false)
         (sort_insert x l).
Proof.
  induction 1 as [|y l Hl IH Hy]; simpl.
  - repeat constructor.
  - destruct (String.ltb (ToString y) (ToString x)) eqn:E.
    + constructor; [done|].
      destruct Hy as [|z l Hz]; simpl.
      * constructor. unfold String.ltb in *.
        rewrite String.compare_antisym.
        by destruct (String.compare (ToString y) (ToString x)).
      * destruct (String.ltb (ToString z) (ToString x)).
        -- by constructor.
        -- constructor. unfold String.ltb in *.
           rewrite String.compare_antisym.
           by destruct (String.compare (ToString y) (ToString x)).
    + constructor; [by constructor|]. by constructor.
Qed.

Lemma Array_sort_Sorted l :
  Sorted (λ a b, String.ltb (ToString b) (ToString a) = false)
         (Array_sort l).
Proof.
  induction l as [|x l IH]; simpl; [constructor|].
  by apply sort_insert_Sorted.
Qed.

Lemma sortedWeeks_Permutation questions :
  sortedWeeks questions ≡ₚ (groupByWeek questions).*1.
Proof. apply Array_sort_Permutation. Qed.

Lemma sortedWeeks_groups questions :
  concat (Map_get_present (groupByWeek questions) <$> sortedWeeks questions)
    ≡ₚ questions.
Proof.
  destruct (groupByWeek_grouped questions) as (Hnd & Hkeys & Hget).
  rewrite (Forall_fmap_ext_1 _
             (λ k, filter (λ q, weekNum q = k) questions))
    by (apply Forall_forall; intros; apply Hget).
  apply concat_groups.
  - by rewrite sortedWeeks_Permutation.
  - intros q Hq. rewrite sortedWeeks_Permutation, Hkeys.
    by apply list_elem_of_fmap_2.
Qed.

Lemma sortedWeeks_nil questions : sortedWeeks questions = [] ↔ questions = [].
Proof.
  destruct (groupByWeek_grouped questions) as (_ & Hkeys & _). split.
  - intros Hnil. destruct questions as [|q l]; [done|].
    assert (weekNum q ∈ sortedWeeks (q :: l)) as Hin.
    { rewrite sortedWeeks_Permutation, Hkeys. left. }
    rewrite Hnil in Hin. by apply not_elem_of_nil in Hin.
  - by intros ->.
Qed.

Lemma selectRandomQuestions_sampling questions count level :
  always (selectRandomQuestions questions count level)
         (sampling questions count level).
Proof.
  unfold selectRandomQuestions, sampling. case_decide as Hn.
  - apply always_ret. left. split; [|done].
    by apply sortedWeeks_nil, nil_length_inv.
  - assert (questions ≠ []) as Hne.
    { intros ->. by apply Hn. }
    eapply always_bind; [apply weeks_forEach_weekRuns|].
    intros ? (ps & -> & Hps).
    eapply always_bind; [apply backfill_backfilled|]. intros selected Hsel.
    eapply always_mono; [apply shuffleArray_Permutation|].
    intros res Hres. right. split; [done|]. split; [lia|].
    by exists ps, selected.
Qed.

(** Every run returns a sub-multiset of the pool: each returned question
    is a question of the pool, taken at most as often as it occurs there. *)
Lemma sampling_submseteq questions count level res :
  sampling questions count level res → res ⊆+ questions.
Proof.
  intros [[-> ->]|(_ & _ & ps & selected & Hps & Hsel & Hres)]; [done|].
  rewrite Hres. eapply backfilled_submseteq; [done|].
  etrans; [by eapply weekRuns_submseteq|].
  apply Permutation_submseteq, sortedWeeks_groups.
Qed.

Lemma sumFrom_zero f index n : (∀ k, f k = 0) → sumFrom f index n = 0.
Proof.
  intros Hf. revert index. induction n as [|n IH]; intros index; simpl.
  - done.
  - rewrite Hf, IH. lia.
Qed.

(** Before the global fill the selection holds at most [count] questions. *)
Lemma weekRuns_length_count questions count level ps :
  let weeks := sortedWeeks questions in
  let numWeeks := length weeks in
  (0 < numWeeks)%nat →
  weekRuns (groupByWeek questions) (count `div` numWeeks)
    (count `rem` numWeeks) (ratiosOf level) 0 weeks ps →
  Z.of_nat (length (concat ps)) ≤ Z.max 0 count.
Proof.
  intros weeks numWeeks Hn Hps. apply weekRuns_length in Hps.
  fold numWeeks in Hps. etrans; [exact Hps|].
  destruct (decide (0 ≤ count)) as [Hc|Hc].
  - rewrite (sumFrom_ext _
      (weekQuota (count `div` numWeeks) (count `rem` numWeeks))).
    + rewrite quota_sum_count by done. lia.
    + intros k. pose proof (quota_nonneg count numWeeks k Hn Hc). lia.
  - rewrite sumFrom_zero; [lia|].
    intros k. pose proof (quota_nonpos count numWeeks k Hn). lia.
Qed.

(** With pairwise distinct ids, the questions whose id is not selected
    are exactly the questions that are not selected. *)
Lemma filter_unselected_length (source selected : list ParsedQuestion) :
  NoDup (id <$> source) → selected ⊆+ source →
  (length (filter (λ q, id q ∉ idSet selected) source)
     = length source - length selected)%nat.
Proof.
  intros Hnd Hsub.
  apply submseteq_Permutation in Hsub as [rest Hperm].
  rewrite Hperm in Hnd. rewrite Hperm, filter_app, !length_app.
  rewrite fmap_app in Hnd. apply NoDup_app in Hnd as (_ & Hdisj & _).
  rewrite filter_none, filter_all; [simpl; lia| |].
  - apply Forall_forall. intros q Hq [q' [Hq' Heq]]%elem_of_idSet.
    apply (Hdisj (id q')); [by apply list_elem_of_fmap_2|].
    rewrite Heq. by apply list_elem_of_fmap_2.
  - apply Forall_forall. intros q Hq Hnot. apply Hnot, elem_of_idSet. eauto.
Qed.

Lemma sampling_length questions count level res :
  sampling questions count level res →
  NoDup (id <$> questions) → 0 ≤ count →
  Z.of_nat (length res) = Z.min count (length questions).
Proof.
  intros [[-> ->]|(_ & Hn & ps & selected & Hps & Hsel & Hres)] Hnd Hc;
    [simpl; lia|].
  rewrite Hres.
  assert (concat ps ⊆+ questions) as Hsub.
  { etrans; [by eapply weekRuns_submseteq|].
    apply Permutation_submseteq, sortedWeeks_groups. }
  pose proof (weekRuns_length_count _ _ _ _ Hn Hps) as Hlen.
  pose proof (submseteq_length _ _ Hsub) as Hle.
  destruct Hsel as [[Hge ->]|[Hlt (remaining & Hrem & ->)]]; [lia|].
  rewrite length_app, length_take, Hrem.
  rewrite filter_unselected_length by done. lia.
Qed.

Lemma sampling_empty questions count level res :
  sampling questions count level res → count ≤ 0 → res = [].
Proof.
  intros [[_ ->]|(_ & Hn & ps & selected & Hps & Hsel & Hres)] Hc; [done|].
  pose proof (weekRuns_length_count _ _ _ _ Hn Hps) as Hlen.
  destruct Hsel as [[_ ->]|[Hlt _]]; [|lia].
  destruct (concat ps); [by apply Permutation_nil_r in Hres|simpl in Hlen; lia].
Qed.

Lemma sampling_coverage questions count level res week :
  sampling questions count level res →
  Z.of_nat (length (sortedWeeks questions)) ≤ count →
  week ∈ sortedWeeks questions →
  ∃ q, q ∈ res ∧ q ∈ Map_get_present (groupByWeek questions) week.
Proof.
  intros [[-> _]|(_ & Hn & ps & selected & Hps & Hsel & Hres)] Hc Hweek.
  { by apply not_elem_of_nil in Hweek. }
  pose proof Hweek as [k Hk]%list_elem_of_lookup.
  destruct (weekRuns_coverage _ _ _ _ _ _ _ k week Hps Hk) as (q & Hq & Hg).
  - by apply quota_positive.
  - apply groupByWeek_nonempty. by rewrite <-sortedWeeks_Permutation.
  - exists q. split; [|done]. rewrite Hres.
    apply backfilled_prefix in Hsel as [extra ->].
    apply elem_of_app. by left.
Qed.

Lemma sampling_abundant questions count level res :
  sampling questions count level res → abundant questions count →
  let numWeeks := length (sortedWeeks questions) in
  Z.of_nat (length res)
    = sumFrom (λ k, Z.max 0 (weekQuota (count `div` numWeeks)
                                        (count `rem` numWeeks) k))
        0 numWeeks ∧
  Z.of_nat (countDifficulty advanced res)
    = advancedTotal questions count level.
Proof.
  intros [[-> ->]|(_ & Hn & ps & selected & Hps & Hsel & Hres)] Hab numWeeks;
    [done|].
  pose proof (weekRuns_length_count _ _ _ _ Hn Hps) as Hle.
  apply weekRuns_abundant in Hps as [Hlen Hadv].
  2:{ intros k week Hk. by apply Hab. }
  unfold advancedTotal. subst numWeeks.
  set (n := length (sortedWeeks questions)) in *.
  assert (count ≤ Z.of_nat (length (concat ps))) as Hge.
  { rewrite Hlen. destruct (decide (0 ≤ count)) as [Hc|Hc].
    - rewrite (sumFrom_ext _ (weekQuota (count `div` n) (count `rem` n))).
      + by rewrite quota_sum_count.
      + intros k. pose proof (quota_nonneg count n k Hn Hc). lia.
    - rewrite sumFrom_zero; [lia|].
      intros k. pose proof (quota_nonpos count n k Hn). lia. }
  destruct Hsel as [[_ ->]|[Hlt _]]; [|lia].
  by rewrite (Permutation_length Hres), (countDifficulty_Permutation _ _ _ Hres).
Qed.

(** ** The random source is the only input beside the arguments *)

Lemma reads_ret {A} (a : A) : reads_only_consumed (ret a).
Proof. intros r1 r2 c. split; [simpl; lia|done]. Qed.

Lemma reads_random_index bound : reads_only_consumed (random_index bound).
Proof.
  intros r1 r2 c. split; [simpl; lia|].
  intros H. unfold random_index. rewrite (H c); [done|]. simpl. lia.
Qed.

Lemma reads_bind {A B} (m : Rand A) (f : A → Rand B) :
  reads_only_consumed m → (∀ a, reads_only_consumed (f a)) →
  reads_only_consumed (bind m f).
Proof.
  intros Hm Hf r1 r2 c. unfold bind.
  destruct (Hm r1 r2 c) as [Hle Heq].
  destruct (m r1 c) as [a c'] eqn:E1. simpl in *.
  destruct (Hf a r1 r2 c') as [Hle' Heq'].
  split; [lia|]. intros Hagree.
  rewrite Heq by (intros k Hk; apply Hagree; lia).
  apply Heq'. intros k Hk. apply Hagree. lia.
Qed.

Lemma reads_shuffle_loop {A} i (l : list A) :
  reads_only_consumed (shuffle_loop i l).
Proof.
  revert l. induction i as [|i IH]; intros l; simpl.
  - apply reads_ret.
  - apply reads_bind; [apply reads_random_index|]. intros j. apply IH.
Qed.

Lemma reads_shuffleArray {A} (l : list A) :
  reads_only_consumed (shuffleArray l).
Proof. apply reads_shuffle_loop. Qed.

Lemma reads_stratify wq w rt : reads_only_consumed (stratify wq w rt).
Proof.
  unfold stratify.
  repeat (apply reads_bind; [apply reads_shuffleArray|]; intros ?).
  apply reads_ret.
Qed.

Lemma reads_backfill source selected target :
  reads_only_consumed (backfill source selected target).
Proof.
  unfold backfill. case_decide; [|apply reads_ret].
  apply reads_bind; [apply reads_shuffleArray|]. intros ?. apply reads_ret.
Qed.

Lemma reads_selectWeek wq w rt : reads_only_consumed (selectWeek wq w rt).
Proof.
  apply reads_bind; [apply reads_stratify|]. intros ?. apply reads_backfill.
Qed.

Lemma reads_weeks_forEach byWeek perWeek remainder rt weeks index selected :
  reads_only_consumed
    (weeks_forEach byWeek perWeek remainder rt weeks index selected).
Proof.
  revert index selected.
  induction weeks as [|week weeks IH]; intros index selected; simpl.
  - apply reads_ret.
  - apply reads_bind; [apply reads_selectWeek|]. intros ?. apply IH.
Qed.

Lemma reads_selectRandomQuestions questions count level :
  reads_only_consumed (selectRandomQuestions questions count level).
Proof.
  unfold selectRandomQuestions. case_decide; [apply reads_ret|].
  apply reads_bind; [apply reads_weeks_forEach|]. intros ?.
  apply reads_bind; [apply reads_backfill|]. intros ?.
  apply reads_shuffleArray.
Qed.

(** ** The store model refines the sampler and keeps its inputs *)

Section wp.
Context {A B : Type}.

Lemma wp_ret (a : A) r s Q : Q a s → wp (Heap.ret a) r s Q.
Proof. done. Qed.

Lemma wp_bind (m : Heap.M A) (f : A → Heap.M B) r s Q :
  wp m r s (λ a s', wp (f a) r s' Q) → wp (Heap.bind m f) r s Q.
Proof. unfold wp, Heap.bind. by destruct (m r s). Qed.

Lemma wp_mono (m : Heap.M A) r s (Q Q' : A → Heap.State → Prop) :
  wp m r s Q → (∀ a s', Q a s' → Q' a s') → wp m r s Q'.
Proof. unfold wp. auto. Qed.
End wp.

Lemma evolves_refl X h : evolves X h h.
Proof. split; [done|auto]. Qed.

(** Two changes in a row: arrays created after [h0] may be rewritten
    freely. *)
Lemma evolves_chain X Y h0 h1 h2 :
  evolves X h0 h1 → evolves Y h1 h2 →
  (∀ a, a ∈ Y → a ∈ X ∨ (length h0 ≤ a)%nat) →
  evolves X h0 h2.
Proof.
  intros [L1 E1] [L2 E2] HY. split; [lia|]. intros a l Ha Hl.
  apply E2; [|by apply E1]. intros [?|?]%HY; [done|].
  apply lookup_lt_Some in Hl. lia.
Qed.

Lemma evolves_app h l : evolves [] h (h ++ [l]).
Proof.
  split; [rewrite length_app; lia|].
  intros a x _ Ha. by apply lookup_app_l_Some.
Qed.

Lemma evolves_insert a l h : evolves [a] h (<[a:=l]> h).
Proof.
  split; [by rewrite length_insert|].
  intros b x Hb Hx. rewrite list_lookup_insert_ne; [done|].
  intros ->. apply Hb. left.
Qed.

Lemma wp_alloc l r h c Q :
  (∀ h', evolves [] h h' → h' !! length h = Some l →
         Q (length h) (Heap.mkState h' c)) →
  wp (Heap.alloc l) r (Heap.mkState h c) Q.
Proof.
  intros HQ. apply HQ; [apply evolves_app|]. simpl.
  by rewrite lookup_app_r, Nat.sub_diag.
Qed.

Lemma wp_read a l r h c Q :
  h !! a = Some l → Q l (Heap.mkState h c) →
  wp (Heap.read a) r (Heap.mkState h c) Q.
Proof. intros Ha HQ. unfold wp, Heap.read. simpl. by rewrite Ha. Qed.

Lemma wp_Array_length a l r h c Q :
  h !! a = Some l → Q (length l) (Heap.mkState h c) →
  wp (Heap.Array_length a) r (Heap.mkState h c) Q.
Proof.
  intros Ha HQ. apply wp_bind. eapply wp_read; [done|]. by apply wp_ret.
Qed.

Lemma wp_write a l0 l r h c Q :
  h !! a = Some l0 →
  (∀ h', evolves [a] h h' → h' !! a = Some l → Q tt (Heap.mkState h' c)) →
  wp (Heap.write a l) r (Heap.mkState h c) Q.
Proof.
  intros Ha HQ. apply HQ; [apply evolves_insert|]. simpl.
  apply list_lookup_insert_eq. by eapply lookup_lt_Some.
Qed.

Lemma wp_push a l items r h c Q :
  h !! a = Some l →
  (∀ h', evolves [a] h h' → h' !! a = Some (l ++ items) →
         Q tt (Heap.mkState h' c)) →
  wp (Heap.push a items) r (Heap.mkState h c) Q.
Proof.
  intros Ha HQ. apply wp_bind. eapply wp_read; [done|].
  by eapply wp_write.
Qed.

Lemma wp_Array_filter (P : ParsedQuestion → Prop) `{!∀ q, Decision (P q)}
    a l r h c Q :
  h !! a = Some l →
  (∀ h', evolves [] h h' → h' !! length h = Some (filter P l) →
         Q (length h) (Heap.mkState h' c)) →
  wp (Heap.Array_filter P a) r (Heap.mkState h c) Q.
Proof.
  intros Ha HQ. apply wp_bind. eapply wp_read; [done|]. by apply wp_alloc.
Qed.

Lemma wp_Array_slice0 a l e r h c Q :
  h !! a = Some l →
  (∀ h', evolves [] h h' → h' !! length h = Some (slice0 l e) →
         Q (length h) (Heap.mkState h' c)) →
  wp (Heap.Array_slice0 a e) r (Heap.mkState h c) Q.
Proof.
  intros Ha HQ. apply wp_bind. eapply wp_read; [done|]. by apply wp_alloc.
Qed.

(** The loop of the shuffle rewrites the array [a] and nothing else. *)
Lemma wp_shuffle_loop i a l r h c Q :
  h !! a = Some l →
  (∀ h', evolves [a] h h' →
         h' !! a = Some (shuffle_loop i l r c).1 →
         Q tt (Heap.mkState h' (shuffle_loop i l r c).2)) →
  wp (Heap.shuffle_loop i a) r (Heap.mkState h c) Q.
Proof.
  revert l h c. induction i as [|i IH]; intros l h c Ha HQ.
  - apply wp_ret. apply HQ; [apply evolves_refl|done].
  - cbn [Heap.shuffle_loop]. apply wp_bind.
    unfold wp at 1, Heap.random_index. cbn [fst snd Heap.arrays Heap.calls].
    apply wp_bind. apply wp_bind. eapply wp_read; [done|].
    eapply wp_write; [done|]. intros h1 E1 Ha1.
    eapply IH; [done|].
    intros h2 E2 Ha2. cbn [shuffle_loop]. unfold bind.
    cbn [random_index]. apply HQ; [|done].
    eapply evolves_chain; [exact E1|exact E2|]. intros ? ?. by left.
Qed.

(** Collects what the hypotheses say about the sizes of the stores and
    about the references in use, then settles a goal about references. *)
Ltac ref_facts :=
  repeat match goal with
  | H : ?h !! ?a = Some _ |- _ =>
      lazymatch goal with
      | _ : (a < length h)%nat |- _ => fail
      | _ => pose proof (lookup_lt_Some _ _ _ H)
      end
  | E : evolves _ ?h ?h' |- _ =>
      lazymatch goal with
      | _ : (length h ≤ length h')%nat |- _ => fail
      | _ => pose proof (proj1 E)
      end
  end.

Ltac ref_lia :=
  ref_facts;
  repeat (rewrite not_elem_of_cons);
  repeat split; try apply not_elem_of_nil; lia.

(** Carries the contents of an array through the changes of the store. *)
Ltac carry :=
  lazymatch goal with
  | H : ?h !! ?a = Some ?l |- ?h !! ?a = Some ?l' => exact H
  | E : evolves ?X ?h ?h' |- ?h' !! ?a = Some ?l =>
      apply (proj2 E); [ref_lia|carry]
  end.

Ltac written_refs :=
  let a := fresh "a" in
  let Hin := fresh "Hin" in
  intros a Hin;
  rewrite ?elem_of_cons, ?elem_of_nil in Hin;
  destruct_or?; try done; subst;
  first [left; rewrite ?elem_of_cons; tauto | right; ref_lia].

(** Composes the changes recorded in the hypotheses. *)
Ltac evolve :=
  lazymatch goal with
  | |- evolves _ ?h ?h => apply evolves_refl
  | E : evolves ?Y ?h ?h' |- evolves ?X ?h0 ?h' =>
      apply (evolves_chain X Y h0 h h'); [evolve|exact E|written_refs]
  end.

Lemma wp_shuffleArray a l r h c Q :
  h !! a = Some l →
  (∀ h' b, evolves [] h h' → (length h ≤ b)%nat →
           h' !! b = Some (shuffleArray l r c).1 →
           Q b (Heap.mkState h' (shuffleArray l r c).2)) →
  wp (Heap.shuffleArray a) r (Heap.mkState h c) Q.
Proof.
  intros Ha HQ. unfold Heap.shuffleArray.
  apply wp_bind. eapply wp_read; [done|].
  apply wp_bind. apply wp_alloc. intros h1 E1 Hb.
  apply wp_bind. eapply wp_Array_length; [done|].
  apply wp_bind. eapply wp_shuffle_loop; [done|]. intros h2 E2 Hb2.
  apply wp_ret. apply HQ; [evolve|done|done].
Qed.

Lemma wp_push_slice0 selected source sl srcl e r h c Q :
  h !! selected = Some sl → h !! source = Some srcl →
  (∀ h', evolves [selected] h h' →
         h' !! selected = Some (sl ++ slice0 srcl e) →
         Q tt (Heap.mkState h' c)) →
  wp (Heap.push_slice0 selected source e) r (Heap.mkState h c) Q.
Proof.
  intros Hsel Hsrc HQ. unfold Heap.push_slice0.
  apply wp_bind. eapply wp_Array_slice0; [done|]. intros h1 E1 Hs.
  apply wp_bind. eapply wp_read; [done|].
  eapply wp_push; [carry|]. intros h2 E2 Hsel2.
  apply HQ; [evolve|done].
Qed.

Lemma wp_stratify wq wql w rt r h c Q :
  h !! wq = Some wql →
  (∀ h' ws, evolves [] h h' → (length h ≤ ws)%nat →
            h' !! ws = Some (stratify wql w rt r c).1 →
            Q ws (Heap.mkState h' (stratify wql w rt r c).2)) →
  wp (Heap.stratify wq w rt) r (Heap.mkState h c) Q.
Proof.
  intros Hwq HQ. unfold Heap.stratify.
  apply wp_bind. eapply wp_Array_filter; [done|]. intros h1 E1 Hb.
  apply wp_bind. eapply wp_Array_filter; [carry|]. intros h2 E2 Hi.
  apply wp_bind. eapply wp_Array_filter; [carry|]. intros h3 E3 Ha.
  apply wp_bind. eapply wp_Array_length; [carry|].
  apply wp_bind. eapply wp_Array_length; [carry|].
  apply wp_bind. eapply wp_Array_length; [carry|].
  apply wp_bind. apply wp_alloc. intros h4 E4 Hws.
  apply wp_bind. eapply wp_shuffleArray; [carry|]. intros h5 sb E5 Lsb Hsb.
  apply wp_bind. eapply wp_push_slice0; [carry|done|]. intros h6 E6 Hws6.
  apply wp_bind. eapply wp_shuffleArray; [carry|]. intros h7 si E7 Lsi Hsi.
  apply wp_bind. eapply wp_push_slice0; [carry|done|]. intros h8 E8 Hws8.
  apply wp_bind. eapply wp_shuffleArray; [carry|]. intros h9 sa E9 Lsa Hsa.
  apply wp_bind. eapply wp_push_slice0; [carry|done|]. intros h10 E10 Hws10.
  apply wp_ret.
  unfold stratify, bind in HQ.
  destruct (shuffleArray (filter (hasDifficulty beginner) wql) r c)
    as [lb c1]. cbn [fst snd] in *.
  destruct (shuffleArray (filter (hasDifficulty intermediate) wql)
              r c1) as [li c2]. cbn [fst snd] in *.
  destruct (shuffleArray (filter (hasDifficulty advanced) wql)
              r c2) as [la c3]. cbn [fst snd] in *.
  apply HQ; [evolve|ref_lia|exact Hws10].
Qed.

Lemma wp_backfill source selected srcl sl target r h c Q :
  h !! source = Some srcl → h !! selected = Some sl →
  (∀ h', evolves [selected] h h' →
         h' !! selected = Some (backfill srcl sl target r c).1 →
         Q tt (Heap.mkState h' (backfill srcl sl target r c).2)) →
  wp (Heap.backfill source selected target) r (Heap.mkState h c) Q.
Proof.
  intros Hsrc Hsel HQ. unfold Heap.backfill.
  unfold backfill, bind in HQ.
  apply wp_bind. eapply wp_Array_length; [done|].
  case_decide as Hlt.
  - apply wp_bind. eapply wp_read; [done|].
    apply wp_bind. eapply wp_Array_filter; [done|]. intros h1 E1 Hcand.
    apply wp_bind. eapply wp_shuffleArray; [done|]. intros h2 rem E2 Lrem Hrem.
    apply wp_bind. eapply wp_Array_length; [carry|].
    eapply wp_push_slice0; [carry|done|]. intros h3 E3 Hsel3.
    destruct (shuffleArray
                (filter (λ q, id q ∉ idSet sl) srcl) r c) as [lrem c1].
    cbn [fst snd] in *. apply HQ; [evolve|done].
  - apply wp_ret. apply HQ; [evolve|done].
Qed.

Lemma wp_selectWeek wq wql w rt r h c Q :
  h !! wq = Some wql →
  (∀ h' ws, evolves [] h h' → (length h ≤ ws)%nat →
            h' !! ws = Some (selectWeek wql w rt r c).1 →
            Q ws (Heap.mkState h' (selectWeek wql w rt r c).2)) →
  wp (Heap.selectWeek wq w rt) r (Heap.mkState h c) Q.
Proof.
  intros Hwq HQ. unfold Heap.selectWeek.
  unfold selectWeek, bind in HQ.
  apply wp_bind. eapply wp_stratify; [done|]. intros h1 ws E1 Lws Hws.
  destruct (stratify wql w rt r c) as [s c1]. cbn [fst snd] in *.
  apply wp_bind. eapply wp_backfill; [carry|done|]. intros h2 E2 Hws2.
  apply wp_ret. apply HQ; [evolve|done|done].
Qed.

Lemma entries_evolves n0 X h h' byWeek mp :
  entries n0 h byWeek mp → evolves X h h' →
  (∀ a, a ∈ byWeek.*2 → a ∉ X) →
  entries n0 h' byWeek mp.
Proof.
  intros H [_ E]. unfold entries in *.
  induction H as [|[k1 a] [k2 l] m m' (Hk & Hn & Ha) _ IH]; intros HX;
    [constructor|].
  constructor.
  - split; [done|]. split; [done|]. simpl in *. apply E; [|done].
    apply HX. left.
  - apply IH. intros b Hb. apply HX. by right.
Qed.

Lemma represents_keys n0 h byWeek mp :
  represents n0 h byWeek mp → byWeek.*1 = mp.*1.
Proof.
  intros [_ H]. induction H as [|[k a] [k' l] m m' (? & _) _ IH]; [done|].
  simpl in *. by f_equal.
Qed.

Lemma represents_get n0 h byWeek mp k :
  represents n0 h byWeek mp →
  match Map_get byWeek k with
  | Some a => ∃ l, Map_get mp k = Some l ∧ h !! a = Some l ∧ (n0 ≤ a)%nat
  | None => Map_get mp k = None
  end.
Proof.
  intros [_ H].
  induction H as [|[k1 a] [k2 l] m m' (Hk & Hn & Ha) _ IH]; [done|].
  simpl in *. subst k2. case_decide; [|done]. by exists l.
Qed.

Lemma represents_evolves n0 X h h' byWeek mp :
  represents n0 h byWeek mp → evolves X h h' →
  (∀ a, a ∈ byWeek.*2 → a ∉ X) →
  represents n0 h' byWeek mp.
Proof. intros [Hnd H] E HX. split; [done|]. by eapply entries_evolves. Qed.

Lemma Map_get_elem_of {V} (m : list (Z * V)) k v :
  Map_get m k = Some v → v ∈ m.*2.
Proof.
  induction m as [|[k' v'] m IH]; [done|]. simpl.
  case_decide; [intros [= ->]; left|right; auto].
Qed.

Lemma Map_set_absent {V} (m : list (Z * V)) k v :
  k ∉ m.*1 → Map_set m k v = m ++ [(k, v)].
Proof.
  induction m as [|[k' v'] m IH]; [done|]. simpl.
  rewrite not_elem_of_cons. intros [Hne Hk].
  rewrite decide_False by done. by rewrite IH.
Qed.

(** A new, so far unused, array becomes the group of a new key. *)
Lemma represents_new n0 h h' byWeek mp k g v :
  represents n0 h byWeek mp → k ∉ byWeek.*1 →
  evolves [] h h' → h' !! g = Some v →
  (length h ≤ g)%nat → (n0 ≤ g)%nat →
  represents n0 h' (Map_set byWeek k g) (Map_set mp k v).
Proof.
  intros Hrep Hk E Hg Lg Ln.
  pose proof (represents_keys _ _ _ _ Hrep) as Hkeys.
  rewrite !Map_set_absent by (by rewrite <-?Hkeys).
  assert (g ∉ byWeek.*2) as Hfresh.
  { destruct Hrep as [_ H]. clear Hk Hkeys.
    induction H as [|[k1 a] [k2 l] m m' (_ & _ & Ha) _ IH];
      [apply not_elem_of_nil|].
    simpl in *. apply lookup_lt_Some in Ha.
    rewrite not_elem_of_cons. split; [lia|done]. }
  destruct (represents_evolves n0 [] h h' byWeek mp Hrep E) as [Hnd H].
  { intros a _. apply not_elem_of_nil. }
  split.
  - rewrite fmap_app. apply NoDup_app. split; [done|].
    split; [|apply NoDup_singleton].
    intros a Ha ->%list_elem_of_singleton. done.
  - apply Forall2_app; [done|]. by repeat constructor.
Qed.

(** The array of a key is rewritten. *)
Lemma represents_push n0 h h' byWeek mp k a v :
  represents n0 h byWeek mp → Map_get byWeek k = Some a →
  evolves [a] h h' → h' !! a = Some v →
  represents n0 h' byWeek (Map_set mp k v).
Proof.
  intros [Hnd H] Hget E Ha. split; [done|]. unfold entries in *.
  induction H as [|[k1 a1] [k2 l] m m' (Hk & Hn & Ha1) Hrest IH];
    [done|].
  simpl in *. subst k2. apply NoDup_cons in Hnd as [Hnin Hnd].
  case_decide as Hk.
  - injection Hget as ->. subst k1. constructor; [done|].
    apply (entries_evolves n0 [a] h h'); [done..|].
    intros b Hb ->%list_elem_of_singleton. done.
  - constructor; [|by apply IH].
    split; [done|]. split; [done|]. simpl. apply (proj2 E); [|done].
    rewrite not_elem_of_cons. split; [|apply not_elem_of_nil].
    intros ->. apply Hnin. by eapply Map_get_elem_of.
Qed.

Lemma wp_weeks_forEach n0 byWeek mp perWeek remainder rt weeks index
    selected sl r h c Q :
  represents n0 h byWeek mp → h !! selected = Some sl →
  selected ∉ byWeek.*2 → (∀ week, week ∈ weeks → week ∈ byWeek.*1) →
  (∀ h', evolves [selected] h h' →
         h' !! selected =
           Some (weeks_forEach mp perWeek remainder rt weeks
                   index sl r c).1 →
         Q tt (Heap.mkState h'
                 (weeks_forEach mp perWeek remainder rt weeks
                    index sl r c).2)) →
  wp (Heap.weeks_forEach byWeek perWeek remainder rt weeks index selected)
     r (Heap.mkState h c) Q.
Proof.
  revert index sl h c Q.
  induction weeks as [|week weeks IH]; intros index sl h c Q Hrep Hsel Hnin
    Hweeks HQ.
  - apply wp_ret. apply HQ; [evolve|done].
  - cbn [Heap.weeks_forEach]. cbn [weeks_forEach] in HQ.
    unfold bind in HQ.
    pose proof (represents_get _ _ _ _ week Hrep) as Hget.
    destruct (Map_get byWeek week) as [wq|] eqn:Ewq.
    2:{ apply Map_get_None in Ewq. destruct Ewq. apply Hweeks. left. }
    destruct Hget as (wql & Hmp & Hwq & _).
    unfold Map_get_present in HQ. rewrite Hmp in HQ.
    cbn [default from_option Datatypes.id] in HQ.
    apply wp_bind. apply wp_bind.
    eapply wp_selectWeek; [done|]. intros h1 ws E1 Lws Hws.
    destruct (selectWeek wql (weekQuota perWeek remainder index)
                rt r c) as [items c1]. cbn [fst snd] in *.
    apply wp_bind. eapply wp_read; [done|].
    eapply wp_push; [carry|]. intros h2 E2 Hsel2.
    eapply IH; [|done|done|by (intros; apply Hweeks; right)|].
    + eapply represents_evolves; [|exact E2|].
      * eapply represents_evolves; [done|exact E1|].
        intros a _. apply not_elem_of_nil.
      * intros a Ha ->%list_elem_of_singleton. done.
    + intros h3 E3 Hsel3. apply HQ; [evolve|done].
Qed.

Lemma wp_byWeek_add h0 byWeek mp q r h c Q :
  evolves [] h0 h → represents (length h0) h byWeek mp →
  (∀ h' byWeek',
     evolves [] h0 h' →
     represents (length h0) h' byWeek' (byWeek_add mp q) →
     Q byWeek' (Heap.mkState h' c)) →
  wp (Heap.byWeek_add byWeek q) r (Heap.mkState h c) Q.
Proof.
  intros E0 Hrep HQ. unfold Heap.byWeek_add.
  unfold byWeek_add, Map_push in HQ.
  pose proof (represents_keys _ _ _ _ Hrep) as Hkeys.
  unfold Map_has in *. rewrite <-Hkeys in HQ.
  apply wp_bind. case_bool_decide as Hin.
  - apply wp_ret. apply wp_bind.
    pose proof (represents_get _ _ _ _ (weekNum q) Hrep) as Hget.
    destruct (Map_get byWeek (weekNum q)) as [group|] eqn:Eg.
    2:{ by apply Map_get_None in Eg. }
    destruct Hget as (l & Hmp & Hgroup & Ln). rewrite Hmp in HQ.
    eapply wp_push; [done|]. intros h1 E1 Hg1.
    apply wp_ret. apply HQ; [evolve|].
    by eapply represents_push.
  - apply wp_bind. apply wp_alloc. intros h1 E1 Hg1.
    apply wp_ret. apply wp_bind.
    rewrite Map_get_set, decide_True by done.
    rewrite Map_get_set, decide_True in HQ by done.
    eapply wp_push; [done|]. intros h2 E2 Hg2.
    apply wp_ret. apply HQ; [evolve|].
    eapply represents_push; [|by rewrite Map_get_set, decide_True|done..].
    eapply represents_new; [done..| |]; ref_lia.
Qed.

Lemma wp_group_forEach h0 questions pool n index byWeek mp r h c Q :
  h0 !! questions = Some pool →
  evolves [] h0 h → represents (length h0) h byWeek mp →
  (∀ h' byWeek',
     evolves [] h0 h' →
     represents (length h0) h' byWeek'
       (foldl byWeek_add mp (take n (drop index pool))) →
     Q byWeek' (Heap.mkState h' c)) →
  wp (Heap.group_forEach questions n index byWeek) r (Heap.mkState h c) Q.
Proof.
  intros Hq. revert index byWeek mp h Q.
  induction n as [|n IH]; intros index byWeek mp h Q E0 Hrep HQ.
  - apply wp_ret. by apply HQ.
  - cbn [Heap.group_forEach]. apply wp_bind. eapply wp_read; [carry|].
    apply wp_bind. destruct (pool !! index) as [q|] eqn:Eq.
    + eapply wp_byWeek_add; [done..|]. intros h1 byWeek1 E1 Hrep1.
      eapply IH; [done..|]. intros h2 byWeek2 E2 Hrep2.
      apply HQ; [done|].
      by rewrite (drop_S _ _ _ Eq).
    + apply wp_ret. eapply IH; [done..|]. intros h2 byWeek2 E2 Hrep2.
      apply HQ; [done|].
      apply lookup_ge_None in Eq.
      rewrite drop_ge in Hrep2 by lia. rewrite drop_ge by lia.
      by rewrite take_nil in *.
Qed.

Lemma wp_selectRandomQuestions questions pool count level r h c Q :
  h !! questions = Some pool →
  (∀ h' res,
     evolves [] h h' → (length h ≤ res)%nat →
     h' !! res =
       Some (selectRandomQuestions pool count level r c).1 →
     Q res (Heap.mkState h'
              (selectRandomQuestions pool count level r c).2)) →
  wp (Heap.selectRandomQuestions questions count level) r (Heap.mkState h c) Q.
Proof.
  intros Hq HQ. unfold Heap.selectRandomQuestions.
  unfold selectRandomQuestions, sortedWeeks, bind in HQ.
  apply wp_bind. eapply wp_Array_length; [done|].
  apply wp_bind.
  eapply (wp_group_forEach h _ pool _ _ [] []);
    [done|evolve|by split; constructor|].
  intros h1 byWeek E1 Hrep. rewrite drop_0, firstn_all in Hrep.
  fold (groupByWeek pool) in Hrep.
  pose proof (represents_keys _ _ _ _ Hrep) as Hkeys. rewrite Hkeys.
  case_decide as Hn.
  - apply wp_alloc. intros h2 E2 Hres. apply HQ; [evolve|ref_lia|done].
  - apply wp_bind. apply wp_alloc. intros h2 E2 Hsel.
    apply wp_bind. eapply wp_weeks_forEach.
    + eapply represents_evolves; [done|exact E2|].
      intros a _. apply not_elem_of_nil.
    + done.
    + destruct Hrep as [_ H]. clear -H.
      induction H as [|[k1 a] [k2 l] m m' (_ & _ & Ha) _ IH];
        [apply not_elem_of_nil|].
      simpl in *. apply lookup_lt_Some in Ha.
      rewrite not_elem_of_cons. split; [lia|done].
    + intros week. rewrite Array_sort_Permutation. by rewrite Hkeys.
    + intros h3 E3 Hsel3.
      destruct (weeks_forEach _ _ _ _ _ _ _ r c) as [sel c1].
      cbn [fst snd] in *.
      apply wp_bind. eapply wp_backfill; [carry|done|]. intros h4 E4 Hsel4.
      destruct (backfill pool sel count r c1) as [sel' c2].
      cbn [fst snd] in *.
      eapply wp_shuffleArray; [done|]. intros h5 res E5 Lres Hres.
      apply HQ; [evolve|ref_lia|done].
Qed.

(** ** The store: what an action changes *)

Ltac unfold_actions :=
  unfold perform, setInterviewerNotes, markDidNotGetTo, setLLMResult,
    validateScore, completeQuestion, updateAssessment, toggleKeyword,
    toggleSoftSkill, setCurrentQuestionIndex, nextQuestion, previousQuestion,
    finishInterview, completeReview, setOverallScores, setOverallFeedback,
    set_assessment in *.

Lemma set_session_same st s : session st = s → set_session s st = st.
Proof. intros <-. by destruct st. Qed.

Lemma with_assessments_same s m :
  InterviewSession.assessments s = m → with_assessments m s = s.
Proof. intros <-. by destruct s. Qed.

Lemma getAssessment_set_assessment k questionId a s st :
  getAssessment k (set_assessment questionId a s st)
  = if decide (k = questionId) then Some a
    else InterviewSession.assessments s !! k.
Proof.
  unfold getAssessment, set_assessment. simpl.
  case_decide as Hk; [subst; apply lookup_insert_eq|].
  by apply lookup_insert_ne.
Qed.

Lemma getAllQuestions_set_session s s' st :
  session st = Some s →
  InterviewSession.starterQuestions s' = InterviewSession.starterQuestions s →
  InterviewSession.questions s' = InterviewSession.questions s →
  getAllQuestions (set_session (Some s') st) = getAllQuestions st.
Proof. unfold getAllQuestions. simpl. by intros -> -> ->. Qed.

(** Without a session an action does nothing; with one it keeps the
    questions and the ids that have an assessment. *)
Lemma perform_frame a st :
  match session st with
  | None => perform a st = st
  | Some s =>
      ∃ s', session (perform a st) = Some s' ∧
        InterviewSession.starterQuestions s'
          = InterviewSession.starterQuestions s ∧
        InterviewSession.questions s' = InterviewSession.questions s ∧
        ∀ k, is_Some (InterviewSession.assessments s' !! k)
             ↔ is_Some (InterviewSession.assessments s !! k)
  end.
Proof.
  destruct (session st) as [s|] eqn:Hs.
  - destruct a as [index| | |questionId updates|questionId keyword
      |questionId skill|questionId notes|questionId value
      |questionId score feedback|questionId score feedback|questionId| |
      |technicalScore softSkillScore|technicalFeedback softSkillFeedback]; unfold_actions; rewrite Hs;
      try (destruct (InterviewSession.assessments s !! questionId)
             as [assessment|] eqn:Ha);
      try (destruct (includes _ _));
      simpl; try (by eauto);
      (eexists; split; [reflexivity|]; simpl; split_and!; try done;
       intros key; destruct (decide (key = questionId)) as [->|Hkey];
       [rewrite lookup_insert_eq, Ha; split; eauto
       |by rewrite lookup_insert_ne]).
  - destruct a as [index| | |questionId updates|questionId keyword
      |questionId skill|questionId notes|questionId value
      |questionId score feedback|questionId score feedback|questionId| |
      |technicalScore softSkillScore|technicalFeedback softSkillFeedback]; unfold_actions; by rewrite Hs.
Qed.

Lemma perform_getAllQuestions a st :
  getAllQuestions (perform a st) = getAllQuestions st.
Proof.
  pose proof (perform_frame a st) as H. unfold getAllQuestions at 2.
  destruct (session st) as [s|] eqn:Hs.
  - destruct H as (s' & Hs' & Hst & Hq & _).
    unfold getAllQuestions. by rewrite Hs', Hst, Hq.
  - rewrite H. unfold getAllQuestions. by rewrite Hs.
Qed.


Lemma performAll_snoc actions a st :
  performAll (actions ++ [a]) st = perform a (performAll actions st).
Proof. unfold performAll. by rewrite foldl_app. Qed.

Lemma performAll_getAllQuestions actions st :
  getAllQuestions (performAll actions st) = getAllQuestions st.
Proof.
  revert st. induction actions as [|a actions IH]; intros st; [done|].
  simpl. by rewrite IH, perform_getAllQuestions.
Qed.


(** ** The store: a new session *)

Lemma foldl_insert_lookup_ne {X V} (f : X → string) (g : X → V) l
    (m : gmap string V) k :
  k ∉ f <$> l → foldl (λ m x, <[f x := g x]> m) m l !! k = m !! k.
Proof.
  revert m. induction l as [|x l IH]; intros m Hk; [done|].
  rewrite fmap_cons, not_elem_of_cons in Hk. destruct Hk as [Hx Hk].
  simpl. rewrite IH by done. by apply lookup_insert_ne.
Qed.

Lemma foldl_insert_lookup {X V} (f : X → string) (g : X → V) l
    (m : gmap string V) x :
  NoDup (f <$> l) → x ∈ l →
  foldl (λ m x, <[f x := g x]> m) m l !! f x = Some (g x).
Proof.
  revert m. induction l as [|y l IH]; intros m Hnd Hx.
  { by apply not_elem_of_nil in Hx. }
  rewrite fmap_cons in Hnd. apply NoDup_cons in Hnd as [Hy Hnd].
  apply elem_of_cons in Hx as [->|Hx]; simpl; [|by apply IH].
  rewrite foldl_insert_lookup_ne by done. apply lookup_insert_eq.
Qed.



(** The session that [createSession] stores. *)
Lemma createSession_session clock questions questionCount selectedWeeks
    candidateName interviewerName level st r c :
  ∃ s selected starters,
    session (createSession clock questions questionCount selectedWeeks
               candidateName interviewerName level st r c).1 = Some s ∧
    selected
      = (selectRandomQuestions questions questionCount (default entry level)
           r c).1 ∧
    StarterQuestion.id <$> starters = ["starter-1"; "starter-2"] ∧
    InterviewSession.starterQuestions s = starters ∧
    InterviewSession.questions s = selected ∧
    InterviewSession.currentQuestionIndex s = 0 ∧
    InterviewSession.assessments s
      = foldl (λ m q, <[id q := initialAssessment (id q) (keywords q)]> m)
          (foldl (λ m sq, <[StarterQuestion.id sq :=
                              initialAssessment (StarterQuestion.id sq) []]> m)
             ∅ starters)
          selected.
Proof.
  unfold createSession, bind, ret.
  destruct (selectRandomQuestions _ _ _ r c) as [selected c1].
  destruct (generateStarterQuestions r c1) as [starters c2] eqn:Hst.
  destruct (generateSessionId clock r c2) as [sid c3].
  eexists _, selected, starters. simpl. split_and!; try done.
  unfold generateStarterQuestions, bind, ret, pickVariation, random_index in Hst.
  simpl in Hst. by injection Hst as <- _.
Qed.

Lemma createSession_getAllQuestions clock questions questionCount selectedWeeks
    candidateName interviewerName level st r c :
  let st' := (createSession clock questions questionCount selectedWeeks
                candidateName interviewerName level st r c).1 in
  ∃ sq1 sq2,
    StarterQuestion.id sq1 = "starter-1" ∧ StarterQuestion.id sq2 = "starter-2" ∧
    getAllQuestions st'
    = inl sq1 :: inl sq2 ::
      (inr <$> (selectRandomQuestions questions questionCount
                  (default entry level) r c).1).
Proof.
  intros st'.
  destruct (createSession_session clock questions questionCount selectedWeeks
              candidateName interviewerName level st r c)
    as (s & selected & starters & Hs & -> & Hids & Hst & Hq & _).
  destruct starters as [|sq1 [|sq2 [|sq3 starters]]]; try done.
  injection Hids as H1 H2. exists sq1, sq2. split_and!; try done.
  subst st'. unfold getAllQuestions. by rewrite Hs, Hst, Hq.
Qed.

Lemma createSession_initial_assessment clock questions questionCount
    selectedWeeks candidateName interviewerName level st r c q :
  NoDup (id <$> questions) →
  q ∈ (selectRandomQuestions questions questionCount (default entry level)
         r c).1 →
  getAssessment (id q)
    (createSession clock questions questionCount selectedWeeks candidateName
       interviewerName level st r c).1
  = Some (initialAssessment (id q) (keywords q)).
Proof.
  intros Hnd Hq.
  destruct (createSession_session clock questions questionCount selectedWeeks
              candidateName interviewerName level st r c)
    as (s & selected & starters & Hs & Hsel & Hids & Hst & Hqs & Hi & Ha).
  unfold getAssessment. rewrite Hs, Ha. rewrite <-Hsel in Hq.
  apply (foldl_insert_lookup id (λ q, initialAssessment (id q) (keywords q)));
    [|done].
  pose proof (selectRandomQuestions_sampling questions questionCount
                (default entry level) r c) as Hsam.
  rewrite <-Hsel in Hsam. apply sampling_submseteq in Hsam.
  eapply submseteq_NoDup; [|exact Hnd]. by apply fmap_submseteq.
Qed.

(** ** The store: keywords *)

Lemma NoDup_filter_ne (l : list string) x :
  NoDup l → x ∈ l → l ≡ₚ x :: filter (λ y, y ≠ x) l.
Proof.
  induction 1 as [|y l Hy Hnd IH]; intros Hx.
  { by apply not_elem_of_nil in Hx. }
  apply elem_of_cons in Hx as [->|Hx].
  - rewrite filter_cons_False by (by intros ?). f_equiv.
    symmetry. rewrite filter_all; [done|].
    apply Forall_forall. intros z Hz ->. done.
  - rewrite filter_cons_True by (by intros ->).
    rewrite IH at 1 by done. apply Permutation_swap.
Qed.

Lemma filter_ne_absent (l : list string) x :
  x ∉ l → filter (λ y, y ≠ x) l = l.
Proof.
  intros Hx. apply filter_all, Forall_forall. by intros y Hy ->.
Qed.

Lemma toggle_hit_Permutation (hit missed kws : list string) keyword :
  NoDup kws → hit ++ missed ≡ₚ kws → keyword ∈ hit →
  filter (λ k, k ≠ keyword) hit ++ (missed ++ [keyword]) ≡ₚ kws.
Proof.
  intros Hnd Hperm Hin. rewrite <-Hperm in Hnd |- *.
  apply NoDup_app in Hnd as (Hhit & _ & _).
  rewrite (NoDup_filter_ne hit keyword) at 2 by done.
  rewrite (Permutation_app_comm missed), (assoc_L (++)).
  rewrite <-Permutation_middle. simpl. by rewrite app_nil_r.
Qed.

Lemma toggle_missed_Permutation (hit missed kws : list string) keyword :
  NoDup kws → hit ++ missed ≡ₚ kws → keyword ∈ kws → keyword ∉ hit →
  (hit ++ [keyword]) ++ filter (λ k, k ≠ keyword) missed ≡ₚ kws.
Proof.
  intros Hnd Hperm Hin Hhit. rewrite <-Hperm in Hnd, Hin |- *.
  apply NoDup_app in Hnd as (_ & _ & Hmissed).
  apply elem_of_app in Hin as [?|Hin]; [done|].
  rewrite (NoDup_filter_ne missed keyword) at 2 by done.
  rewrite <-(assoc_L (++)). simpl. done.
Qed.

(** An action about one question leaves the assessments of the others as
    they are. *)
Lemma perform_other_assessment a st k :
  addressed a ≠ Some k → getAssessment k (perform a st) = getAssessment k st.
Proof.
  intros Hk. unfold getAssessment at 2.
  destruct (session st) as [s|] eqn:Hs.
  - destruct a as [index| | |questionId updates|questionId keyword
      |questionId skill|questionId notes|questionId value
      |questionId score feedback|questionId score feedback|questionId| |
      |technicalScore softSkillScore|technicalFeedback softSkillFeedback]; unfold_actions; unfold getAssessment; rewrite Hs;
      try (destruct (InterviewSession.assessments s !! questionId)
             as [assessment|] eqn:Ha);
      try (destruct (includes _ _));
      simpl; rewrite ?Hs; try done;
      (rewrite lookup_insert_ne; [done|]; intros ->; by apply Hk).
  - pose proof (perform_frame a st) as H. rewrite Hs in H. rewrite H.
    unfold getAssessment. by rewrite Hs.
Qed.

Lemma perform_keywordsAccounted qs a st q :
  NoDup (keywords q) → togglesOwnKeywords qs a → q ∈ qs →
  keywordsAccounted q st → keywordsAccounted q (perform a st).
Proof.
  intros Hnd Ha Hq (asm & Hget & Hperm).
  destruct (decide (addressed a = Some (id q))) as [Heq|Hne].
  2:{ exists asm. by rewrite perform_other_assessment. }
  unfold keywordsAccounted. unfold getAssessment in Hget |- *.
  destruct (session st) as [s|] eqn:Hs; [|done].
  destruct a as [index| | |questionId updates|questionId keyword
      |questionId skill|questionId notes|questionId value
      |questionId score feedback|questionId score feedback|questionId| |
      |technicalScore softSkillScore|technicalFeedback softSkillFeedback]; simplify_eq/=; unfold_actions; rewrite Hs, Hget; simpl.
  - rewrite lookup_insert_eq. eexists. split; [done|]. simpl.
    destruct Ha as [-> ->]. done.
  - unfold includes. case_bool_decide as Hhit; simpl;
      rewrite lookup_insert_eq; eexists; (split; [done|]); simpl.
    + by apply toggle_hit_Permutation.
    + apply toggle_missed_Permutation; auto.
  - rewrite lookup_insert_eq. by eexists.
  - rewrite lookup_insert_eq. by eexists.
  - rewrite lookup_insert_eq. by eexists.
  - rewrite lookup_insert_eq. by eexists.
  - rewrite lookup_insert_eq. by eexists.
  - rewrite lookup_insert_eq. by eexists.
Qed.

(** ** The store: navigation *)

Lemma perform_index_in_range a st s :
  session st = Some s →
  0 ≤ InterviewSession.currentQuestionIndex s < length (getAllQuestions st) →
  jumpsInside (length (getAllQuestions st)) a →
  ∃ s', session (perform a st) = Some s' ∧
    0 ≤ InterviewSession.currentQuestionIndex s'
      < length (getAllQuestions st).
Proof.
  intros Hs Hi Ha.
  destruct a as [index| | |questionId updates|questionId keyword
      |questionId skill|questionId notes|questionId value
      |questionId score feedback|questionId score feedback|questionId| |
      |technicalScore softSkillScore|technicalFeedback softSkillFeedback]; unfold_actions; rewrite Hs;
    try (destruct (InterviewSession.assessments s !! questionId)
           as [assessment|] eqn:Hlookup);
    try (destruct (includes _ _));
    simpl; eexists; (split; [done|]); simpl; try done; lia.
Qed.

(** ** The parser: the ids of the questions *)

Lemma pretty_N_char_digit x : isDigit (pretty_N_char x) = true.
Proof. unfold pretty_N_char. by repeat case_match. Qed.

Lemma pretty_N_go_digits x s :
  allChars isDigit s = true → allChars isDigit (pretty_N_go x s) = true.
Proof.
  revert s. induction (N.lt_wf_0 x) as [x _ IH]; intros s Hs.
  destruct (decide (x = 0)%N) as [->|Hx]; [by rewrite pretty_N_go_0|].
  rewrite pretty_N_go_step by lia. apply IH.
  - apply N.div_lt; lia.
  - simpl. by rewrite pretty_N_char_digit.
Qed.

Lemma ToString_digits (n : Z) : 0 ≤ n → allChars isDigit (ToString n) = true.
Proof.
  intros Hn. destruct n as [|p|p]; [done| |lia].
  unfold ToString, pretty, pretty_Z, pretty, pretty_positive, pretty, pretty_N.
  rewrite decide_False by done. by apply pretty_N_go_digits.
Qed.

(** A numeral followed by a dash ends at the dash. *)
Lemma digits_dash_inj d1 d2 s1 s2 :
  allChars isDigit d1 = true → allChars isDigit d2 = true →
  d1 +:+ String "-" s1 = d2 +:+ String "-" s2 → d1 = d2 ∧ s1 = s2.
Proof.
  revert d2. induction d1 as [|a d1 IH]; intros [|b d2] H1 H2 Heq;
    simpl in *.
  - by injection Heq as ->.
  - injection Heq as <- _. done.
  - injection Heq as -> _. done.
  - apply andb_prop in H1 as [_ H1]. apply andb_prop in H2 as [_ H2].
    injection Heq as -> Heq. apply IH in Heq as [-> ->]; done.
Qed.

Lemma questionIdOf_inj w1 w2 n1 n2 :
  0 ≤ w1 → 0 ≤ w2 → questionIdOf w1 n1 = questionIdOf w2 n2 →
  w1 = w2 ∧ n1 = n2.
Proof.
  intros Hw1 Hw2 Heq. unfold questionIdOf in Heq.
  apply (inj (String.app "week")) in Heq.
  change ("-q" +:+ ?s) with (String "-" (String "q" s)) in Heq.
  apply digits_dash_inj in Heq as [Hw Hn]; [|by apply ToString_digits..].
  injection Hn as Hn. split; by eapply (inj pretty).
Qed.

Lemma parseInt_from_nonneg s value : 0 ≤ value → 0 ≤ parseInt_from value s.
Proof.
  revert value. induction s as [|a s IH]; intros value Hv; simpl; [done|].
  destruct (Ascii.is_nat a) as [d|]; [|done]. apply IH. lia.
Qed.

(** What the loop body puts into a question beside the texts. *)
Lemma parseBlock_Some block week currentDifficulty q :
  parseBlock block week currentDifficulty = Some q →
  id q = questionIdOf week (questionNumber q) ∧
  week = default 0 (weekNumber q) ∧
  weekNumber q = Some week ∧
  difficulty q = currentDifficulty ∧ 0 ≤ questionNumber q.
Proof.
  unfold parseBlock.
  destruct (String_match block re_questionHeader) as [m|]; [|done].
  intros [= <-]. simpl. split_and!; try done.
  by apply parseInt_from_nonneg.
Qed.

Lemma parseBlocks_Forall (P : ParsedQuestion → Prop) blocks weekNumber
    currentDifficulty questions :
  (∀ block d q, parseBlock block weekNumber d = Some q → P q) →
  Forall P questions →
  Forall P (parseBlocks blocks weekNumber currentDifficulty questions).
Proof.
  intros HP. revert currentDifficulty questions.
  induction blocks as [|block blocks IH]; intros d questions Hq; [done|].
  simpl. destruct (parseBlock _ _ _) as [q|] eqn:Hb; apply IH; [|done].
  apply Forall_app. split; [done|]. apply Forall_singleton. by eapply HP.
Qed.

Lemma parseInterviewQuestions_Forall (P : ParsedQuestion → Prop) content
    weekNumber :
  (∀ block d q, parseBlock block weekNumber d = Some q → P q) →
  Forall P (parseInterviewQuestions content weekNumber).
Proof. intros HP. by apply parseBlocks_Forall. Qed.

Lemma parsed_id content weekNumber q :
  q ∈ parseInterviewQuestions content weekNumber →
  id q = questionIdOf weekNumber (questionNumber q).
Proof.
  revert q. apply Forall_forall, parseInterviewQuestions_Forall.
  intros block d q Hq. by apply parseBlock_Some in Hq as (? & _).
Qed.

Lemma NoDup_fmap_questionIdOf w (l : list ParsedQuestion) :
  0 ≤ w → (∀ q, q ∈ l → id q = questionIdOf w (questionNumber q)) →
  NoDup (id <$> l) ↔ NoDup (questionNumber <$> l).
Proof.
  intros Hw Hid.
  assert (id <$> l = questionIdOf w <$> (questionNumber <$> l)) as ->.
  { rewrite <-list_fmap_compose. apply list_fmap_ext.
    intros i q Hq. apply Hid. by eapply list_elem_of_lookup_2. }
  split; [apply NoDup_fmap_1|].
  apply NoDup_fmap_2. intros n1 n2 Heq.
  by apply questionIdOf_inj in Heq as [_ ?].
Qed.

Lemma loadSelectedQuestions_concat contents :
  loadSelectedQuestions contents
  = concat (imap (λ index content,
                    parseInterviewQuestions content (index + 1)%nat)
                 contents).
Proof.
  unfold loadSelectedQuestions.
  generalize (imap (λ (index : nat) content,
                      parseInterviewQuestions content (index + 1)%nat)
                   contents).
  intros ls. change (concat ls) with ([] ++ concat ls).
  generalize (@nil ParsedQuestion). induction ls as [|l ls IH]; intros acc.
  - by rewrite app_nil_r.
  - simpl. by rewrite IH, (assoc_L (++)).
Qed.

Lemma elem_of_concat {A} (x : A) (ls : list (list A)) :
  x ∈ concat ls ↔ ∃ l, x ∈ l ∧ l ∈ ls.
Proof.
  induction ls as [|l ls IH]; simpl.
  - split; [by intros ?%not_elem_of_nil|].
    by intros (l & _ & ?%not_elem_of_nil).
  - rewrite elem_of_app, IH. split.
    + intros [Hx|(l' & Hx & Hl')]; [exists l|exists l'];
        (split; [done|]); [left|by right].
    + intros (l' & Hx & [->|Hl']%elem_of_cons); eauto.
Qed.

(** The ids of the questions loaded from the banks at the positions from
    [k] on. *)
Lemma loaded_ids_from (k : nat) contents :
  NoDup (id <$> concat (imap (λ index content,
                               parseInterviewQuestions content
                                 ((k + index)%nat + 1)%nat)
                            contents))
  ↔ ∀ index content, contents !! index = Some content →
      NoDup (questionNumber
               <$> parseInterviewQuestions content ((k + index)%nat + 1)%nat).
Proof.
  revert k. induction contents as [|content contents IH]; intros k.
  { split; [by intros _ ? ? ?|intros _; constructor]. }
  rewrite imap_cons. cbn [concat]. rewrite fmap_app, NoDup_app.
  rewrite (imap_ext _ (λ index content,
             parseInterviewQuestions content ((S k + index)%nat + 1)%nat)).
  2:{ intros i c _. simpl. do 2 f_equal. lia. }
  rewrite IH.
  rewrite (NoDup_fmap_questionIdOf ((k + 0)%nat + 1)%nat) by
    (try lia; intros q; apply parsed_id).
  split.
  - intros (H0 & _ & Hrest) [|index] c Hc.
    + by injection Hc as <-.
    + replace (k + S index)%nat with (S k + index)%nat by lia.
      by apply Hrest.
  - intros H. split_and!.
    + by apply (H 0%nat).
    + intros i (q & -> & Hq)%list_elem_of_fmap
        (q' & Heq & Hq')%list_elem_of_fmap.
      apply elem_of_concat in Hq' as (l & Hq' & Hl).
      apply list_elem_of_lookup in Hl as [j Hl].
      rewrite list_lookup_imap in Hl.
      destruct (contents !! j) as [c|]; [|done]. injection Hl as <-.
      apply parsed_id in Hq, Hq'. rewrite Hq, Hq' in Heq.
      apply questionIdOf_inj in Heq as [Heq _]; lia.
    + intros index c Hc.
      replace (S k + index)%nat with (k + S index)%nat by lia.
      by apply (H (S index)).
Qed.

(** ** The parser: strings *)

Lemma String_app_cons a s1 s2 : String a s1 +:+ s2 = String a (s1 +:+ s2).
Proof. done. Qed.


Lemma String_app_nil_r s : s +:+ EmptyString = s.
Proof.
  induction s as [|a s IH]; [done|]. by rewrite String_app_cons, IH.
Qed.

Lemma String_app_assoc s1 s2 s3 : (s1 +:+ s2) +:+ s3 = s1 +:+ s2 +:+ s3.
Proof.
  induction s1 as [|a s1 IH]; [done|]. by rewrite !String_app_cons, IH.
Qed.

Lemma String_length_app s1 s2 :
  String.length (s1 +:+ s2) = (String.length s1 + String.length s2)%nat.
Proof.
  induction s1 as [|a s1 IH]; [done|]. rewrite String_app_cons. simpl.
  by rewrite IH.
Qed.

Lemma String_take_app s1 s2 : String_take (String.length s1) (s1 +:+ s2) = s1.
Proof.
  induction s1 as [|a s1 IH]; [by destruct s2|]. rewrite String_app_cons.
  simpl. by rewrite IH.
Qed.

Lemma String_drop_app s1 s2 : String_drop (String.length s1) (s1 +:+ s2) = s2.
Proof.
  induction s1 as [|a s1 IH]; [done|]. rewrite String_app_cons. by simpl.
Qed.

Lemma String_drop_app_add n s1 s2 :
  String_drop (String.length s1 + n) (s1 +:+ s2) = String_drop n s2.
Proof.
  induction s1 as [|a s1 IH]; [done|]. rewrite String_app_cons. by simpl.
Qed.

Lemma String_take_drop n s : String_take n s +:+ String_drop n s = s.
Proof.
  revert s. induction n as [|n IH]; intros [|a s]; try done.
  simpl. by rewrite String_app_cons, IH.
Qed.

Lemma allChars_app p s1 s2 :
  allChars p (s1 +:+ s2) = allChars p s1 && allChars p s2.
Proof.
  induction s1 as [|a s1 IH]; [done|]. rewrite String_app_cons. simpl.
  by rewrite IH, andb_assoc.
Qed.


(** ** The parser: what a successful match says *)

Lemma repeatMatcher_sound {R} greedy p min s i (c : string → nat → option R)
    z :
  repeatMatcher greedy p min s i c = Some z →
  ∃ w s', s = w +:+ s' ∧ allChars p w = true ∧
          (min ≤ String.length w)%nat ∧
          c s' (i + String.length w)%nat = Some z.
Proof.
  revert min i. induction s as [|a s IH]; intros min i; simpl.
  - destruct min; [|done]. intros Hc. exists EmptyString, EmptyString.
    rewrite Nat.add_0_r. done.
  - assert (c (String a s) i = Some z →
            ∃ w s', String a s = w +:+ s' ∧ allChars p w = true ∧
                    (0 ≤ String.length w)%nat ∧
                    c s' (i + String.length w)%nat = Some z) as Hstop.
    { intros Hc. exists EmptyString, (String a s).
      rewrite Nat.add_0_r. split_and!; try done. }
    destruct (p a) eqn:Ha.
    2:{ destruct min; [|done]. apply Hstop. }
    assert (∀ min',
              repeatMatcher greedy p min' s (S i) c = Some z →
              ∃ w s', String a s = w +:+ s' ∧ allChars p w = true ∧
                      (S min' ≤ String.length w)%nat ∧
                      c s' (i + String.length w)%nat = Some z) as Hmore.
    { intros min' (w & s' & -> & Hw & Hlen & Hc)%IH.
      exists (String a w), s'. simpl. rewrite Ha, Hw.
      replace (i + S (String.length w))%nat with (S i + String.length w)%nat
        by lia.
      split_and!; try done. lia. }
    assert (repeatMatcher greedy p 0 s (S i) c = Some z →
            ∃ w s', String a s = w +:+ s' ∧ allChars p w = true ∧
                    (0 ≤ String.length w)%nat ∧
                    c s' (i + String.length w)%nat = Some z) as Hmore0.
    { intros (w & s' & ? & ? & ? & ?)%Hmore. exists w, s'.
      split_and!; try done. lia. }
    destruct min as [|min']; [|apply Hmore].
    destruct greedy.
    + destruct (repeatMatcher true p 0 s (S i) c) as [z'|] eqn:Hrec.
      * intros [= ->]. by apply Hmore0.
      * apply Hstop.
    + destruct (c (String a s) i) as [z'|] eqn:Hc.
      * intros [= ->]. by apply Hstop.
      * apply Hmore0.
Qed.

Lemma matcher_sound r x c z :
  matcher r x c = Some z → ∃ y, Matches r x y ∧ c y = Some z.
Proof.
  revert x c z. induction r as [p| |r1 IH1 r2 IH2|r1 IH1 r2 IH2|greedy min p
                               |n r IH|r IH|]; intros x c z; simpl.
  - destruct (rest x) as [|a s] eqn:Hx; [done|].
    destruct (p a) eqn:Ha; [|done]. intros Hc.
    eexists. split; [|exact Hc]. exists a. simpl. done.
  - intros Hc. by exists x.
  - intros (m & Hm & (y & Hy & Hc)%IH2)%IH1. exists y. split; [|done].
    by exists m.
  - destruct (matcher r1 x c) as [z'|] eqn:H1.
    + intros [= ->]. apply IH1 in H1 as (y & Hy & Hc). exists y. eauto.
    + intros (y & Hy & Hc)%IH2. exists y. eauto.
  - intros (w & s' & Hs & Hw & Hlen & Hc)%repeatMatcher_sound.
    eexists. split; [|exact Hc]. exists w. simpl. done.
  - intros (y0 & Hy0 & Hc)%IH. eexists. split; [|exact Hc]. by exists y0.
  - destruct (matcher r x Some) as [y0|] eqn:Hr; [|done].
    apply IH in Hr as (y0' & Hy0 & [= ->]). intros Hc.
    eexists. split; [|exact Hc]. by exists y0.
  - destruct (rest x) as [|a s] eqn:Hx; [|done]. intros Hc. by exists x.
Qed.

(** A match consumes a prefix of the input and counts its length. *)
Lemma Matches_consumes r x y :
  Matches r x y →
  ∃ w, rest x = w +:+ rest y ∧
       endIndex y = (endIndex x + String.length w)%nat.
Proof.
  revert x y. induction r as [p| |r1 IH1 r2 IH2|r1 IH1 r2 IH2|greedy min p
                             |n r IH|r IH|]; intros x y; simpl.
  - intros (a & Hx & _ & Hi & _). exists (String a EmptyString).
    rewrite Hx, Hi. split; [done|]. simpl. lia.
  - intros ->. exists EmptyString. split; [done|]. simpl. lia.
  - intros (m & (w1 & Hw1 & Hi1)%IH1 & (w2 & Hw2 & Hi2)%IH2).
    exists (w1 +:+ w2). rewrite Hw1, Hw2, Hi2, Hi1, String_app_assoc.
    split; [done|]. rewrite String_length_app. lia.
  - intros [H|H]; [by apply IH1|by apply IH2].
  - intros (w & Hx & _ & _ & Hi & _). by exists w.
  - intros (y0 & (w & Hw & Hi)%IH & ->). by exists w.
  - intros (y0 & _ & ->). exists EmptyString. split; [done|]. simpl. lia.
  - intros [_ ->]. exists EmptyString. split; [done|]. simpl. lia.
Qed.

Lemma exec_from_sound r s index i y :
  exec_from r s index = Some (i, y) →
  ∃ s', Matches r {| endIndex := i; rest := s'; captures := [] |} y.
Proof.
  revert index. induction s as [|a s IH]; intros index; simpl.
  - unfold matchAt. destruct (matcher _ _ _) as [y'|] eqn:Hm; [|done].
    intros [= <- <-]. apply matcher_sound in Hm as (y'' & Hy & [= ->]). eauto.
  - unfold matchAt. destruct (matcher _ _ _) as [y'|] eqn:Hm.
    + intros [= <- <-]. apply matcher_sound in Hm as (y'' & Hy & [= ->]).
      eauto.
    + apply IH.
Qed.

(** ** The parser: the captured texts *)

Lemma Matches_plain r x y :
  plain r = true → Matches r x y → captures y = captures x.
Proof.
  revert x y. induction r as [p| |r1 IH1 r2 IH2|r1 IH1 r2 IH2|greedy min p
                             |n r IH|r IH|]; intros x y Hp; simpl in *.
  - by intros (a & _ & _ & _ & ?).
  - by intros ->.
  - apply andb_prop in Hp as [Hp1 Hp2].
    intros (m & H1 & H2). by rewrite (IH2 m y), (IH1 x m).
  - apply andb_prop in Hp as [Hp1 Hp2]. intros [H|H]; auto.
  - by intros (w & _ & _ & _ & _ & ?).
  - done.
  - intros (y0 & H & ->). simpl. by apply IH.
  - by intros [_ ->].
Qed.

Lemma plain_Lit s : plain (Lit s) = true.
Proof. induction s as [|a s IH]; [done|]. done. Qed.

(** A group around a quantified class captures what the class consumed. *)
Lemma Matches_Group_Repeat n greedy min p x y :
  Matches (Group n (Repeat greedy min p)) x y →
  ∃ w, captures y = (n, w) :: captures x ∧ allChars p w = true ∧
       (min ≤ String.length w)%nat.
Proof.
  intros (y0 & (w & Hx & Hw & Hlen & Hi & Hc) & ->). exists w. simpl.
  rewrite Hc, Hx, Hi.
  replace (endIndex x + String.length w - endIndex x)%nat
    with (String.length w) by lia.
  by rewrite String_take_app.
Qed.

Lemma String_length_pos_ne w : (1 ≤ String.length w)%nat → w ≠ EmptyString.
Proof. by intros Hlen ->; simpl in Hlen; lia. Qed.

Lemma questionHeader_groups block m :
  String_match block re_questionHeader = Some m →
  ∃ ds title,
    captures m.2 = [(2%nat, title); (1%nat, ds)] ∧
    allChars isDigit ds = true ∧ ds ≠ EmptyString ∧
    allChars isDot title = true ∧ title ≠ EmptyString.
Proof.
  destruct m as [i y]. intros (s' & H)%exec_from_sound.
  unfold re_questionHeader, Concat in H. cbn [foldr] in H.
  destruct H as (m1 & H1 & m2 & H2 & m3 & H3 & m4 & H4 & m5 & H5 & m6 & H6
                 & m7 & H7 & m8 & H8 & ->).
  apply Matches_plain in H1, H2, H3, H5, H6, H8; try done.
  apply Matches_Group_Repeat in H4 as (ds & Hc4 & Hds & Hlen4).
  apply Matches_Group_Repeat in H7 as (title & Hc7 & Htitle & Hlen7).
  exists ds, title. simpl.
  rewrite H8, Hc7, H6, H5, Hc4, H3, H2, H1. simpl.
  split_and!; try done; by apply String_length_pos_ne.
Qed.

Lemma keywords_groups block m :
  String_match block re_keywords = Some m →
  ∃ list, captures m.2 = [(1%nat, list)] ∧ allChars isDot list = true.
Proof.
  destruct m as [i y]. intros (s' & H)%exec_from_sound.
  unfold re_keywords, Concat in H. cbn [foldr] in H.
  destruct H as (m1 & H1 & m2 & H2 & m3 & H3 & m4 & H4 & ->).
  apply Matches_plain in H1, H2, H4; try done.
  apply Matches_Group_Repeat in H3 as (list & Hc3 & Hlist & _).
  exists list. simpl. rewrite H4, Hc3, H2, H1. done.
Qed.

(** ** The parser: trim and split *)

Lemma allChars_trimStart p s :
  allChars p s = true → allChars p (trimStart s) = true.
Proof.
  induction s as [|a s IH]; [done|]. simpl. intros Hs.
  destruct (isWhiteSpace a); [|done].
  apply andb_prop in Hs as [_ Hs]. by apply IH.
Qed.

Lemma allChars_trimEnd p s :
  allChars p s = true → allChars p (trimEnd s) = true.
Proof.
  induction s as [|a s IH]; [done|]. simpl.
  intros [Ha Hs]%andb_prop. specialize (IH Hs).
  destruct (trimEnd s) as [|b t].
  - destruct (isWhiteSpace a); [done|]. simpl. by rewrite Ha.
  - simpl in *. by rewrite Ha, IH.
Qed.

Lemma firstChar_trimStart s a :
  firstChar (trimStart s) = Some a → isWhiteSpace a = false.
Proof.
  induction s as [|b s IH]; [done|]. simpl.
  destruct (isWhiteSpace b) eqn:Hb; [done|]. by intros [= <-].
Qed.

Lemma lastChar_trimEnd s a :
  lastChar (trimEnd s) = Some a → isWhiteSpace a = false.
Proof.
  induction s as [|b s IH]; [done|]. simpl.
  destruct (trimEnd s) as [|c t].
  - destruct (isWhiteSpace b) eqn:Hb; [done|]. by intros [= <-].
  - done.
Qed.

Lemma firstChar_trimEnd s a :
  firstChar (trimEnd s) = Some a → firstChar s = Some a.
Proof.
  destruct s as [|b s]; [done|]. simpl.
  destruct (trimEnd s) as [|c t]; [|done].
  by destruct (isWhiteSpace b).
Qed.

Lemma trim_trimmed s : trimmed (trim s).
Proof.
  unfold trim. split.
  - intros a Ha%firstChar_trimEnd. by eapply firstChar_trimStart.
  - apply lastChar_trimEnd.
Qed.

Lemma allChars_trim p s : allChars p s = true → allChars p (trim s) = true.
Proof. intros Hs. by apply allChars_trimEnd, allChars_trimStart. Qed.

Lemma split_at_pieces p separator current s :
  allChars p current = true → allChars p s = true →
  Forall (λ piece, allChars p piece = true ∧
                   allChars (λ a, negb (bool_decide (a = separator))) piece
                   = true)
         (split_at separator current s) ↔
  allChars (λ a, negb (bool_decide (a = separator))) current = true.
Proof.
  revert current. induction s as [|a s IH]; intros current Hc Hs; simpl.
  - rewrite Forall_singleton. by split; [intros [_ ?]|].
  - apply andb_prop in Hs as [Ha Hs]. case_decide as Hsep.
    + rewrite Forall_cons, IH by done. simpl. split; [by intros [[_ ?] _]|done].
    + rewrite IH; [|by rewrite allChars_app; simpl; rewrite Hc, Ha|done].
      rewrite allChars_app. simpl. rewrite bool_decide_false by done. simpl.
      by rewrite !andb_true_r.
Qed.

Lemma String_split_pieces p s separator :
  allChars p s = true →
  Forall (λ piece, allChars p piece = true ∧
                   allChars (λ a, negb (bool_decide (a = separator))) piece
                   = true)
         (String_split s separator).
Proof. intros Hs. by apply split_at_pieces. Qed.

Lemma parseBlock_texts block weekNumber currentDifficulty q :
  parseBlock block weekNumber currentDifficulty = Some q →
  allChars isDot (question q) = true ∧ trimmed (question q) ∧
  Forall (λ keyword, allChars isKeywordChar keyword = true ∧ trimmed keyword)
         (keywords q).
Proof.
  unfold parseBlock.
  destruct (String_match block re_questionHeader) as [m|] eqn:Hm; [|done].
  intros [= <-]. simpl.
  apply questionHeader_groups in Hm as (ds & title & Hc & _ & _ & Ht & _).
  unfold group. rewrite Hc. simpl. split_and!.
  - by apply allChars_trim.
  - apply trim_trimmed.
  - destruct (String_match block re_keywords) as [km|] eqn:Hk; [|done].
    apply keywords_groups in Hk as (list & Hkc & Hlist). rewrite Hkc. simpl.
    apply Forall_fmap, Forall_forall. intros piece Hpiece. simpl.
    pose proof (String_split_pieces isDot list ","%char Hlist) as Hpieces.
    rewrite Forall_forall in Hpieces.
    destruct (Hpieces piece Hpiece) as [Hdot Hcomma].
    split; [|apply trim_trimmed]. apply allChars_trim.
    unfold isKeywordChar. clear -Hdot Hcomma.
    induction piece as [|a piece IH]; [done|]. simpl in *.
    apply andb_prop in Hdot as [-> Hdot].
    apply andb_prop in Hcomma as [-> Hcomma]. simpl. by apply IH.
Qed.

(** ** The parser: line endings *)

Lemma normalize_cons a s :
  normalize (String a s)
  = match s with
    | String b s' =>
        if decide (a = CR ∧ b = LF) then String LF (normalize s')
        else String a (normalize s)
    | EmptyString => String a EmptyString
    end.
Proof. done. Qed.

Lemma matchAt_crlf s index :
  matchAt re_crlf s index
  = match s with
    | String a (String b s') =>
        if decide (a = CR ∧ b = LF)
        then Some {| endIndex := S (S index); rest := s'; captures := [] |}
        else None
    | _ => None
    end.
Proof.
  unfold matchAt, re_crlf, isChar. simpl.
  destruct s as [|a [|b s']]; simpl; [done| |].
  - by case_bool_decide.
  - destruct (decide (a = CR)) as [->|Ha], (decide (b = LF)) as [->|Hb];
      rewrite ?bool_decide_true, ?bool_decide_false by done; simpl;
      rewrite ?bool_decide_true, ?bool_decide_false by done; try done;
      rewrite decide_False; try done; by intros [? ?].
Qed.

(** The search for the first CR LF pair. *)
Lemma exec_from_crlf s index :
  match exec_from re_crlf s index with
  | None => normalize s = s
  | Some (i, y) =>
      ∃ pre post,
        s = pre +:+ String CR (String LF post) ∧
        i = (index + String.length pre)%nat ∧
        endIndex y = S (S i) ∧
        normalize s = pre +:+ String LF (normalize post)
  end.
Proof.
  revert index. induction s as [|a s IH]; intros index.
  { by cbn. }
  cbn [exec_from]. rewrite matchAt_crlf. destruct s as [|b s'].
  { by cbn. }
  case_decide as Hab.
  - destruct Hab as [-> ->]. exists EmptyString, s'.
    rewrite normalize_cons, decide_True by done.
    split_and!; try done; simpl; lia.
  - specialize (IH (S index)). rewrite normalize_cons, decide_False by done.
    destruct (exec_from re_crlf (String b s') (S index)) as [[i y]|].
    + destruct IH as (pre & post & Hs & Hi & He & Hn).
      exists (String a pre), post. rewrite String_app_cons, <-Hs, Hn.
      split_and!; try done. simpl. lia.
    + by rewrite IH.
Qed.

Lemma replace_crlf fuel s :
  (String.length s < fuel)%nat →
  replace_loop fuel re_crlf (String LF EmptyString) s = normalize s.
Proof.
  revert s. induction fuel as [|fuel IH]; intros s Hlen; [lia|].
  cbn [replace_loop]. pose proof (exec_from_crlf s 0) as H.
  destruct (exec_from re_crlf s 0) as [[i y]|]; [|done].
  destruct H as (pre & post & -> & -> & He & ->).
  rewrite He, decide_False by lia.
  replace (S (S (0 + String.length pre))) with (String.length pre + 2)%nat
    by lia.
  rewrite String_drop_app_add. cbn [String_drop Nat.add].
  rewrite String_take_app, IH; [done|].
  rewrite String_length_app in Hlen. simpl in Hlen. lia.
Qed.

Lemma String_replace_crlf s :
  String_replace s re_crlf (String LF EmptyString) = normalize s.
Proof. apply replace_crlf. lia. Qed.

(** A search string without line terminators is found in the normalized
    content exactly when it is found in the content. *)
Lemma startsWith_normalize s t :
  allChars isDot t = true → startsWith (normalize s) t = startsWith s t.
Proof.
  revert s. induction t as [|b t IH]; intros s Ht.
  { by destruct (normalize s), s. }
  simpl in Ht. apply andb_prop in Ht as [Hb Ht].
  destruct s as [|a s]; [done|]. rewrite normalize_cons.
  destruct s as [|a' s'].
  { simpl. case_decide; [|done]. by destruct t. }
  case_decide as Ha.
  - destruct Ha as [-> ->]. simpl. unfold isDot in Hb.
    rewrite !decide_False; [done|..];
      intros <-; by rewrite ?bool_decide_true in Hb by done.
  - cbn [startsWith]. case_decide; [|done]. by apply IH.
Qed.

Lemma String_includes_cons a s t :
  String_includes (String a s) t
  = startsWith (String a s) t || String_includes s t.
Proof. done. Qed.

Lemma String_includes_normalize s t :
  allChars isDot t = true → t ≠ EmptyString →
  String_includes (normalize s) t = String_includes s t.
Proof.
  intros Ht Hne.
  assert (∀ n s, (String.length s ≤ n)%nat →
            String_includes (normalize s) t = String_includes s t) as H.
  2:{ by apply (H (String.length s)). }
  clear s. intros n. induction n as [|n IH]; intros s Hlen.
  { destruct s; [done|simpl in Hlen; lia]. }
  destruct s as [|a s]; [done|].
  pose proof (startsWith_normalize (String a s) t Ht) as Hsw.
  rewrite normalize_cons in Hsw |- *. destruct s as [|b s'].
  { done. }
  simpl in Hlen. case_decide as Hab.
  - destruct Hab as [-> ->].
    rewrite !String_includes_cons, Hsw, IH by lia.
    destruct t as [|c t]; [done|]. simpl in Ht.
    apply andb_prop in Ht as [Hc _]. unfold isDot in Hc. simpl.
    rewrite (decide_False (P := LF = c)); [by rewrite orb_false_l|].
    intros <-. by rewrite bool_decide_true, orb_true_l in Hc.
  - rewrite (String_includes_cons a (normalize _)), Hsw.
    rewrite (String_includes_cons a (String b s')).
    rewrite IH by (simpl; lia). done.
Qed.

(** ** The parser: the blocks *)

Lemma matchAt_Lookahead r s index y :
  matchAt (Lookahead r) s index = Some y → endIndex y = index.
Proof.
  unfold matchAt. simpl. destruct (matcher r _ Some); [|done].
  by intros [= <-].
Qed.

Lemma split_loop_cutBefore r fuel pending s :
  (2 * String.length s + (if decide (pending = EmptyString) then 0 else 1)
   < fuel)%nat →
  split_loop fuel (Lookahead r) pending s
  = cutBefore (λ s, bool_decide (is_Some (matchAt (Lookahead r) s 0)))
      pending s.
Proof.
  revert pending s. induction fuel as [|fuel IH]; intros pending s Hfuel;
    [lia|].
  destruct s as [|a s]; [done|]. cbn [split_loop cutBefore].
  cbn [String.length] in Hfuel.
  assert (split_loop fuel (Lookahead r) (pending +:+ String a EmptyString) s
          = cutBefore
              (λ s, bool_decide (is_Some (matchAt (Lookahead r) s 0)))
              (pending +:+ String a EmptyString) s) as Hnext.
  { apply IH. repeat case_decide; lia. }
  destruct (matchAt (Lookahead r) (String a s) 0) as [y|] eqn:Hm.
  - apply matchAt_Lookahead in Hm as ->.
    rewrite bool_decide_true by eauto. simpl.
    destruct (decide (pending = EmptyString)) as [->|Hp].
    + rewrite decide_True by done. by rewrite bool_decide_true.
    + destruct (decide (0%nat = 0%nat ∧ pending = EmptyString))
        as [[_ ?]|_]; [done|].
      rewrite (bool_decide_false _ Hp). simpl. f_equal.
      rewrite IH by (case_decide; [|done]; cbn [String.length]; lia).
      cbn [cutBefore]. by rewrite (bool_decide_true (_ = _)), andb_false_r.
  - rewrite bool_decide_false by by intros [? [=]]. done.
Qed.

Lemma joined_app l1 l2 : joined (l1 ++ l2) = joined l1 +:+ joined l2.
Proof.
  induction l1 as [|s l1 IH]; [done|]. simpl.
  by rewrite IH, String_app_assoc.
Qed.

Lemma joined_cutBefore starts pending s :
  joined (cutBefore starts pending s) = pending +:+ s.
Proof.
  revert pending. induction s as [|a s IH]; intros pending; simpl.
  { done. }
  destruct (starts _ && _); simpl; rewrite IH; [done|].
  by rewrite String_app_assoc.
Qed.

(** Where the pieces start: a piece that is not the first starts where
    [starts] holds, and [starts] holds at no other position, the very
    first and those of [pending] excepted. *)
Lemma cutBefore_cuts starts pending s pre block post :
  cutBefore starts pending s = pre ++ block :: post →
  (pre ≠ [] → starts (block +:+ joined post) = true) ∧
  (∀ n, (1 ≤ n < String.length block)%nat →
        (pre = [] → (String.length pending ≤ n)%nat) →
        starts (String_drop n (block +:+ joined post)) = false).
Proof.
  revert pending pre. induction s as [|a s IH]; intros pending pre; simpl.
  { destruct pre as [|? [|? ?]]; intros [= <- <-]; try done.
    split; [done|]. intros n Hn Hp. specialize (Hp eq_refl). lia. }
  destruct (starts (String a s)) eqn:Hstarts; simpl.
  - case_bool_decide as Hp; simpl.
    + subst pending. intros Hcut.
      destruct (IH _ _ Hcut) as [H1 H2]. split; [done|].
      intros n Hn Hpre. apply H2; [done|]. simpl. lia.
    + destruct pre as [|p pre]; intros [= <- Hcut].
      * split; [done|]. intros n Hn Hpre. specialize (Hpre eq_refl). lia.
      * destruct (IH _ _ Hcut) as [H1 H2]. split.
        -- intros _. destruct pre as [|p' pre]; [|by apply H1].
           pose proof (joined_cutBefore starts (String a EmptyString) s)
             as Hj.
           rewrite Hcut in Hj. simpl in Hj. by rewrite Hj.
        -- intros n Hn _. apply H2; [done|]. simpl. lia.
  - intros Hcut. destruct (IH _ _ Hcut) as [H1 H2]. split; [done|].
    intros n Hn Hpre.
    destruct (decide (pre = [] ∧ n = String.length pending)) as [[-> ->]|Hne].
    + pose proof (joined_cutBefore starts (pending +:+ String a EmptyString) s)
        as Hj.
      rewrite Hcut in Hj. simpl in Hj. rewrite Hj, String_app_assoc.
      rewrite <-(Nat.add_0_r (String.length pending)), String_drop_app_add.
      done.
    + apply H2; [done|]. intros ->. specialize (Hpre eq_refl).
      rewrite String_length_app. simpl.
      destruct (decide (n = String.length pending)); [|lia].
      destruct Hne. done.
Qed.

Lemma cutBefore_pieces_nonempty starts pending s :
  pending +:+ s ≠ EmptyString →
  Forall (λ piece, piece ≠ EmptyString) (cutBefore starts pending s).
Proof.
  revert pending. induction s as [|a s IH]; intros pending Hne; simpl.
  { rewrite String_app_nil_r in Hne. by apply Forall_singleton. }
  destruct (starts _); simpl; [case_bool_decide as Hp; simpl|].
  - apply IH. subst. done.
  - apply Forall_cons. split; [done|]. by apply IH.
  - apply IH. by destruct pending.
Qed.

Lemma cutBefore_none starts pending s :
  (∀ n, starts (String_drop n s) = false) →
  cutBefore starts pending s = [pending +:+ s].
Proof.
  revert pending. induction s as [|a s IH]; intros pending Hs; simpl.
  { by rewrite String_app_nil_r. }
  pose proof (Hs 0%nat) as H0. cbn [String_drop] in H0. rewrite H0. simpl.
  rewrite IH.
  - by rewrite String_app_assoc.
  - intros n. apply (Hs (S n)).
Qed.

Lemma String_split_questionStart s :
  String_split_regex s re_questionStart = cutBefore startsQuestion EmptyString s.
Proof.
  destruct s as [|a s]; [done|]. unfold String_split_regex.
  unfold re_questionStart. rewrite split_loop_cutBefore; [done|].
  rewrite decide_True by done. lia.
Qed.

(** ** The parser: content without a header *)

Lemma matcher_Lit_fails t x c :
  startsWith (rest x) t = false → matcher (Lit t) x c = None.
Proof.
  revert x c. induction t as [|b t IH]; intros x c Hs.
  { by destruct (rest x). }
  simpl. destruct (rest x) as [|a s]; [done|]. unfold isChar.
  cbn [startsWith] in Hs.
  destruct (decide (a = b)) as [->|Hab].
  - rewrite bool_decide_true by done. apply IH. exact Hs.
  - by rewrite bool_decide_false.
Qed.

Lemma startsQuestion_hashes s :
  startsWith s "###" = false → startsQuestion s = false.
Proof.
  intros Hs. unfold startsQuestion, matchAt, re_questionStart, Concat.
  cbn [foldr matcher]. rewrite matcher_Lit_fails by done.
  apply bool_decide_false. by intros [? [=]].
Qed.

Lemma matchAt_questionHeader_hashes s index :
  startsWith s "###" = false → matchAt re_questionHeader s index = None.
Proof.
  intros Hs. unfold matchAt, re_questionHeader, Concat.
  cbn [foldr matcher]. by rewrite matcher_Lit_fails.
Qed.

Lemma String_includes_drop s t n :
  String_includes s t = false → String_includes (String_drop n s) t = false.
Proof.
  revert s. induction n as [|n IH]; intros s; [by destruct s|].
  destruct s as [|a s]; [done|]. rewrite String_includes_cons.
  intros [_ Hs]%orb_false_elim. by apply IH.
Qed.

Lemma String_includes_startsWith s t :
  String_includes s t = false → startsWith s t = false.
Proof. destruct s; simpl; [by rewrite orb_false_r|]. by intros [? _]%orb_false_elim. Qed.

Lemma exec_from_none r s index :
  (∀ n i, matchAt r (String_drop n s) i = None) → exec_from r s index = None.
Proof.
  revert index. induction s as [|a s IH]; intros index Hs; simpl.
  - pose proof (Hs 0%nat index) as H0. cbn [String_drop] in H0.
    by rewrite H0.
  - pose proof (Hs 0%nat index) as H0. cbn [String_drop] in H0.
    rewrite H0. apply IH. intros n i. apply (Hs (S n)).
Qed.

Lemma parse_without_hashes content weekNumber :
  String_includes content "###" = false →
  parseInterviewQuestions content weekNumber = [].
Proof.
  intros Hc. unfold parseInterviewQuestions.
  rewrite String_replace_crlf, String_split_questionStart.
  assert (String_includes (normalize content) "###" = false) as Hn
    by by rewrite String_includes_normalize.
  rewrite cutBefore_none.
  2:{ intros n. by apply startsQuestion_hashes, String_includes_startsWith,
        String_includes_drop. }
  cbn [parseBlocks]. unfold parseBlock, String_match.
  rewrite exec_from_none; [done|].
  intros n i. by apply matchAt_questionHeader_hashes,
    String_includes_startsWith, String_includes_drop.
Qed.

(** ** The parser: sections *)

Lemma startsWith_app s1 s2 t :
  startsWith s1 t = true → startsWith (s1 +:+ s2) t = true.
Proof.
  revert s1. induction t as [|b t IH]; intros s1; [by destruct (s1 +:+ s2)|].
  destruct s1 as [|a s1]; [done|]. rewrite String_app_cons. simpl.
  case_decide; [apply IH|done].
Qed.

Lemma String_includes_app_l s1 s2 t :
  String_includes s1 t = true → String_includes (s1 +:+ s2) t = true.
Proof.
  induction s1 as [|a s1 IH].
  - simpl. rewrite orb_false_r. destruct t; [|done]. by destruct s2.
  - rewrite String_app_cons, !String_includes_cons.
    intros [H|H]%orb_prop.
    + by rewrite <-String_app_cons, startsWith_app.
    + by rewrite IH, orb_true_r.
Qed.

Lemma String_includes_app_r s1 s2 t :
  String_includes s2 t = true → String_includes (s1 +:+ s2) t = true.
Proof.
  intros H. induction s1 as [|a s1 IH]; [done|].
  by rewrite String_app_cons, String_includes_cons, IH, orb_true_r.
Qed.

Lemma String_includes_joined block blocks t :
  block ∈ blocks → String_includes block t = true →
  String_includes (joined blocks) t = true.
Proof.
  intros (pre & post & ->)%list_elem_of_split Hb.
  rewrite joined_app. simpl.
  by apply String_includes_app_r, String_includes_app_l.
Qed.

Lemma sectionDifficulty_beginner block :
  Forall (λ marker, String_includes block marker = false) laterSectionMarkers →
  sectionDifficulty block beginner = beginner.
Proof.
  unfold laterSectionMarkers. rewrite !Forall_cons.
  intros (H1 & H2 & H3 & H4 & _). unfold sectionDifficulty.
  rewrite H1, H2, H3, H4. simpl. by destruct (_ || _).
Qed.

Lemma parseBlocks_beginner blocks weekNumber questions :
  Forall (λ block, Forall (λ marker, String_includes block marker = false)
                          laterSectionMarkers) blocks →
  Forall (λ q, difficulty q = beginner) questions →
  Forall (λ q, difficulty q = beginner)
         (parseBlocks blocks weekNumber beginner questions).
Proof.
  revert questions. induction blocks as [|block blocks IH];
    intros questions Hblocks Hq; [done|].
  apply Forall_cons in Hblocks as [Hblock Hblocks]. cbn [parseBlocks].
  rewrite sectionDifficulty_beginner by done.
  destruct (parseBlock block weekNumber beginner) as [q|] eqn:Hb;
    apply IH; try done.
  apply Forall_app. split; [done|]. apply Forall_singleton.
  by apply parseBlock_Some in Hb as (_ & _ & _ & ? & _).
Qed.

Lemma laterSectionMarkers_one_line :
  Forall (λ marker, allChars isDot marker = true ∧ marker ≠ EmptyString)
         laterSectionMarkers.
Proof. repeat constructor; done. Qed.

Lemma parse_without_markers content weekNumber :
  Forall (λ marker, String_includes content marker = false)
         laterSectionMarkers →
  Forall (λ q, difficulty q = beginner)
         (parseInterviewQuestions content weekNumber).
Proof.
  intros Hc. unfold parseInterviewQuestions.
  rewrite String_replace_crlf, String_split_questionStart.
  apply parseBlocks_beginner; [|done].
  apply Forall_forall. intros block Hblock.
  apply Forall_forall. intros marker Hmarker.
  rewrite Forall_forall in Hc. specialize (Hc marker Hmarker).
  pose proof laterSectionMarkers_one_line as Hl.
  rewrite Forall_forall in Hl. destruct (Hl marker Hmarker) as [Hdot Hne].
  destruct (String_includes block marker) eqn:Hb; [|done].
  apply (String_includes_joined _ _ _ Hblock) in Hb.
  rewrite joined_cutBefore in Hb.
  change (EmptyString +:+ normalize content) with (normalize content) in Hb.
  by rewrite String_includes_normalize, Hc in Hb.
Qed.

(** ** The parser: reading a header *)












(** ** The parser: reading the keywords *)


















(** ** The parser: a whole bank *)

















(** ** From the banks to the session *)

Lemma questionIdOf_not_starter week number :
  questionIdOf week number ≠ "starter-1" ∧
  questionIdOf week number ≠ "starter-2".
Proof. unfold questionIdOf. split; by intros [=]. Qed.

Lemma loaded_id contents q :
  q ∈ loadSelectedQuestions contents →
  ∃ week, id q = questionIdOf week (questionNumber q).
Proof.
  rewrite loadSelectedQuestions_concat.
  intros (l & Hq & Hl)%elem_of_concat.
  apply elem_of_lookup_imap_1 in Hl as (index & content & -> & Hc).
  eexists. by eapply parsed_id.
Qed.

(** * The properties of the specification *)

(** C1. For a pool with pairwise distinct ids and a count that is not
    negative, a run returns exactly [min(count, pool.length)] questions:
    [count] of them when the pool holds that many, the whole pool when it
    does not, and never more than [count]. *)
Theorem selectRandomQuestions_length pool count level r c :
  NoDup (id <$> pool) → 0 ≤ count →
  let res := (selectRandomQuestions pool count level r c).1 in
  Z.of_nat (length res) = Z.min count (length pool) ∧
  (count ≤ length pool → Z.of_nat (length res) = count) ∧
  (count > length pool → length res = length pool) ∧
  Z.of_nat (length res) ≤ count.
Proof.
  intros Hnd Hc res.
  pose proof (selectRandomQuestions_sampling pool count level r c) as Hs.
  apply sampling_length in Hs; [|done..]. fold res in Hs. lia.
Qed.

Lemma selectRandomQuestions_length_witness :
  let res := (selectRandomQuestions pool_two_weeks 3 entry (λ k, k) 0%nat).1 in
  Z.of_nat (length res) = Z.min 3 (length pool_two_weeks) ∧
  (3 ≤ length pool_two_weeks → Z.of_nat (length res) = 3) ∧
  (3 > length pool_two_weeks → length res = length pool_two_weeks) ∧
  Z.of_nat (length res) ≤ 3.
Proof.
  apply (selectRandomQuestions_length pool_two_weeks 3 entry (λ k, k) 0%nat).
  - apply (bool_decide_unpack _). vm_compute. exact I.
  - lia.
Defined.

(** C2, as the code has it. When the ids of the pool are pairwise
    distinct, no two questions of a result share an id. *)
Theorem selectRandomQuestions_distinct_ids pool count level r c :
  NoDup (id <$> pool) →
  NoDup (id <$> (selectRandomQuestions pool count level r c).1).
Proof.
  intros Hnd.
  pose proof (selectRandomQuestions_sampling pool count level r c) as Hs.
  apply sampling_submseteq in Hs.
  eapply submseteq_NoDup; [|exact Hnd]. by apply fmap_submseteq.
Qed.

Lemma selectRandomQuestions_distinct_ids_witness :
  NoDup (id <$> (selectRandomQuestions pool_two_weeks 3 entry (λ k, k) 0%nat).1).
Proof.
  apply (selectRandomQuestions_distinct_ids pool_two_weeks 3 entry
           (λ k, k) 0%nat).
  apply (bool_decide_unpack _). vm_compute. exact I.
Defined.

(** C2, as stated, fails: a pool in which a beginner and an intermediate
    question share an id yields both of them for [count = 2]. *)
Lemma shared_id_selected_twice :
  ¬ (∀ pool count level r c,
       NoDup (id <$> (selectRandomQuestions pool count level r c).1)).
Proof.
  intros H. specialize (H pool_shared_id 2 entry (λ _, 0%nat) 0%nat).
  vm_compute in H. apply NoDup_cons in H as [Hin _]. apply Hin. left.
Qed.

(** C3. For a week group [wq] with quota [quota] and either ratio profile,
    the stratified pick holds exactly
    [advancedTarget = min(advanced bucket, max(0, round(quota * advancedRatio)))]
    advanced questions, [intermediateTarget] intermediate ones computed the
    same way, and as many beginner questions as the bucket gives towards
    [beginnerTarget = max(0, quota - intermediateTarget - advancedTarget)];
    after the fill within the week the selection has at most as many
    questions as the week has and, the quota of a count that is not
    negative being at least 0, at most [quota] questions. *)
Theorem stratifier_targets_and_bounds wq quota level r c :
  let rt := ratiosOf level in
  let picked := (stratify wq quota rt r c).1 in
  let weekSelected := (selectWeek wq quota rt r c).1 in
  let bucket d := Z.of_nat (length (filter (hasDifficulty d) wq)) in
  let advancedTarget :=
    Z.min (bucket advanced)
          (Z.max 0 (Math_round_ratio quota (advancedRatio rt))) in
  let intermediateTarget :=
    Z.min (bucket intermediate)
          (Z.max 0 (Math_round_ratio quota (intermediateRatio rt))) in
  let beginnerTarget :=
    Z.max 0 (quota - intermediateTarget - advancedTarget) in
  (ratiosOf entry =
     {| beginnerRatio := 5; intermediateRatio := 4; advancedRatio := 1 |} ∧
   ratiosOf experienced =
     {| beginnerRatio := 1; intermediateRatio := 4; advancedRatio := 5 |}) ∧
  (advancedCount wq quota rt = advancedTarget ∧
   intermediateCount wq quota rt = intermediateTarget ∧
   beginnerCount wq quota rt = beginnerTarget) ∧
  (Z.of_nat (countDifficulty advanced picked) = advancedTarget ∧
   Z.of_nat (countDifficulty intermediate picked) = intermediateTarget ∧
   Z.of_nat (countDifficulty beginner picked)
     = Z.min (bucket beginner) beginnerTarget) ∧
  (length weekSelected ≤ length wq)%nat ∧
  Z.of_nat (length weekSelected) ≤ Z.max 0 quota ∧
  (0 ≤ quota → Z.of_nat (length weekSelected) ≤ quota).
Proof.
  intros rt picked weekSelected bucket aT iT bT.
  pose proof (stratify_stratified wq quota rt r c) as Hs. fold picked in Hs.
  pose proof (selectWeek_weekSelection wq quota rt r c) as Hw.
  fold weekSelected in Hw.
  apply stratified_counts in Hs as (Hb & Hi & Ha & _).
  split; [done|]. split; [done|]. split; [done|]. split.
  - by apply submseteq_length, (weekSelection_submseteq _ quota rt).
  - apply weekSelection_length in Hw. lia.
Qed.

Lemma stratifier_targets_and_bounds_witness :
  let wq := take 3 pool_two_weeks in
  let picked := (stratify wq 2 (ratiosOf entry) (λ k, k) 0%nat).1 in
  let weekSelected := (selectWeek wq 2 (ratiosOf entry) (λ k, k) 0%nat).1 in
  (Z.of_nat (countDifficulty advanced picked) = 0 ∧
   Z.of_nat (countDifficulty intermediate picked) = 1 ∧
   Z.of_nat (countDifficulty beginner picked) = 1) ∧
  (length weekSelected ≤ length wq)%nat ∧
  Z.of_nat (length weekSelected) ≤ 2.
Proof.
  pose proof (stratifier_targets_and_bounds (take 3 pool_two_weeks) 2 entry
                (λ k, k) 0%nat) as (_ & _ & Hcounts & Hweek & _ & Hquota).
  split; [exact Hcounts|]. split; [exact Hweek|]. apply Hquota. lia.
Defined.

(** C4 on the code: the weeks are ordered by their decimal numerals, not
    by their values.  Week 10 comes before week 2, takes the one extra
    question and week 2 gets none, whatever the random source returns. *)
Theorem weeks_sorted_as_strings :
  sortedWeeks pool_weeks_2_10 = [10; 2] ∧
  (let numWeeks := length (sortedWeeks pool_weeks_2_10) in
   let perWeek := 1 `div` numWeeks in
   let remainder := 1 `rem` numWeeks in
   weekQuota perWeek remainder 0 = 1 ∧ weekQuota perWeek remainder 1 = 0) ∧
  ∀ r c, (selectRandomQuestions pool_weeks_2_10 1 entry r c).1
           = [mkq "week10-q1" beginner (Some 10)].
Proof.
  split; [by vm_compute|]. split; [by vm_compute|].
  intros r c. by vm_compute.
Qed.

(** C5. When [count] is at least the number of week groups, every week
    group (none of which is empty) has one of its questions in the
    result. *)
Theorem selectRandomQuestions_week_coverage pool count level r c week :
  Z.of_nat (length (sortedWeeks pool)) ≤ count →
  week ∈ sortedWeeks pool →
  Map_get_present (groupByWeek pool) week ≠ [] ∧
  ∃ q, q ∈ (selectRandomQuestions pool count level r c).1 ∧
       q ∈ Map_get_present (groupByWeek pool) week ∧
       q ∈ pool ∧ weekNum q = week.
Proof.
  intros Hc Hweek.
  pose proof (selectRandomQuestions_sampling pool count level r c) as Hs.
  destruct (sampling_coverage _ _ _ _ week Hs Hc Hweek) as (q & Hq & Hg).
  split.
  - apply groupByWeek_nonempty. by rewrite <-sortedWeeks_Permutation.
  - exists q. split; [done|]. split; [done|].
    destruct (groupByWeek_grouped pool) as (_ & _ & Hget).
    rewrite Hget in Hg. by apply list_elem_of_filter in Hg as [? ?].
Qed.

Lemma selectRandomQuestions_week_coverage_witness :
  ∃ q, q ∈ (selectRandomQuestions pool_two_weeks 2 entry (λ k, k) 0%nat).1 ∧
       q ∈ Map_get_present (groupByWeek pool_two_weeks) 2 ∧
       q ∈ pool_two_weeks ∧ weekNum q = 2.
Proof.
  apply (selectRandomQuestions_week_coverage pool_two_weeks 2 entry
           (λ k, k) 0%nat 2).
  - vm_compute. discriminate.
  - apply (bool_decide_unpack _). vm_compute. exact I.
Defined.

(** C6. With abundant supply in every (week, difficulty) cell, the runs
    for the two levels return equally many questions, each holds exactly
    the sum of its per-week advanced targets, the target of a week for
    [experienced] is at least the one for [entry], and so the share of
    advanced questions for [experienced] is at least the share for
    [entry], whatever the two random sources return. *)
Theorem advanced_share_experienced_ge_entry pool count r1 r2 :
  abundant pool count →
  let exp := sample pool count experienced r1 in
  let ent := sample pool count entry r2 in
  length exp = length ent ∧
  Z.of_nat (countDifficulty advanced exp)
    = advancedTotal pool count experienced ∧
  Z.of_nat (countDifficulty advanced ent) = advancedTotal pool count entry ∧
  (∀ w, rawAdvanced w (ratiosOf entry)
          ≤ rawAdvanced w (ratiosOf experienced)) ∧
  (∀ w, 0 ≤ w → Math_round_ratio w 1 ≤ Math_round_ratio w 5) ∧
  (countDifficulty advanced ent ≤ countDifficulty advanced exp)%nat ∧
  (countDifficulty advanced ent * length exp
     ≤ countDifficulty advanced exp * length ent)%nat.
Proof.
  intros Hab exp ent.
  pose proof (selectRandomQuestions_sampling pool count experienced r1 0%nat)
    as Hexp.
  pose proof (selectRandomQuestions_sampling pool count entry r2 0%nat)
    as Hent.
  apply sampling_abundant in Hexp as [Hl1 Ha1]; [|done].
  apply sampling_abundant in Hent as [Hl2 Ha2]; [|done].
  fold (sample pool count experienced r1) in Hl1, Ha1.
  fold (sample pool count entry r2) in Hl2, Ha2.
  fold exp in Hl1, Ha1. fold ent in Hl2, Ha2.
  assert (length exp = length ent) as Hlen by lia.
  assert (advancedTotal pool count entry
            ≤ advancedTotal pool count experienced) as Htot.
  { apply sumFrom_le. intros k. apply rawAdvanced_entry_le_experienced. }
  split; [done|]. split; [done|]. split; [done|].
  split; [apply rawAdvanced_entry_le_experienced|].
  split; [intros w Hw; unfold Math_round_ratio; div_lia|].
  split; [lia|]. rewrite Hlen. apply Nat.mul_le_mono_r. lia.
Qed.

Lemma advanced_share_experienced_ge_entry_witness :
  let exp := sample pool_abundant 2 experienced (λ k, k) in
  let ent := sample pool_abundant 2 entry (λ k, 2 * k)%nat in
  (countDifficulty advanced ent ≤ countDifficulty advanced exp)%nat ∧
  (countDifficulty advanced ent * length exp
     ≤ countDifficulty advanced exp * length ent)%nat.
Proof.
  assert (abundant pool_abundant 2) as Hab.
  { intros [|[|index]] week level Hweek; vm_compute in Hweek;
      [|discriminate..].
    injection Hweek as <-. destruct level; vm_compute; repeat split. }
  pose proof (advanced_share_experienced_ge_entry pool_abundant 2
                (λ k, k) (λ k, 2 * k)%nat Hab)
    as (_ & _ & _ & _ & _ & H).
  exact H.
Defined.

(** C7. The sampler returns a (possibly empty) sequence on every input;
    the sequence is empty when the pool is empty and when [count] is zero
    or negative. *)
Theorem selectRandomQuestions_empty pool count level r c :
  pool = [] ∨ count ≤ 0 →
  (selectRandomQuestions pool count level r c).1 = [].
Proof.
  intros [->|Hc]; [done|].
  pose proof (selectRandomQuestions_sampling pool count level r c) as Hs.
  by eapply sampling_empty.
Qed.

Lemma selectRandomQuestions_empty_witness :
  (selectRandomQuestions pool_two_weeks (-3) experienced (λ k, k) 0%nat).1
    = [].
Proof.
  apply (selectRandomQuestions_empty pool_two_weeks (-3) experienced).
  right. lia.
Defined.

(** C8. In the store, [shuffleArray] leaves every existing array as it
    was, its argument included, and returns a new array holding a
    permutation of the argument.  [selectRandomQuestions] leaves every
    existing array as it was, the pool with all its records included, and
    returns a new array that holds what the sampler computes from the
    elements of the pool, each of them a record of the pool. *)
Theorem sampler_leaves_its_inputs_unchanged (h : Store) c r a l questions
    pool count level :
  h !! a = Some l → h !! questions = Some pool →
  (let shuffled := (Heap.shuffleArray a r (Heap.mkState h c)).1 in
   let h' := Heap.arrays (Heap.shuffleArray a r (Heap.mkState h c)).2 in
   (∀ b x, h !! b = Some x → h' !! b = Some x) ∧
   h' !! a = Some l ∧
   (length h ≤ shuffled)%nat ∧
   ∃ l', h' !! shuffled = Some l' ∧ l' ≡ₚ l ∧ length l' = length l) ∧
  (let run :=
     Heap.selectRandomQuestions questions count level r (Heap.mkState h c) in
   let res := run.1 in
   let s' := run.2 in
   (∀ b x, h !! b = Some x → Heap.arrays s' !! b = Some x) ∧
   Heap.arrays s' !! questions = Some pool ∧
   (length h ≤ res)%nat ∧
   Heap.arrays s' !! res
     = Some (selectRandomQuestions pool count level r c).1 ∧
   Heap.calls s' = (selectRandomQuestions pool count level r c).2 ∧
   (selectRandomQuestions pool count level r c).1 ⊆+ pool ∧
   ∀ q, q ∈ (selectRandomQuestions pool count level r c).1 →
        q ∈ pool).
Proof.
  intros Ha Hq. split.
  - eapply (wp_shuffleArray a l r h c); [done|]. intros h' b [L E] Lb Hb.
    cbn [Heap.arrays].
    assert (∀ b x, h !! b = Some x → h' !! b = Some x) as Hkeep.
    { intros b' x. apply E, not_elem_of_nil. }
    split; [done|]. split; [by apply Hkeep|]. split; [done|].
    eexists. split; [done|].
    pose proof (shuffleArray_Permutation l r c) as Hperm.
    split; [done|]. by apply Permutation_length.
  - intros run. unfold run. clear run.
    eapply (wp_selectRandomQuestions questions pool count level r h c);
      [done|].
    intros h' res [L E] Lres Hres. cbn [Heap.arrays Heap.calls].
    assert (∀ b x, h !! b = Some x → h' !! b = Some x) as Hkeep.
    { intros b' x. apply E, not_elem_of_nil. }
    pose proof (selectRandomQuestions_sampling pool count level r c) as Hs.
    apply sampling_submseteq in Hs.
    split; [done|]. split; [by apply Hkeep|]. split; [done|].
    split; [done|]. split; [done|]. split; [done|].
    intros q Hin. by eapply elem_of_submseteq.
Qed.

Lemma sampler_leaves_its_inputs_unchanged_witness :
  let run :=
    Heap.selectRandomQuestions 1%nat 3 entry (λ k, k)
      (Heap.mkState store0 0) in
  let s' := run.2 in
  let res := run.1 in
  Heap.arrays s' !! 1%nat = Some pool_two_weeks ∧
  Heap.arrays s' !! 0%nat = Some pool_shared_id ∧
  (length store0 ≤ res)%nat.
Proof.
  destruct (sampler_leaves_its_inputs_unchanged store0 0 (λ k, k) 0%nat
              pool_shared_id 1%nat pool_two_weeks 3 entry)
    as [_ (Hkeep & Hpool & Hres & _)]; [reflexivity..|].
  split; [exact Hpool|]. split; [|exact Hres].
  apply Hkeep. reflexivity.
Defined.

(** C9. A question whose [weekNumber] is absent or is 0 is filed under
    the key 99, in one group with the questions of week 99; no group 0
    exists, and a pool of week-0 questions is the single group 99. *)
Theorem falsy_weekNumber_grouped_as_99 pool q :
  q ∈ pool → (weekNumber q = None ∨ weekNumber q = Some 0) →
  weekNum q = 99 ∧
  99 ∈ sortedWeeks pool ∧ (0 ∉ sortedWeeks pool) ∧
  q ∈ Map_get_present (groupByWeek pool) 99 ∧
  Map_get_present (groupByWeek pool) 99
    = filter (λ q', weekNumber q' = None ∨ weekNumber q' = Some 0
                    ∨ weekNumber q' = Some 99) pool ∧
  (Forall (λ q', weekNumber q' = Some 0) pool →
   groupByWeek pool = [(99, pool)] ∧ sortedWeeks pool = [99]).
Proof.
  intros Hq Hfalsy.
  destruct (groupByWeek_grouped pool) as (Hnd & Hkeys & Hget).
  assert (weekNum q = 99) as Hq99.
  { unfold weekNum. by destruct Hfalsy as [-> | ->]. }
  assert (∀ q', weekNum q' = 99 ↔
            weekNumber q' = None ∨ weekNumber q' = Some 0
            ∨ weekNumber q' = Some 99) as H99.
  { intros q'. unfold weekNum. destruct (weekNumber q') as [w|].
    - case_decide; [subst w|]; split; try done; auto.
      + intros ->. auto.
      + intros [?|[?|?]]; congruence.
    - split; auto. }
  assert (∀ q', weekNum q' ≠ 0) as H0.
  { intros q'. unfold weekNum. destruct (weekNumber q') as [w|]; [|done].
    by case_decide. }
  split; [done|]. split; [|split; [|split; [|split]]].
  - rewrite sortedWeeks_Permutation, Hkeys, <-Hq99.
    by apply list_elem_of_fmap_2.
  - rewrite sortedWeeks_Permutation, Hkeys, list_elem_of_fmap.
    intros (q' & Heq & _). by apply (H0 q').
  - rewrite Hget. by apply list_elem_of_filter.
  - rewrite Hget. by apply list_filter_iff.
  - intros Hall.
    assert (filter (λ q', weekNum q' = 99) pool = pool) as Hfilter.
    { apply filter_all. eapply Forall_impl; [exact Hall|].
      intros q' Hq'. apply H99. auto. }
    assert ((groupByWeek pool).*1 = [99]) as Hk.
    { assert (∀ k, k ∈ (groupByWeek pool).*1 → k = 99) as Hall99.
      { intros k [q' [-> Hq']]%Hkeys%list_elem_of_fmap.
        rewrite Forall_forall in Hall. apply H99. auto. }
      assert (99 ∈ (groupByWeek pool).*1) as Hin.
      { rewrite Hkeys, <-Hq99. by apply list_elem_of_fmap_2. }
      destruct ((groupByWeek pool).*1) as [|k1 [|k2 ks]].
      - by apply not_elem_of_nil in Hin.
      - f_equal. apply Hall99. left.
      - apply NoDup_cons in Hnd as [Hnin _]. exfalso. apply Hnin.
        rewrite (Hall99 k1), (Hall99 k2); [left|right; left|left]. }
    split; [|unfold sortedWeeks; by rewrite Hk].
    specialize (Hget 99). rewrite Hfilter in Hget.
    destruct (groupByWeek pool) as [|[k v] [|e m]]; try done.
    simpl in Hk. injection Hk as ->.
    vm_compute in Hget. by subst v.
Qed.

Lemma falsy_weekNumber_grouped_as_99_witness :
  groupByWeek pool_week_0 = [(99, pool_week_0)] ∧
  sortedWeeks pool_week_0 = [99].
Proof.
  destruct (falsy_weekNumber_grouped_as_99 pool_week_0
              (mkq "week0-q1" beginner (Some 0)))
    as (_ & _ & _ & _ & _ & H).
  - left.
  - by right.
  - apply H. by repeat constructor.
Defined.

(** C10. Two runs on the same pool, count and level whose random sources
    return the same values on the calls the first run makes return the
    same sequence, element for element, after the same number of calls. *)
Theorem selectRandomQuestions_deterministic pool count level r1 r2 c :
  (∀ k, (c ≤ k < (selectRandomQuestions pool count level r1 c).2)%nat →
        r1 k = r2 k) →
  selectRandomQuestions pool count level r2 c
    = selectRandomQuestions pool count level r1 c.
Proof.
  intros Hagree.
  destruct (reads_selectRandomQuestions pool count level r1 r2 c)
    as [_ Hsame].
  exact (Hsame Hagree).
Qed.

Lemma selectRandomQuestions_deterministic_witness :
  selectRandomQuestions pool_two_weeks 3 entry
      (λ k, if decide (k < 2)%nat then k else 7%nat) 0%nat
    = selectRandomQuestions pool_two_weeks 3 entry (λ k, k) 0%nat.
Proof.
  apply (selectRandomQuestions_deterministic pool_two_weeks 3 entry
           (λ k, k) (λ k, if decide (k < 2)%nat then k else 7%nat) 0%nat).
  intros k Hk. vm_compute in Hk. rewrite decide_True; [done|lia].
Defined.

(** * The session store *)


(** X2. When the ids of the pool are pairwise distinct, the assessment of
    every selected question starts with all the keywords of the question
    missed, in the order of the question. *)
Theorem createSession_keywords_start_missed clock questions questionCount
    selectedWeeks candidateName interviewerName level st r c q :
  let st' := (createSession clock questions questionCount selectedWeeks
                candidateName interviewerName level st r c).1 in
  NoDup (id <$> questions) →
  inr q ∈ getAllQuestions st' →
  getAssessment (id q) st' = Some (initialAssessment (id q) (keywords q)).
Proof.
  intros st' Hnd Hq. apply createSession_initial_assessment; [done|].
  destruct (createSession_getAllQuestions clock questions questionCount
              selectedWeeks candidateName interviewerName level st r c)
    as (sq1 & sq2 & _ & _ & Hall).
  fold st' in Hall. rewrite Hall in Hq.
  rewrite !elem_of_cons in Hq. destruct Hq as [[=]|[[=]|Hq]].
  by apply list_elem_of_fmap in Hq as (q' & [= <-] & Hq).
Qed.

Lemma createSession_keywords_start_missed_witness :
  getAssessment "week1-q1" store_keywords
  = Some (initialAssessment "week1-q1" ["scope"; "function"; "environment"]).
Proof.
  apply (createSession_keywords_start_missed clock0 pool_keywords 2 [1] None
           None None initialStore (λ k, k) 0%nat
           {| id := "week1-q1"; questionNumber := 1;
              question := "What is a closure?";
              keywords := ["scope"; "function"; "environment"];
              modelAnswer := EmptyString; difficulty := beginner;
              weekNumber := Some 1 |}).
  - apply (bool_decide_unpack _). vm_compute. exact I.
  - apply (bool_decide_unpack _). vm_compute. exact I.
Defined.

(** X3. Starting an interview from the setup page with a pool of pairwise
    distinct ids that is not empty and a question count that is not
    negative stores a session of [2 + min(questionCount, pool size)]
    questions, the two starter questions first, and shows the first of
    them. *)
Theorem handleStartInterview_progress clock loadedQuestions questionCount
    candidateName interviewerName st r c :
  let st' := (handleStartInterview clock loadedQuestions questionCount
                candidateName interviewerName st r c).1 in
  loadedQuestions ≠ [] → NoDup (id <$> loadedQuestions) → 0 ≤ questionCount →
  getProgress st'
  = {| current := 1;
       total := 2 + Z.min questionCount (length loadedQuestions) |} ∧
  ∃ sq1 sq2 selected,
    getAllQuestions st' = inl sq1 :: inl sq2 :: (inr <$> selected) ∧
    selected ⊆+ loadedQuestions.
Proof.
  intros st' Hne Hnd Hc. subst st'. unfold handleStartInterview.
  case_decide as Hlen; [by destruct loadedQuestions|].
  set (n := Z.min questionCount (length loadedQuestions)).
  destruct (createSession_session clock loadedQuestions n [1]
              (orUndefined candidateName) (orUndefined interviewerName)
              (Some (interviewLevel st)) st r c)
    as (s & selected & starters & Hs & Hsel & Hids & Hst & Hqs & Hi & _).
  destruct (createSession_getAllQuestions clock loadedQuestions n [1]
              (orUndefined candidateName) (orUndefined interviewerName)
              (Some (interviewLevel st)) st r c)
    as (sq1 & sq2 & _ & _ & Hall).
  rewrite <-Hsel in Hall.
  pose proof (selectRandomQuestions_sampling loadedQuestions n
                (default entry (Some (interviewLevel st))) r c) as Hsam.
  rewrite <-Hsel in Hsam.
  split.
  - unfold getProgress. rewrite Hs, Hi, Hall. f_equal. simpl.
    rewrite length_fmap.
    apply sampling_length in Hsam; [|done|lia]. lia.
  - exists sq1, sq2, selected. split; [done|]. by eapply sampling_submseteq.
Qed.

Lemma handleStartInterview_progress_witness :
  getProgress (handleStartInterview clock0 pool_keywords 10 "Ada" EmptyString
                 initialStore (λ k, k) 0%nat).1
  = {| current := 1; total := 2 + Z.min 10 (length pool_keywords) |}.
Proof.
  refine (proj1 (handleStartInterview_progress clock0 pool_keywords 10 "Ada"
                   EmptyString initialStore (λ k, k) 0%nat _ _ _)).
  - discriminate.
  - apply (bool_decide_unpack _). vm_compute. exact I.
  - lia.
Defined.

(** X4. Toggling a keyword of an assessed question moves the keyword to
    the other list: afterwards it is hit exactly when it was not hit
    before, and missed exactly when it was hit before; the other keywords
    stay in the lists they were in, and no other assessment changes. *)
Theorem toggleKeyword_moves_keyword questionId keyword st a :
  getAssessment questionId st = Some a →
  ∃ a', getAssessment questionId (toggleKeyword questionId keyword st)
        = Some a' ∧
    (keyword ∈ keywordsHit a' ↔ keyword ∉ keywordsHit a) ∧
    (keyword ∈ keywordsMissed a' ↔ keyword ∈ keywordsHit a) ∧
    (∀ k, k ≠ keyword →
       (k ∈ keywordsHit a' ↔ k ∈ keywordsHit a) ∧
       (k ∈ keywordsMissed a' ↔ k ∈ keywordsMissed a)) ∧
    (∀ other, other ≠ questionId →
       getAssessment other (toggleKeyword questionId keyword st)
       = getAssessment other st).
Proof.
  unfold getAssessment, toggleKeyword.
  destruct (session st) as [s|] eqn:Hs; [|done]. intros Ha. rewrite Ha.
  unfold includes.
  case_bool_decide as Hhit; simpl; rewrite lookup_insert_eq;
    (eexists; split; [done|]); simpl; split_and!;
    try (intros other Hother; by rewrite lookup_insert_ne);
    try intros k Hk;
    rewrite ?list_elem_of_filter, ?elem_of_app, ?list_elem_of_singleton;
    intuition congruence.
Qed.

Lemma toggleKeyword_moves_keyword_witness :
  ∃ a', getAssessment "week1-q1" (toggleKeyword "week1-q1" "scope" store_keywords)
        = Some a' ∧
    ("scope" ∈ keywordsHit a'
     ↔ "scope" ∉ keywordsHit (initialAssessment "week1-q1"
                                ["scope"; "function"; "environment"])).
Proof.
  destruct (toggleKeyword_moves_keyword "week1-q1" "scope" store_keywords
              (initialAssessment "week1-q1"
                 ["scope"; "function"; "environment"]))
    as (a' & Ha' & Hhit & _).
  - vm_compute. reflexivity.
  - exists a'. split; [exact Ha'|exact Hhit].
Defined.

(** X5. Toggling the same keyword twice restores both lists up to their
    order, when the lists share no keyword, hold none twice, and the
    keyword is in one of them. *)
Theorem toggleKeyword_twice questionId keyword st a :
  getAssessment questionId st = Some a →
  NoDup (keywordsHit a ++ keywordsMissed a) →
  keyword ∈ keywordsHit a ++ keywordsMissed a →
  ∃ a'', getAssessment questionId
           (toggleKeyword questionId keyword
              (toggleKeyword questionId keyword st)) = Some a'' ∧
    keywordsHit a'' ≡ₚ keywordsHit a ∧
    keywordsMissed a'' ≡ₚ keywordsMissed a.
Proof.
  unfold getAssessment, toggleKeyword.
  destruct (session st) as [s|] eqn:Hs; [|done]. intros Ha Hnd Hin.
  rewrite Ha. apply NoDup_app in Hnd as (Hhit & Hdisj & Hmissed).
  unfold includes. case_bool_decide as Hk; simpl; rewrite lookup_insert_eq;
    simpl.
  - rewrite bool_decide_false.
    2:{ rewrite list_elem_of_filter. by intros [? _]. }
    simpl. rewrite lookup_insert_eq. eexists. split; [done|]. simpl.
    rewrite filter_app, (filter_ne_absent (keywordsMissed a))
      by by apply Hdisj.
    rewrite filter_cons_False, filter_nil, app_nil_r by by intros ?.
    split; [|done]. rewrite (NoDup_filter_ne (keywordsHit a) keyword) at 2
      by done.
    by rewrite <-Permutation_cons_append.
  - apply elem_of_app in Hin as [?|Hin]; [done|].
    rewrite bool_decide_true.
    2:{ rewrite elem_of_app, list_elem_of_singleton. by right. }
    simpl. rewrite lookup_insert_eq. eexists. split; [done|]. simpl.
    rewrite filter_app, (filter_ne_absent (keywordsHit a)) by done.
    rewrite filter_cons_False, filter_nil, app_nil_r by by intros ?.
    split; [done|]. rewrite (NoDup_filter_ne (keywordsMissed a) keyword) at 2
      by done.
    by rewrite <-Permutation_cons_append.
Qed.

Lemma toggleKeyword_twice_witness :
  ∃ a'', getAssessment "week1-q1"
           (toggleKeyword "week1-q1" "scope"
              (toggleKeyword "week1-q1" "scope" store_keywords)) = Some a'' ∧
    keywordsHit a'' ≡ₚ [] ∧
    keywordsMissed a'' ≡ₚ ["scope"; "function"; "environment"].
Proof.
  apply (toggleKeyword_twice "week1-q1" "scope" store_keywords
           (initialAssessment "week1-q1"
              ["scope"; "function"; "environment"])).
  - vm_compute. reflexivity.
  - apply (bool_decide_unpack _). vm_compute. exact I.
  - apply (bool_decide_unpack _). vm_compute. exact I.
Defined.



(** X8. From a new session on, whatever sequence of actions follows, as
    long as no jump goes to a position outside the list of questions,
    there is a current question and the progress shown lies between 1 and
    the number of questions. *)
Theorem navigation_stays_inside clock questions questionCount selectedWeeks
    candidateName interviewerName level st r c actions :
  let st1 := (createSession clock questions questionCount selectedWeeks
                candidateName interviewerName level st r c).1 in
  let st2 := performAll actions st1 in
  Forall (jumpsInside (length (getAllQuestions st1))) actions →
  is_Some (getCurrentQuestion st2) ∧
  1 ≤ current (getProgress st2) ≤ total (getProgress st2).
Proof.
  intros st1 st2 Hjumps.
  destruct (createSession_session clock questions questionCount selectedWeeks
              candidateName interviewerName level st r c)
    as (s1 & _ & _ & Hs1 & _ & _ & _ & _ & Hi1 & _).
  destruct (createSession_getAllQuestions clock questions questionCount
              selectedWeeks candidateName interviewerName level st r c)
    as (sq1 & sq2 & _ & _ & Hall).
  fold st1 in Hs1, Hall.
  assert (∃ s2, session st2 = Some s2 ∧
            0 ≤ InterviewSession.currentQuestionIndex s2
              < length (getAllQuestions st1)) as (s2 & Hs2 & Hi2).
  { subst st2. induction actions as [|a actions IH] using rev_ind.
    - exists s1. split; [done|]. rewrite Hi1, Hall. simpl. lia.
    - apply Forall_app in Hjumps as [Hjumps Ha].
      apply Forall_inv in Ha.
      destruct (IH Hjumps) as (s2 & Hs2 & Hi2).
      rewrite performAll_snoc.
      rewrite <-(performAll_getAllQuestions actions st1) in Hi2, Ha |- *.
      eapply perform_index_in_range; [exact Hs2|exact Hi2|exact Ha]. }
  assert (getAllQuestions st2 = getAllQuestions st1) as Hq
    by apply performAll_getAllQuestions.
  unfold getCurrentQuestion, getProgress, Array_at. rewrite Hs2, Hq. simpl.
  split; [|lia].
  rewrite decide_True by lia. apply lookup_lt_is_Some. lia.
Qed.

Lemma navigation_stays_inside_witness :
  is_Some (getCurrentQuestion
             (performAll [NextQuestion; NextQuestion; NextQuestion;
                          NextQuestion; PreviousQuestion;
                          SetCurrentQuestionIndex 3; NextQuestion]
                store_keywords)).
Proof.
  refine (proj1 (navigation_stays_inside clock0 pool_keywords 2 [1] None None
                   None initialStore (λ k, k) 0%nat
                   [NextQuestion; NextQuestion; NextQuestion; NextQuestion;
                    PreviousQuestion; SetCurrentQuestionIndex 3; NextQuestion]
                   _)).
  repeat constructor; vm_compute; congruence.
Defined.



(** X10. Actions about other questions, and actions about no question,
    leave the assessment of a question as it is, however many of them
    follow each other. *)
Theorem actions_touch_one_assessment actions st k :
  Forall (λ a, addressed a ≠ Some k) actions →
  getAssessment k (performAll actions st) = getAssessment k st.
Proof.
  revert st. induction actions as [|a actions IH]; intros st Hactions;
    [done|].
  apply Forall_cons in Hactions as [Ha Hactions]. cbn [performAll foldl].
  fold (performAll actions (perform a st)).
  rewrite IH by done. by apply perform_other_assessment.
Qed.

Lemma actions_touch_one_assessment_witness :
  getAssessment "week1-q2"
    (performAll [ToggleKeyword "week1-q1" "scope"; NextQuestion;
                 SetInterviewerNotes "week1-q1" "clear answer"]
       store_keywords)
  = getAssessment "week1-q2" store_keywords.
Proof.
  apply (actions_touch_one_assessment
           [ToggleKeyword "week1-q1" "scope"; NextQuestion;
            SetInterviewerNotes "week1-q1" "clear answer"]
           store_keywords "week1-q2").
  repeat (apply List.Forall_cons || apply List.Forall_nil); discriminate.
Defined.

(** X11. When the ids of the pool are pairwise distinct and no question
    lists a keyword twice, then from a new session on, whatever sequence of
    actions follows, as long as the keyword lists are changed only by
    toggling keywords of the question addressed, every keyword of a
    selected question is in exactly one of the two lists of its
    assessment, once: the number of keywords hit plus the number of
    keywords missed stays the number of keywords of the question. *)
Theorem keywords_stay_accounted clock questions questionCount selectedWeeks
    candidateName interviewerName level st r c actions q :
  let st1 := (createSession clock questions questionCount selectedWeeks
                candidateName interviewerName level st r c).1 in
  let selected := (selectRandomQuestions questions questionCount
                     (default entry level) r c).1 in
  NoDup (id <$> questions) →
  (∀ q, q ∈ questions → NoDup (keywords q)) →
  Forall (togglesOwnKeywords selected) actions →
  q ∈ selected →
  ∃ a, getAssessment (id q) (performAll actions st1) = Some a ∧
    keywordsHit a ++ keywordsMissed a ≡ₚ keywords q ∧
    (length (keywordsHit a) + length (keywordsMissed a))%nat
    = length (keywords q).
Proof.
  intros st1 selected Hnd Hkw Hactions Hq.
  assert (selected ⊆+ questions) as Hsub.
  { eapply sampling_submseteq, selectRandomQuestions_sampling. }
  assert (keywordsAccounted q (performAll actions st1)) as (a & Ha & Hperm).
  { induction actions as [|act actions IH] using rev_ind.
    - exists (initialAssessment (id q) (keywords q)). split; [|done].
      by apply createSession_initial_assessment.
    - apply Forall_app in Hactions as [Hactions Hact].
      apply Forall_inv in Hact. rewrite performAll_snoc.
      eapply perform_keywordsAccounted; [|done..|by apply IH].
      apply Hkw. by eapply elem_of_submseteq. }
  exists a. split_and!; [done..|].
  by rewrite <-length_app, Hperm.
Qed.

Lemma keywords_stay_accounted_witness :
  ∃ a, getAssessment "week1-q1"
         (performAll [ToggleKeyword "week1-q1" "scope";
                      ToggleKeyword "week1-q2" "then";
                      ToggleKeyword "week1-q1" "function";
                      SetInterviewerNotes "week1-q1" "clear answer";
                      ToggleKeyword "week1-q1" "scope"]
            store_keywords) = Some a ∧
    keywordsHit a ++ keywordsMissed a ≡ₚ ["scope"; "function"; "environment"] ∧
    (length (keywordsHit a) + length (keywordsMissed a))%nat = 3%nat.
Proof.
  apply (keywords_stay_accounted clock0 pool_keywords 2 [1] None None None
           initialStore (λ k, k) 0%nat
           [ToggleKeyword "week1-q1" "scope";
            ToggleKeyword "week1-q2" "then";
            ToggleKeyword "week1-q1" "function";
            SetInterviewerNotes "week1-q1" "clear answer";
            ToggleKeyword "week1-q1" "scope"]
           {| id := "week1-q1"; questionNumber := 1;
              question := "What is a closure?";
              keywords := ["scope"; "function"; "environment"];
              modelAnswer := EmptyString; difficulty := beginner;
              weekNumber := Some 1 |}).
  - apply (bool_decide_unpack _). vm_compute. exact I.
  - apply Forall_forall. apply (bool_decide_unpack _). vm_compute. exact I.
  - repeat (apply List.Forall_cons || apply List.Forall_nil);
      try exact I;
      (intros q Hq Hid; vm_compute in Hq;
       apply elem_of_cons in Hq as [->|Hq];
       [|apply elem_of_cons in Hq as [->|Hq];
         [|by apply not_elem_of_nil in Hq]];
       try discriminate Hid;
       apply (bool_decide_unpack _); vm_compute; exact I).
  - apply (bool_decide_unpack _). vm_compute. exact I.
Defined.

(** X12. Selecting a question bank on the setup page toggles it by its
    path: afterwards a bank with this path is selected exactly when none
    was before; the banks with other paths stay as they were, in their
    order; no path comes to be selected twice; the session is not
    touched. *)
Theorem toggleTech_toggles_by_path tech st :
  let paths st := GitHubFile.path <$> selectedTechs st in
  let st' := toggleTech tech st in
  (GitHubFile.path tech ∈ paths st' ↔ GitHubFile.path tech ∉ paths st) ∧
  filter (λ t, GitHubFile.path t ≠ GitHubFile.path tech) (selectedTechs st')
    = filter (λ t, GitHubFile.path t ≠ GitHubFile.path tech)
        (selectedTechs st) ∧
  (NoDup (paths st) → NoDup (paths st')) ∧
  session st' = session st.
Proof.
  intros paths st'. subst paths st'. unfold toggleTech. simpl.
  case_bool_decide as Hin; split_and!; try done.
  - split; [|done]. intros (t & Hp & Ht)%list_elem_of_fmap.
    apply list_elem_of_filter in Ht as [Hne _]. by destruct Hne.
  - clear Hin. induction (selectedTechs st) as [|t l IH]; [done|].
    destruct (decide (GitHubFile.path t = GitHubFile.path tech)) as [Heq|Hne].
    + rewrite !filter_cons_False by (intros H; by apply H). apply IH.
    + rewrite !filter_cons_True by done. by rewrite IH.
  - intros Hnd. clear Hin. induction (selectedTechs st) as [|t l IH]; [done|].
    rewrite fmap_cons in Hnd. apply NoDup_cons in Hnd as [Ht Hnd].
    destruct (decide (GitHubFile.path t = GitHubFile.path tech)) as [Heq|Hne].
    + rewrite filter_cons_False by (intros H; by apply H). by apply IH.
    + rewrite filter_cons_True by done. rewrite fmap_cons.
      apply NoDup_cons. split; [|by apply IH].
      intros (t' & Hp & Ht')%list_elem_of_fmap. apply Ht.
      apply list_elem_of_filter in Ht' as [_ Ht'].
      rewrite Hp. by apply list_elem_of_fmap_2.
  - split; [done|]. intros _. rewrite fmap_app, elem_of_app. right. left.
  - rewrite filter_app, filter_cons_False, filter_nil, app_nil_r; [done|].
    intros H. by apply H.
  - intros Hnd. rewrite fmap_app. apply NoDup_app. split_and!; [done| |].
    + intros p Hp ->%list_elem_of_singleton. done.
    + apply NoDup_singleton.
Qed.

(** * The markdown parser *)

(** X13. The questions loaded from the selected banks have pairwise
    distinct ids exactly when no bank repeats a question number: a
    question of the bank at position [index] with number [n] gets the id
    [week<index+1>-q<n>], and different positions or numbers give
    different ids. *)
Theorem loaded_ids_distinct contents :
  (∀ q, q ∈ loadSelectedQuestions contents →
        ∃ index : nat, (index < length contents)%nat ∧
          weekNumber q = Some (Z.of_nat (index + 1)) ∧
          id q = questionIdOf (index + 1)%nat (questionNumber q)) ∧
  (NoDup (id <$> loadSelectedQuestions contents) ↔
   ∀ (index : nat) content, contents !! index = Some content →
     NoDup (questionNumber
              <$> parseInterviewQuestions content (index + 1)%nat)).
Proof.
  rewrite loadSelectedQuestions_concat. split.
  - intros q (l & Hq & Hl)%elem_of_concat.
    apply elem_of_lookup_imap_1 in Hl as (index & content & -> & Hc).
    exists index. split; [by eapply lookup_lt_Some|].
    split; [|by eapply parsed_id].
    revert q Hq. apply Forall_forall, parseInterviewQuestions_Forall.
    intros block d q Hq. by apply parseBlock_Some in Hq as (_ & _ & ? & _).
  - apply (loaded_ids_from 0).
Qed.

(** X14. The texts of a parsed question: the question text is a single
    line (no line feed, no carriage return) without white space at either
    end, and so is every keyword, which moreover holds no comma.  The
    question number is not negative. *)
Theorem parsed_texts_are_trimmed_lines content weekNumber q :
  q ∈ parseInterviewQuestions content weekNumber →
  allChars isDot (question q) = true ∧ trimmed (question q) ∧
  Forall (λ keyword, allChars isKeywordChar keyword = true ∧ trimmed keyword)
         (keywords q) ∧
  0 ≤ questionNumber q.
Proof.
  revert q. apply Forall_forall, parseInterviewQuestions_Forall.
  intros block d q Hq.
  destruct (parseBlock_texts _ _ _ _ Hq) as (H1 & H2 & H3).
  apply parseBlock_Some in Hq as (_ & _ & _ & _ & H4). done.
Qed.

Lemma parsed_texts_are_trimmed_lines_witness :
  let q := {| id := "week1-q2"; questionNumber := 2;
              question := "What is a promise?"; keywords := ["async"; "then"];
              modelAnswer := EmptyString; difficulty := beginner;
              weekNumber := Some 1 |} in
  allChars isDot (question q) = true ∧ trimmed (question q) ∧
  Forall (λ keyword, allChars isKeywordChar keyword = true ∧ trimmed keyword)
         (keywords q) ∧
  0 ≤ questionNumber q.
Proof.
  intros q. apply (parsed_texts_are_trimmed_lines bank_closures 1 q).
  apply (bool_decide_unpack _). vm_compute. exact I.
Defined.

(** X15. The split at the question headers loses nothing and cuts
    exactly at the headers: the blocks put together give the text again;
    no block of a text that is not empty is empty; every block but the
    first starts where a question header starts, and no header starts at
    another position of a block. *)
Theorem questionBlocks_partition s pre block post :
  String_split_regex s re_questionStart = pre ++ block :: post →
  joined (pre ++ block :: post) = s ∧
  (s ≠ EmptyString → block ≠ EmptyString) ∧
  (pre ≠ [] → startsQuestion (block +:+ joined post) = true) ∧
  (∀ n, (1 ≤ n < String.length block)%nat →
        startsQuestion (String_drop n (block +:+ joined post)) = false).
Proof.
  rewrite String_split_questionStart. intros Hcut. split_and!.
  - by rewrite <-Hcut, joined_cutBefore.
  - intros Hs.
    pose proof (cutBefore_pieces_nonempty startsQuestion EmptyString s Hs)
      as Hne.
    rewrite Hcut, Forall_forall in Hne. apply Hne.
    apply elem_of_app. right. left.
  - by apply (cutBefore_cuts _ _ _ _ _ _ Hcut).
  - intros n Hn. apply (cutBefore_cuts _ _ _ _ _ _ Hcut); [done|].
    intros _. simpl. lia.
Qed.

Lemma questionBlocks_partition_witness :
  joined ([lines ["# JavaScript"; "## Beginner"]]
          ++ lines ["### Q1: What is a closure?";
                    "**Keywords:** scope, function"]
          :: [lines ["### Q2: What is a promise?";
                     "**Keywords:** async, then"]])
  = bank_closures.
Proof.
  apply (questionBlocks_partition bank_closures
           [lines ["# JavaScript"; "## Beginner"]]
           (lines ["### Q1: What is a closure?";
                   "**Keywords:** scope, function"])
           [lines ["### Q2: What is a promise?";
                   "**Keywords:** async, then"]]).
  vm_compute. reflexivity.
Defined.

(** X16. A content in which [###] does not occur, the empty content
    included, has no questions. *)
Theorem content_without_hashes_has_no_questions content weekNumber :
  String_includes content "###" = false →
  parseInterviewQuestions content weekNumber = [].
Proof. apply parse_without_hashes. Qed.

Lemma content_without_hashes_has_no_questions_witness :
  parseInterviewQuestions bank_readme 1 = [].
Proof.
  apply (content_without_hashes_has_no_questions bank_readme 1).
  vm_compute. reflexivity.
Defined.

(** X17. When none of [## Intermediate], [Application], [## Advanced]
    and [Deep Dive] occurs in the content, every question is a beginner
    question. *)
Theorem content_without_later_sections_is_beginner content weekNumber q :
  Forall (λ marker, String_includes content marker = false)
         laterSectionMarkers →
  q ∈ parseInterviewQuestions content weekNumber →
  difficulty q = beginner.
Proof.
  intros Hc. revert q. apply Forall_forall. by apply parse_without_markers.
Qed.

Lemma content_without_later_sections_is_beginner_witness :
  difficulty {| id := "week1-q2"; questionNumber := 2;
                question := "What is a promise?"; keywords := ["async"; "then"];
                modelAnswer := EmptyString; difficulty := beginner;
                weekNumber := Some 1 |} = beginner.
Proof.
  apply (content_without_later_sections_is_beginner bank_closures 1).
  - apply (bool_decide_unpack _). vm_compute. exact I.
  - apply (bool_decide_unpack _). vm_compute. exact I.
Defined.





(** * The sampler, the banks and the session together *)

(** X20. The sampler selects from the pool: the result holds no question
    more often than the pool does, so every question of the result is a
    question of the pool and the result is not longer than the pool, for
    every pool, also one whose ids repeat, and every count. *)
Theorem selectRandomQuestions_selects_from_pool pool count level r c :
  let res := (selectRandomQuestions pool count level r c).1 in
  res ⊆+ pool ∧ (∀ q, q ∈ res → q ∈ pool) ∧ (length res ≤ length pool)%nat.
Proof.
  intros res.
  assert (res ⊆+ pool) as Hsub
    by eapply sampling_submseteq, selectRandomQuestions_sampling.
  split_and!; [done| |by apply submseteq_length].
  intros q Hq. by eapply elem_of_submseteq.
Qed.

(** X21. Asked for at least as many questions as a pool of pairwise
    distinct ids holds, the sampler returns the whole pool in some
    order. *)
Theorem selectRandomQuestions_whole_pool pool count level r c :
  NoDup (id <$> pool) → length pool ≤ count →
  (selectRandomQuestions pool count level r c).1 ≡ₚ pool.
Proof.
  intros Hnd Hcount.
  pose proof (selectRandomQuestions_sampling pool count level r c) as Hs.
  apply submseteq_length_Permutation.
  - by eapply sampling_submseteq.
  - apply sampling_length in Hs; [|done|lia]. lia.
Qed.

Lemma selectRandomQuestions_whole_pool_witness :
  (selectRandomQuestions pool_two_weeks 8 experienced (λ k, k) 0%nat).1
  ≡ₚ pool_two_weeks.
Proof.
  apply (selectRandomQuestions_whole_pool pool_two_weeks 8 experienced
           (λ k, k) 0%nat).
  - apply (bool_decide_unpack _). vm_compute. exact I.
  - vm_compute. discriminate.
Defined.

(** X22. From the banks to the session.  When no selected bank repeats a
    question number and the banks hold a question at all, starting the
    interview with a count that is not negative gives a session of
    [2 + min(count, loaded questions)] questions whose ids are pairwise
    distinct, the starter questions included: each question has an
    assessment of its own, and the assessment of a technical question
    starts with all its keywords missed. *)
Theorem interview_from_banks clock contents questionCount candidateName
    interviewerName st r c :
  let loaded := loadSelectedQuestions contents in
  let st' := (handleStartInterview clock loaded questionCount candidateName
                interviewerName st r c).1 in
  loaded ≠ [] →
  (∀ (index : nat) content, contents !! index = Some content →
     NoDup (questionNumber
              <$> parseInterviewQuestions content (index + 1)%nat)) →
  0 ≤ questionCount →
  total (getProgress st') = 2 + Z.min questionCount (length loaded) ∧
  NoDup (idOf <$> getAllQuestions st') ∧
  ∀ q, inr q ∈ getAllQuestions st' →
       q ∈ loaded ∧
       getAssessment (id q) st'
       = Some (initialAssessment (id q) (keywords q)).
Proof.
  intros loaded st' Hne Hnumbers Hcount.
  assert (NoDup (id <$> loaded)) as Hnd.
  { unfold loaded. rewrite loadSelectedQuestions_concat.
    by apply (loaded_ids_from 0). }
  subst st'. unfold handleStartInterview.
  case_decide as Hlen; [by destruct loaded|].
  set (n := Z.min questionCount (length loaded)).
  set (level := Some (interviewLevel st)).
  destruct (createSession_session clock loaded n [1]
              (orUndefined candidateName) (orUndefined interviewerName)
              level st r c)
    as (s & selected & starters & Hs & Hsel & Hids & Hst & Hqs & Hi & _).
  destruct (createSession_getAllQuestions clock loaded n [1]
              (orUndefined candidateName) (orUndefined interviewerName)
              level st r c)
    as (sq1 & sq2 & Hid1 & Hid2 & Hall).
  rewrite <-Hsel in Hall.
  pose proof (selectRandomQuestions_sampling loaded n (default entry level)
                r c) as Hsam.
  rewrite <-Hsel in Hsam.
  pose proof (sampling_submseteq _ _ _ _ Hsam) as Hsub.
  split_and!.
  - unfold getProgress. rewrite Hs, Hall. simpl. rewrite length_fmap.
    apply sampling_length in Hsam; [|done|lia]. lia.
  - rewrite Hall, !fmap_cons, <-list_fmap_compose. simpl.
    rewrite Hid1, Hid2.
    assert (∀ i, i ∈ id <$> selected → i ≠ "starter-1" ∧ i ≠ "starter-2")
      as Hstarter.
    { intros i (q & -> & Hq)%list_elem_of_fmap.
      destruct (loaded_id contents q) as [week ->].
      - by eapply elem_of_submseteq.
      - apply questionIdOf_not_starter. }
    apply NoDup_cons. split.
    { rewrite elem_of_cons. intros [[=]|Hin]. by apply Hstarter in Hin as [? _]. }
    apply NoDup_cons. split.
    { intros Hin. by apply Hstarter in Hin as [_ ?]. }
    eapply submseteq_NoDup; [|exact Hnd]. by apply fmap_submseteq.
  - intros q Hq. rewrite Hall, !elem_of_cons in Hq.
    destruct Hq as [[=]|[[=]|Hq]].
    apply list_elem_of_fmap in Hq as (q' & [= <-] & Hq).
    split; [by eapply elem_of_submseteq|].
    apply createSession_initial_assessment; [done|]. by rewrite <-Hsel.
Qed.

Lemma interview_from_banks_witness :
  let loaded := loadSelectedQuestions [bank_closures; bank_closures] in
  let st' := (handleStartInterview clock0 loaded 3 "Ada" "Grace" initialStore
                (λ k, k) 0%nat).1 in
  total (getProgress st') = 2 + Z.min 3 (length loaded) ∧
  NoDup (idOf <$> getAllQuestions st') ∧
  ∀ q, inr q ∈ getAllQuestions st' →
       q ∈ loaded ∧
       getAssessment (id q) st'
       = Some (initialAssessment (id q) (keywords q)).
Proof.
  apply (interview_from_banks clock0 [bank_closures; bank_closures] 3 "Ada"
           "Grace" initialStore (λ k, k) 0%nat).
  - vm_compute. discriminate.
  - intros [|[|index]] content Hc; try discriminate Hc;
      injection Hc as <-; apply (bool_decide_unpack _); vm_compute; exact I.
  - lia.
Defined.
